(** * Vernier: the sampling profiler core of [ext/vernier/vernier.cc]

    A shallow embedding of the stack tree ([FrameList]), the incremental
    cursor over it ([SampleTranslator]), the run-length encoded
    [SampleList], the per-thread scheduling-state machine ([Thread],
    [ThreadTable]), the collectors' start/stop guards and one iteration of
    the sampler loop ([TimeCollector::sample_thread_run]), followed by the
    properties the specification states about them.  The time stamps, the
    frame and string tables with the exported result tables, the marker
    export, the hooks of the collectors and the reference count of the
    signal handler are embedded as well; their properties, and further
    ones of the parts above, make up the last part of the file.

    Conventions.
    - C++ member functions that mutate [*this] take the object and return
      the new one.  A function that can throw, raise, fail an assertion or
      run into undefined behaviour returns a [res].
    - Values the code obtains from the host (the clock, [pthread_self],
      [rb_profile_frames], ...) are read from a [Host.t] record.
    - [uint64_t] time stamps are [Z] with the wrap-around written out.
      Lengths and loop counters, which are never negative, are [nat]; node
      indices, where [-1] stands for the root, are [Z].  Node indices and
      lengths stay far below [2^31] in any session that fits in memory and
      are not truncated; the weight counter of a sample is checked against
      [INT_MAX]. *)

From Stdlib Require Import ZArith Lia String.
From stdpp Require Import base option list gmap strings.

(** ** Outcomes of fallible code *)

Inductive fault : Type :=
  | Thrown (what : string)   (* a C++ exception ([throw std::...]) *)
  | Raised (msg : string)    (* [rb_raise(rb_eRuntimeError, msg)] *)
  | ArgError (msg : string)  (* [rb_raise(rb_eArgError, msg)] *)
  | RangeError               (* [rb_eRangeError], raised by [NUM2UINT] *)
  | AssertFailed             (* [RUBY_ASSERT_ALWAYS] on a false condition *)
  | Undefined.               (* behaviour C++ leaves undefined *)

Inductive res (A : Type) : Type :=
  | Ok (a : A)
  | Err (e : fault).
Arguments Ok {A} a.
Arguments Err {A} e.

#[global] Instance res_ret : MRet res := λ A a, Ok a.
#[global] Instance res_bind : MBind res :=
  λ A B f m, match m with Ok a => f a | Err e => Err e end.

(** [assert(c)] *)
Definition assert (c : bool) : res unit :=
  if c then Ok tt else Err AssertFailed.

(** [a[i]] and [a[i] = x] on a C array or [std::vector]; out of range is
    undefined behaviour. *)
Definition array_get {A} (a : list A) (i : nat) : res A :=
  match a !! i with
  | Some x => Ok x
  | None => Err Undefined
  end.

Definition array_set {A} (a : list A) (i : nat) (x : A) : res (list A) :=
  if decide (i < length a) then Ok (<[i := x]> a) else Err Undefined.

(** [v.back()] on a [std::vector]. *)
Definition back {A} (v : list A) : res A :=
  match last v with
  | Some x => Ok x
  | None => Err Undefined
  end.

(** ** [class TimeStamp] *)

Module TimeStamp.
Definition t : Type := Z.

Definition modulus : Z := 2 ^ 64.

Definition Zero : t := 0%Z.

Definition from_nanoseconds (ns : Z) : t := ns.
Definition from_microseconds (us : Z) : t :=
  from_nanoseconds ((us * 1000) mod modulus)%Z.
Definition from_milliseconds (ms : Z) : t :=
  from_microseconds ((ms * 1000) mod modulus)%Z.
Definition from_seconds (s : Z) : t :=
  from_milliseconds ((s * 1000) mod modulus)%Z.

(** [operator-]: saturates at zero. *)
Definition sub (a b : t) : t :=
  if decide (a > b)%Z then (a - b)%Z else 0%Z.

(** [operator+]: unsigned 64-bit addition. *)
Definition add (a b : t) : t := ((a + b) mod modulus)%Z.

Definition lt (a b : t) : bool := bool_decide (a < b)%Z.
Definition le (a b : t) : bool := bool_decide (a ≤ b)%Z.
Definition gt (a b : t) : bool := bool_decide (a > b)%Z.
Definition ge (a b : t) : bool := bool_decide (a >= b)%Z.
Definition eq (a b : t) : bool := bool_decide (a = b).
Definition ne (a b : t) : bool := negb (bool_decide (a = b)).

Definition nanoseconds (a : t) : Z := a.
Definition microseconds (a : t) : Z := (a / 1000)%Z.
Definition zero (a : t) : bool := bool_decide (a = 0%Z).

(** The values of a [uint64_t]. *)
Definition in_range (a : t) : Prop := (0 ≤ a < modulus)%Z.

Definition nanoseconds_per_second : Z := 1000000000.

(** [Now()] once [clock_gettime] has filled [ts]: the [uint64_t]
    arithmetic of its [return]. *)
Definition Now (tv_sec tv_nsec : Z) : t :=
  ((tv_sec * nanoseconds_per_second + tv_nsec) mod modulus)%Z.

(** [timespec()]: the pair [(tv_sec, tv_nsec)]. *)
Definition timespec (a : t) : Z * Z :=
  ((nanoseconds a / nanoseconds_per_second)%Z,
   (nanoseconds a mod nanoseconds_per_second)%Z).

(** The [do ... while (target_time > TimeStamp::Now())] loop of
    [SleepUntil]; [clock] lists what the successive calls of [Now()]
    answer.  Returns the readings not consumed, [None] when the readings
    run out first. *)
Fixpoint SleepUntil_loop (target_time : t) (clock : list t) : option (list t) :=
  match clock with
  | [] => None
  | now :: rest =>
      if gt target_time now then SleepUntil_loop target_time rest
      else Some rest
  end.

Definition SleepUntil (target_time : t) (clock : list t) : option (list t) :=
  if zero target_time then Some clock
  else SleepUntil_loop target_time clock.
End TimeStamp.

(** ** [struct FrameInfo] *)

Module FrameInfo.
(** What the host answers about a frame; [None] is [nil].  The strings
    are taken to hold no NUL byte, so that [StringValueCStr] returns. *)
Record host : Type := mk_host {
  rb_profile_frame_full_label : Z → string;
  rb_profile_frame_absolute_path : Z → option string;
  rb_profile_frame_path : Z → option string;
  rb_profile_frame_first_lineno : Z → option Z;
}.

Record t : Type := mk {
  label : string;
  file : string;
  first_lineno : Z;
}.

Definition label_cstr (h : host) (frame : Z) : string :=
  rb_profile_frame_full_label h frame.

Definition file_cstr (h : host) (frame : Z) : string :=
  let file := rb_profile_frame_absolute_path h frame in
  let file := match file with
              | None => rb_profile_frame_path h frame
              | Some _ => file
              end in
  match file with
  | None => ""
  | Some f => f
  end.

Definition first_lineno_int (h : host) (frame : Z) : Z :=
  match rb_profile_frame_first_lineno h frame with
  | None => 0%Z
  | Some n => n
  end.

(** [FrameInfo(VALUE frame)] *)
Definition new (h : host) (frame : Z) : t :=
  mk (label_cstr h frame) (file_cstr h frame) (first_lineno_int h frame).
End FrameInfo.

(** ** [struct Frame] *)

Module Frame.
Record t : Type := mk { frame : Z; line : Z }.

#[global] Instance Frame_eq_dec : EqDecision t.
Proof. solve_decision. Defined.

#[global] Instance Frame_countable : Countable t :=
  inj_countable' (λ f, (frame f, line f)) (λ p, mk p.1 p.2)
    (λ f, match f with mk _ _ => eq_refl end).

Definition info (h : FrameInfo.host) (f : t) : FrameInfo.t :=
  FrameInfo.new h (frame f).
End Frame.

(** ** What the host runtime answers during one call into the profiler *)

Module Host.
Record t : Type := mk {
  (** [TimeStamp::Now()] as read by [Thread::set_state] and by the
      [Thread] constructor *)
  now : TimeStamp.t;
  (** the later [TimeStamp::Now()] inside [MarkerTable::record] *)
  marker_now : TimeStamp.t;
  pthread_self : Z;
  native_thread_id : Z;                (* [get_native_thread_id()] *)
  ruby_native_thread_p : bool;
  rb_during_gc : bool;
  (** the (frame, line) pairs [rb_profile_frames] has to offer, leaf
      first *)
  rb_profile_frames : list (Z * Z);
  rb_obj_id : Z → Z;
  rb_thread_current : Z;
  (** contents of arrays the code leaves uninitialised *)
  junk : nat → Z;
}.
End Host.

(** ** [struct RawSample] *)

Module RawSample.
Definition MAX_LEN : nat := 2048.

Record t : Type := mk {
  frames : list Z;      (* [VALUE frames[MAX_LEN]] *)
  lines : list Z;       (* [int lines[MAX_LEN]] *)
  len : nat;
  gc : bool;
}.

(** The constructor sets [len] and [gc] only. *)
Definition new (junk : nat → Z) : t :=
  mk (junk <$> seq 0 MAX_LEN) (junk <$> seq 0 MAX_LEN) 0 false.

Definition size (s : t) : nat := len s.

(** [frame(int i)]: the index is a signed [int]; only [idx < 0] throws,
    so a negative [i] reads the slot [len - i - 1] past the capture, and
    past the buffers from [MAX_LEN] on. *)
Definition frame (s : t) (i : Z) : res Frame.t :=
  let idx := (Z.of_nat (len s) - i - 1)%Z in
  if decide (idx < 0)%Z then Err (Thrown "out of range")
  else
    f ← array_get (frames s) (Z.to_nat idx);
    l ← array_get (lines s) (Z.to_nat idx);
    Ok (Frame.mk f l).

Definition clear (s : t) : t := mk (frames s) (lines s) 0 false.

(** [rb_profile_frames(0, limit, frames, lines)]: writes the first
    [limit] pairs on offer into the buffers and returns their number. *)
Fixpoint write_from {A} (buf : list A) (i : nat) (xs : list A) : list A :=
  match xs with
  | [] => buf
  | x :: xs' => write_from (<[i := x]> buf) (S i) xs'
  end.

Definition profile_frames (h : Host.t) (limit : nat) (s : t) : t :=
  let got := take limit (Host.rb_profile_frames h) in
  mk (write_from (frames s) 0 (got.*1)) (write_from (lines s) 0 (got.*2))
     (length got) (gc s).

Definition sample (h : Host.t) (s : t) : t :=
  let s := clear s in
  if negb (Host.ruby_native_thread_p h) then s
  else if Host.rb_during_gc h then mk (frames s) (lines s) (len s) true
  else profile_frames h MAX_LEN s.

Definition empty (s : t) : bool := bool_decide (len s = 0).

(** The buffers have [MAX_LEN] slots and [len] counts the filled
    ones. *)
Definition wf (s : t) : Prop :=
  length (frames s) = MAX_LEN ∧ length (lines s) = MAX_LEN ∧
  len s ≤ MAX_LEN.

(** The stack a sample holds, root first: what [frame 0], [frame 1], ...
    enumerate. *)
Definition stack (s : t) : list Frame.t :=
  reverse (zip_with Frame.mk (take (len s) (frames s))
                             (take (len s) (lines s))).
End RawSample.

(** ** [struct FrameList]: the stack tree

    The tree is the record [t].  The string and frame tables of
    [FrameList], which [finalize] and [write_result] alone fill, are the
    record [tables] at the end of the module. *)

Module FrameList.
Record StackNode : Type := mkStackNode {
  children : gmap Frame.t Z;
  frame : Frame.t;
  parent : Z;
  index : Z;
}.

(** [StackNode(Frame frame, int index, int parent)] *)
Definition StackNode_new (frame : Frame.t) (index parent : Z) : StackNode :=
  mkStackNode ∅ frame parent index.

(** [StackNode()], the root *)
Definition StackNode_root : StackNode :=
  mkStackNode ∅ (Frame.mk 0 0) (-1) (-1).

Definition set_children (n : StackNode) (c : gmap Frame.t Z) : StackNode :=
  mkStackNode c (frame n) (parent n) (index n).

Record t : Type := mk {
  root_stack_node : StackNode;
  stack_node_list : list StackNode;
}.

Definition new : t := mk StackNode_root [].

(** A [StackNode *]: the address of the root or of a slot of
    [stack_node_list]. *)
Inductive node_ptr : Type :=
  | root_ptr
  | elem_ptr (i : nat).

(** [&stack_node_list[idx]] *)
Definition elem (fl : t) (idx : Z) : res node_ptr :=
  if decide (0 ≤ idx < Z.of_nat (length (stack_node_list fl)))%Z
  then Ok (elem_ptr (Z.to_nat idx))
  else Err Undefined.

(** [*node] *)
Definition deref (fl : t) (node : node_ptr) : res StackNode :=
  match node with
  | root_ptr => Ok (root_stack_node fl)
  | elem_ptr i => array_get (stack_node_list fl) i
  end.

(** [*node = n] *)
Definition store (fl : t) (node : node_ptr) (n : StackNode) : t :=
  match node with
  | root_ptr => mk n (stack_node_list fl)
  | elem_ptr i => mk (root_stack_node fl) (<[i := n]> (stack_node_list fl))
  end.

Definition next_stack_node (fl : t) (node : node_ptr) (frame : Frame.t)
  : res (t * node_ptr) :=
  n ← deref fl node;
  match children n !! frame with
  | None =>
      (* insert a new node *)
      let next_node_idx := Z.of_nat (length (stack_node_list fl)) in
      let fl := store fl node (set_children n (<[frame := next_node_idx]> (children n))) in
      let fl := mk (root_stack_node fl)
                   (stack_node_list fl ++ [StackNode_new frame next_node_idx (index n)]) in
      p ← elem fl next_node_idx;
      Ok (fl, p)
  | Some node_idx =>
      p ← elem fl node_idx;
      Ok (fl, p)
  end.

(** The loop of [stack_index], with [n] iterations to go. *)
Fixpoint stack_index_loop (n : nat) (fl : t) (stack : RawSample.t) (i : nat)
    (node : node_ptr) : res (t * node_ptr) :=
  match n with
  | O => Ok (fl, node)
  | S n' =>
      frame ← RawSample.frame stack (Z.of_nat i);
      '(fl, node) ← next_stack_node fl node frame;
      stack_index_loop n' fl stack (S i) node
  end.

Definition stack_index (fl : t) (stack : RawSample.t) : res (t * Z) :=
  if RawSample.empty stack then Err (Thrown "empty stack")
  else
    '(fl, node) ← stack_index_loop (RawSample.size stack) fl stack 0 root_ptr;
    n ← deref fl node;
    Ok (fl, index n).

Definition clear (fl : t) : t :=
  mk (set_children (root_stack_node fl) ∅) [].

(** The root-to-node path of node [idx] as the result tables expose it:
    the frames met when following [parent] up to the root, reversed. *)
Fixpoint path_up (fuel : nat) (fl : t) (idx : Z) : list Frame.t :=
  match fuel with
  | O => []
  | S k =>
      if decide (idx < 0)%Z then []
      else match stack_node_list fl !! Z.to_nat idx with
           | None => []
           | Some n => frame n :: path_up k fl (parent n)
           end
  end.

Definition path (fl : t) (idx : Z) : list Frame.t :=
  reverse (path_up (length (stack_node_list fl)) fl idx).

(** *** The string and frame tables *)

Module FrameWithInfo.
Record t : Type := mk {
  frame : Frame.t;
  info : FrameInfo.t;
}.
End FrameWithInfo.

Record tables : Type := mk_tables {
  string_to_idx : gmap string Z;
  string_list : list string;
  frame_to_idx : gmap Frame.t Z;
  frame_list : list Frame.t;
  frame_with_info_list : list FrameWithInfo.t;
}.

Definition tables_new : tables := mk_tables ∅ [] ∅ [] [].

Definition string_index (tb : tables) (str : string) : tables * Z :=
  match string_to_idx tb !! str with
  | None =>
      let idx := Z.of_nat (length (string_list tb)) in
      (mk_tables (<[str := idx]> (string_to_idx tb)) (string_list tb ++ [str])
         (frame_to_idx tb) (frame_list tb) (frame_with_info_list tb),
       idx)
  | Some idx => (tb, idx)
  end.

Definition frame_index (tb : tables) (frame : Frame.t) : tables * Z :=
  match frame_to_idx tb !! frame with
  | None =>
      let idx := Z.of_nat (length (frame_list tb)) in
      (mk_tables (string_to_idx tb) (string_list tb)
         (<[frame := idx]> (frame_to_idx tb)) (frame_list tb ++ [frame])
         (frame_with_info_list tb),
       idx)
  | Some idx => (tb, idx)
  end.

(** [finalize()]: interns the frame of every node, then symbolicates
    every interned frame. *)
Definition finalize (h : FrameInfo.host) (fl : t) (tb : tables) : tables :=
  let tb := foldl (λ tb stack_node, (frame_index tb (frame stack_node)).1)
              tb (stack_node_list fl) in
  mk_tables (string_to_idx tb) (string_list tb) (frame_to_idx tb)
    (frame_list tb)
    (frame_with_info_list tb ++
       ((λ frame, FrameWithInfo.mk frame (Frame.info h frame))
          <$> frame_list tb)).

(** What [clear()] does to the tables. *)
Definition tables_clear (tb : tables) : tables := mk_tables ∅ [] ∅ [] [].

(** The three tables [write_result] stores in the result, column by
    column; [None] is [nil]. *)
Record result_tables : Type := mk_result_tables {
  stack_table_parent : list (option Z);
  stack_table_frame : list Z;
  frame_table_func : list Z;
  frame_table_line : list Z;
  func_table_name : list string;
  func_table_filename : list string;
  func_table_first_line : list Z;
}.

(** The first loop of [write_result], over the nodes. *)
Definition write_stack_table (tb : tables) (nodes : list StackNode)
  : tables * list (option Z) * list Z :=
  foldl (λ '(tb, parents, frames) stack,
           let parent_val := if decide (parent stack = (-1)%Z) then None
                             else Some (parent stack) in
           let '(tb, idx) := frame_index tb (frame stack) in
           (tb, parents ++ [parent_val], frames ++ [idx]))
        (tb, [], []) nodes.

Definition write_result (fl : t) (tb : tables) : tables * result_tables :=
  let '(tb, parents, frames) := write_stack_table tb (stack_node_list fl) in
  let infos := frame_with_info_list tb in
  (tb,
   mk_result_tables parents frames
     (Z.of_nat <$> seq 0 (length infos))
     ((λ f, Frame.line (FrameWithInfo.frame f)) <$> infos)
     ((λ f, FrameInfo.label (FrameWithInfo.info f)) <$> infos)
     ((λ f, FrameInfo.file (FrameWithInfo.info f)) <$> infos)
     ((λ f, FrameInfo.first_lineno (FrameWithInfo.info f)) <$> infos)).
End FrameList.

(** ** [class SampleTranslator] *)

Module SampleTranslator.
Record t : Type := mk {
  last_stack_index : Z;
  frames : list Frame.t;        (* [Frame frames[RawSample::MAX_LEN]] *)
  frame_indexes : list Z;       (* [int frame_indexes[RawSample::MAX_LEN]] *)
  len : nat;
}.

(** The constructor sets [len] and [last_stack_index] only. *)
Definition new (junk : nat → Z) : t :=
  mk (-1)
     ((λ i, Frame.mk (junk i) (junk i)) <$> seq 0 RawSample.MAX_LEN)
     (junk <$> seq 0 RawSample.MAX_LEN)
     0.

(** The first loop of [translate], with at most [n] iterations to go;
    returns the final [i]. *)
Fixpoint prefix_loop (n : nat) (tr : t) (sample : RawSample.t) (i : nat)
  : res nat :=
  match n with
  | O => Ok i
  | S n' =>
      cached ← array_get (frames tr) i;
      f ← RawSample.frame sample (Z.of_nat i);
      if decide (cached ≠ f) then Ok i
      else prefix_loop n' tr sample (S i)
  end.

(** The second loop of [translate], with [n] iterations to go. *)
Fixpoint walk_loop (n : nat) (fl : FrameList.t) (tr : t)
    (sample : RawSample.t) (i : nat) (node : FrameList.node_ptr)
  : res (FrameList.t * t * nat * FrameList.node_ptr) :=
  match n with
  | O => Ok (fl, tr, i, node)
  | S n' =>
      frame ← RawSample.frame sample (Z.of_nat i);
      '(fl, node) ← FrameList.next_stack_node fl node frame;
      nd ← FrameList.deref fl node;
      frames' ← array_set (frames tr) i frame;
      frame_indexes' ← array_set (frame_indexes tr) i (FrameList.index nd);
      walk_loop n' fl (mk (last_stack_index tr) frames' frame_indexes' (len tr))
                sample (S i) node
  end.

Definition translate (fl : FrameList.t) (tr : t) (sample : RawSample.t)
  : res (FrameList.t * t * Z) :=
  i ← prefix_loop (min (len tr) (RawSample.size sample)) tr sample 0;
  node ← (if decide (i = 0) then Ok FrameList.root_ptr
          else idx ← array_get (frame_indexes tr) (i - 1);
               FrameList.elem fl idx);
  '(fl, tr, i, node) ← walk_loop (RawSample.size sample - i) fl tr sample i node;
  nd ← FrameList.deref fl node;
  Ok (fl,
      mk (FrameList.index nd) (frames tr) (frame_indexes tr) i,
      FrameList.index nd).
End SampleTranslator.

(** ** [class Marker], [class MarkerTable] *)

Module Marker.
Inductive Type_ : Type :=
  | MARKER_GVL_THREAD_STARTED
  | MARKER_GVL_THREAD_EXITED
  | MARKER_GC_START
  | MARKER_GC_END_MARK
  | MARKER_GC_END_SWEEP
  | MARKER_GC_ENTER
  | MARKER_GC_EXIT
  | MARKER_GC_PAUSE
  | MARKER_THREAD_RUNNING
  | MARKER_THREAD_STALLED
  | MARKER_THREAD_SUSPENDED
  | MARKER_MAX.

Inductive Phase : Type :=
  | INSTANT
  | INTERVAL
  | INTERVAL_START
  | INTERVAL_END.

Record t : Type := mk {
  type : Type_;
  phase : Phase;
  timestamp : TimeStamp.t;
  finish : TimeStamp.t;
  stack_index : Z;
}.

#[global] Instance Type_eq_dec : EqDecision Type_.
Proof. solve_decision. Defined.
#[global] Instance Phase_eq_dec : EqDecision Phase.
Proof. solve_decision. Defined.
#[global] Instance Marker_eq_dec : EqDecision t.
Proof. solve_decision. Defined.

(** The values of the enumerators, as [INT2NUM(type)] and
    [INT2NUM(phase)] give them. *)
Definition Type_to_Z (ty : Type_) : Z :=
  match ty with
  | MARKER_GVL_THREAD_STARTED => 0
  | MARKER_GVL_THREAD_EXITED => 1
  | MARKER_GC_START => 2
  | MARKER_GC_END_MARK => 3
  | MARKER_GC_END_SWEEP => 4
  | MARKER_GC_ENTER => 5
  | MARKER_GC_EXIT => 6
  | MARKER_GC_PAUSE => 7
  | MARKER_THREAD_RUNNING => 8
  | MARKER_THREAD_STALLED => 9
  | MARKER_THREAD_SUSPENDED => 10
  | MARKER_MAX => 11
  end%Z.

Definition Phase_to_Z (ph : Phase) : Z :=
  match ph with
  | INSTANT => 0
  | INTERVAL => 1
  | INTERVAL_START => 2
  | INTERVAL_END => 3
  end%Z.

(** [to_array()]: the six values of the Ruby array; [None] is [nil]. *)
Definition to_array (m : t) : list (option Z) :=
  [ None;                                          (* FIXME in the source *)
    Some (Type_to_Z (type m));
    Some (Phase_to_Z (phase m));
    Some (TimeStamp.nanoseconds (timestamp m));
    (if decide (phase m = INTERVAL)
     then Some (TimeStamp.nanoseconds (finish m)) else None);
    (if decide (stack_index m = (-1)%Z) then None
     else Some (stack_index m)) ].
End Marker.

Module MarkerTable.
(** [std::vector<Marker> list]; the mutex orders concurrent appends and
    has no state of its own here. *)
Definition t : Type := list Marker.t.

Definition record_interval (tbl : t) (type : Marker.Type_)
    (from to : TimeStamp.t) (stack_index : Z) : t :=
  tbl ++ [Marker.mk type Marker.INTERVAL from to stack_index].

(** [now] is the [TimeStamp::Now()] read inside [record]. *)
Definition record (now : TimeStamp.t) (tbl : t) (type : Marker.Type_)
    (stack_index : Z) : t :=
  tbl ++ [Marker.mk type Marker.INSTANT now TimeStamp.Zero stack_index].
End MarkerTable.

(** [class GCMarkerTable]: a marker table that pairs GC entry and exit. *)
Module GCMarkerTable.
Record t : Type := mk {
  list : MarkerTable.t;
  last_gc_entry : TimeStamp.t;
}.

Definition new : t := mk [] TimeStamp.Zero.

Definition record_gc_entered (now : TimeStamp.t) (g : t) : t :=
  mk (list g) now.

Definition record_gc_leave (now : TimeStamp.t) (g : t) : t :=
  mk (list g ++ [Marker.mk Marker.MARKER_GC_PAUSE Marker.INTERVAL
                   (last_gc_entry g) now (-1)])
     (last_gc_entry g).

(** [record], inherited from [MarkerTable]. *)
Definition record (now : TimeStamp.t) (g : t) (type : Marker.Type_) : t :=
  mk (MarkerTable.record now (list g) type (-1)) (last_gc_entry g).
End GCMarkerTable.

(** ** [enum Category], [class SampleList] *)

Inductive Category : Type :=
  | CATEGORY_NORMAL
  | CATEGORY_IDLE.

#[global] Instance Category_eq_dec : EqDecision Category.
Proof. solve_decision. Defined.

Module SampleList.
Definition INT_MAX : Z := (2 ^ 31 - 1)%Z.

Record t : Type := mk {
  stacks : list Z;
  timestamps : list TimeStamp.t;
  threads : list Z;
  categories : list Category;
  weights : list Z;
}.

Definition new : t := mk [] [] [] [] [].

Definition size (sl : t) : nat := length (stacks sl).

Definition empty (sl : t) : bool := bool_decide (size sl = 0).

(** [weights.back() += 1] *)
Definition bump_back (ws : list Z) : res (list Z) :=
  w ← back ws;
  if decide (w = INT_MAX) then Err Undefined     (* signed overflow *)
  else Ok (<[length ws - 1 := (w + 1)%Z]> ws).

(** The condition of [record_sample], its conjuncts evaluated left to
    right. *)
Definition same_as_back (sl : t) (stack_index : Z) (thread_id : Z)
    (category : Category) : res bool :=
  if empty sl then Ok false
  else
    s ← back (stacks sl);
    if decide (s ≠ stack_index) then Ok false
    else
      th ← back (threads sl);
      if decide (th ≠ thread_id) then Ok false
      else
        c ← back (categories sl);
        Ok (bool_decide (c = category)).

Definition record_sample (sl : t) (stack_index : Z) (time : TimeStamp.t)
    (thread_id : Z) (category : Category) : res t :=
  same ← same_as_back sl stack_index thread_id category;
  if (same : bool) then
    (* We don't compare timestamps for de-duplication *)
    ws ← bump_back (weights sl);
    Ok (mk (stacks sl) (timestamps sl) (threads sl) (categories sl) ws)
  else
    Ok (mk (stacks sl ++ [stack_index])
           (timestamps sl ++ [time])
           (threads sl ++ [thread_id])
           (categories sl ++ [category])
           (weights sl ++ [1%Z])).

(** The five vectors are kept in step. *)
Definition wf (sl : t) : Prop :=
  length (timestamps sl) = length (stacks sl) ∧
  length (threads sl) = length (stacks sl) ∧
  length (categories sl) = length (stacks sl) ∧
  length (weights sl) = length (stacks sl).

(** One entry of the list, read across the five vectors. *)
Definition entry (sl : t) (i : nat)
  : option (Z * TimeStamp.t * Z * Category * Z) :=
  s ← stacks sl !! i;
  ts ← timestamps sl !! i;
  th ← threads sl !! i;
  c ← categories sl !! i;
  w ← weights sl !! i;
  Some (s, ts, th, c, w).
End SampleList.

(** ** [class Thread] *)

Module Thread.
Inductive State : Type :=
  | STARTED
  | RUNNING
  | READY
  | SUSPENDED
  | STOPPED.

#[global] Instance State_eq_dec : EqDecision State.
Proof. solve_decision. Defined.

Record t : Type := mk {
  samples : SampleList.t;
  ruby_thread : Z;
  ruby_thread_id : Z;
  pthread_id : Z;
  native_tid : Z;
  state : State;
  state_changed_at : TimeStamp.t;
  started_at : TimeStamp.t;
  stopped_at : TimeStamp.t;
  stack_on_suspend_idx : Z;
  translator : SampleTranslator.t;
  (** [MarkerTable *markers]: allocated by the constructor and reached
      through this one record only (copies made when the thread vector
      grows replace the original) *)
  markers : MarkerTable.t;
  name : string;
}.

Definition with_samples (th : t) (x : SampleList.t) : t :=
  mk x (ruby_thread th) (ruby_thread_id th) (pthread_id th) (native_tid th)
     (state th) (state_changed_at th) (started_at th) (stopped_at th)
     (stack_on_suspend_idx th) (translator th) (markers th) (name th).
Definition with_pthread_id (th : t) (x : Z) : t :=
  mk (samples th) (ruby_thread th) (ruby_thread_id th) x (native_tid th)
     (state th) (state_changed_at th) (started_at th) (stopped_at th)
     (stack_on_suspend_idx th) (translator th) (markers th) (name th).
Definition with_native_tid (th : t) (x : Z) : t :=
  mk (samples th) (ruby_thread th) (ruby_thread_id th) (pthread_id th) x
     (state th) (state_changed_at th) (started_at th) (stopped_at th)
     (stack_on_suspend_idx th) (translator th) (markers th) (name th).
Definition with_state (th : t) (x : State) : t :=
  mk (samples th) (ruby_thread th) (ruby_thread_id th) (pthread_id th)
     (native_tid th) x (state_changed_at th) (started_at th) (stopped_at th)
     (stack_on_suspend_idx th) (translator th) (markers th) (name th).
Definition with_state_changed_at (th : t) (x : TimeStamp.t) : t :=
  mk (samples th) (ruby_thread th) (ruby_thread_id th) (pthread_id th)
     (native_tid th) (state th) x (started_at th) (stopped_at th)
     (stack_on_suspend_idx th) (translator th) (markers th) (name th).
Definition with_started_at (th : t) (x : TimeStamp.t) : t :=
  mk (samples th) (ruby_thread th) (ruby_thread_id th) (pthread_id th)
     (native_tid th) (state th) (state_changed_at th) x (stopped_at th)
     (stack_on_suspend_idx th) (translator th) (markers th) (name th).
Definition with_stopped_at (th : t) (x : TimeStamp.t) : t :=
  mk (samples th) (ruby_thread th) (ruby_thread_id th) (pthread_id th)
     (native_tid th) (state th) (state_changed_at th) (started_at th) x
     (stack_on_suspend_idx th) (translator th) (markers th) (name th).
Definition with_stack_on_suspend_idx (th : t) (x : Z) : t :=
  mk (samples th) (ruby_thread th) (ruby_thread_id th) (pthread_id th)
     (native_tid th) (state th) (state_changed_at th) (started_at th)
     (stopped_at th) x (translator th) (markers th) (name th).
Definition with_translator (th : t) (x : SampleTranslator.t) : t :=
  mk (samples th) (ruby_thread th) (ruby_thread_id th) (pthread_id th)
     (native_tid th) (state th) (state_changed_at th) (started_at th)
     (stopped_at th) (stack_on_suspend_idx th) x (markers th) (name th).
Definition with_markers (th : t) (x : MarkerTable.t) : t :=
  mk (samples th) (ruby_thread th) (ruby_thread_id th) (pthread_id th)
     (native_tid th) (state th) (state_changed_at th) (started_at th)
     (stopped_at th) (stack_on_suspend_idx th) (translator th) x (name th).

(** [Thread(State state, pthread_t pthread_id, VALUE ruby_thread)] *)
Definition new (h : Host.t) (state : State) (pthread_id : Z)
    (ruby_thread : Z) : t :=
  let now := Host.now h in
  mk SampleList.new ruby_thread (Host.rb_obj_id h ruby_thread) pthread_id
     (Host.native_thread_id h) state now now TimeStamp.Zero (-1)
     (SampleTranslator.new (Host.junk h))
     (if decide (state = STARTED)
      then MarkerTable.record (Host.marker_now h) []
             Marker.MARKER_GVL_THREAD_STARTED (-1)
      else [])
     "".

(** [capture_name()]: its body is commented out. *)
Definition capture_name (th : t) : t := th.

Definition set_state (h : Host.t) (th : t) (new_state : State) : res t :=
  if decide (state th = STOPPED) then Ok th
  else if decide (new_state = SUSPENDED ∧ state th = new_state) then
    (* on Ruby 3.2 (only?) we may see duplicate suspended states *)
    Ok th
  else
    let from := state_changed_at th in
    let now := Host.now h in
    let th := if TimeStamp.zero (started_at th) then with_started_at th now
              else th in
    let finish (th : t) : res t :=
      Ok (with_state_changed_at (with_state th new_state) now) in
    match new_state with
    | STARTED =>
        (* return: no mutation of current state *)
        Ok (with_markers th
              (MarkerTable.record (Host.marker_now h) (markers th)
                 Marker.MARKER_GVL_THREAD_STARTED (-1)))
    | RUNNING =>
        _ ← assert (bool_decide (state th = READY ∨ state th = RUNNING));
        let th := with_pthread_id th (Host.pthread_self h) in
        let th := with_native_tid th (Host.native_thread_id h) in
        (* If the GVL is immediately ready, and we measure no times
           stalled, skip emitting the interval. *)
        finish (if TimeStamp.ne from now
                then with_markers th
                       (MarkerTable.record_interval (markers th)
                          Marker.MARKER_THREAD_STALLED from now (-1))
                else th)
    | READY =>
        _ ← assert (bool_decide (state th = STARTED ∨ state th = SUSPENDED
                                 ∨ state th = RUNNING));
        finish (if decide (state th = SUSPENDED)
                then with_markers th
                       (MarkerTable.record_interval (markers th)
                          Marker.MARKER_THREAD_SUSPENDED from now
                          (stack_on_suspend_idx th))
                else if decide (state th = RUNNING)
                then with_markers th
                       (MarkerTable.record_interval (markers th)
                          Marker.MARKER_THREAD_RUNNING from now (-1))
                else th)
    | SUSPENDED =>
        _ ← assert (bool_decide (state th = RUNNING ∨ state th = STARTED
                                 ∨ state th = SUSPENDED));
        finish (with_markers th
                  (MarkerTable.record_interval (markers th)
                     Marker.MARKER_THREAD_RUNNING from now (-1)))
    | STOPPED =>
        _ ← assert (bool_decide (state th = RUNNING ∨ state th = STARTED
                                 ∨ state th = SUSPENDED));
        let th := with_markers th
                    (MarkerTable.record_interval (markers th)
                       Marker.MARKER_THREAD_RUNNING from now (-1)) in
        let th := with_markers th
                    (MarkerTable.record (Host.marker_now h) (markers th)
                       Marker.MARKER_GVL_THREAD_EXITED (-1)) in
        let th := with_stopped_at th now in
        finish (capture_name th)
    end.

Definition running (th : t) : bool := negb (bool_decide (state th = STOPPED)).
End Thread.

(** ** [class ThreadTable]

    [frame_list] is a reference to the collector's [FrameList]; the
    functions below take the tree and return it. *)

Module ThreadTable.
Record t : Type := mk { list : list Thread.t }.

Definition new : t := mk [].

Definition thread_equal (a b : Z) : bool := bool_decide (a = b).

(** What [set_state] does to the record it finds. *)
Definition update_thread (h : Host.t) (fl : FrameList.t)
    (thread : Thread.t) (new_state : Thread.State)
  : res (FrameList.t * Thread.t) :=
  '(fl, thread) ←
    (if decide (new_state = Thread.SUSPENDED) then
       let sample := RawSample.sample h (RawSample.new (Host.junk h)) in
       '(fl, tr, idx) ←
         SampleTranslator.translate fl (Thread.translator thread) sample;
       Ok (fl, Thread.with_stack_on_suspend_idx
                 (Thread.with_translator thread tr) idx)
     else Ok (fl, thread));
  thread ← Thread.set_state h thread new_state;
  if decide (Thread.state thread = Thread.RUNNING) then
    Ok (fl, Thread.with_native_tid
              (Thread.with_pthread_id thread (Host.pthread_self h))
              (Host.native_thread_id h))
  else
    Ok (fl, Thread.with_native_tid (Thread.with_pthread_id thread 0) 0).

(** The search loop of [set_state]: [None] when no record matches. *)
Fixpoint set_state_loop (h : Host.t) (fl : FrameList.t)
    (new_state : Thread.State) (th : Z) (l : Datatypes.list Thread.t)
  : res (option (FrameList.t * Datatypes.list Thread.t)) :=
  match l with
  | [] => Ok None
  | thread :: rest =>
      if thread_equal th (Thread.ruby_thread thread) then
        '(fl, thread) ← update_thread h fl thread new_state;
        Ok (Some (fl, thread :: rest))
      else
        r ← set_state_loop h fl new_state th rest;
        match r with
        | Some (fl, rest) => Ok (Some (fl, thread :: rest))
        | None => Ok None
        end
  end.

Definition set_state (h : Host.t) (fl : FrameList.t) (tbl : t)
    (new_state : Thread.State) (th : Z) : res (FrameList.t * t) :=
  r ← set_state_loop h fl new_state th (list tbl);
  match r with
  | Some (fl, l) => Ok (fl, mk l)
  | None =>
      Ok (fl, mk (list tbl ++ [Thread.new h new_state (Host.pthread_self h) th]))
  end.

Definition started h fl tbl th := set_state h fl tbl Thread.STARTED th.
Definition ready h fl tbl th := set_state h fl tbl Thread.READY th.
Definition resumed h fl tbl th := set_state h fl tbl Thread.RUNNING th.
Definition suspended h fl tbl th := set_state h fl tbl Thread.SUSPENDED th.
Definition stopped h fl tbl th := set_state h fl tbl Thread.STOPPED th.
End ThreadTable.

(** ** Collectors

    Signal-handler registration, the creation, enabling and disabling of
    trace points and event hooks, and the creation of the sampler thread
    act on the host and leave no trace in the records below; the hook
    calls the host makes are arguments of the functions during which it
    makes them.  A Ruby-facing function returns the collector together
    with its outcome, so that the state a raise leaves behind is visible. *)

Inductive VALUE : Type :=
  | Qnil
  | Qtrue
  (** the object [build_collector_result] makes: the stack tree and a
      sample list per thread id *)
  | Result (tree : FrameList.t) (threads : list (Z * SampleList.t)).

Module BaseCollector.
Record t : Type := mk {
  running : bool;
  frame_list : FrameList.t;
  started_at : TimeStamp.t;
}.

Definition new : t := mk false FrameList.new TimeStamp.Zero.

Definition reset (c : t) : t :=
  mk (running c) (FrameList.clear (frame_list c)) (started_at c).

Definition start (h : Host.t) (c : t) : t * bool :=
  if running c then (c, false)
  else (mk true (frame_list c) (Host.now h), true).

Definition stop (c : t) : t * res VALUE :=
  if negb (running c) then (c, Err (Raised "collector not running"))
  else (mk false (frame_list c) (started_at c), Ok Qnil).

Definition with_frame_list (c : t) (fl : FrameList.t) : t :=
  mk (running c) fl (started_at c).

(** [sample()] of a collector that does not override it. *)
Definition sample (c : t) : t * res unit :=
  (c, Err (Raised "collector doesn't support manual sampling")).

(** [get_markers()] of a collector that does not override it: an empty
    array. *)
Definition get_markers (c : t) : list (list (option Z)) := [].
End BaseCollector.

Module CustomCollector.
Record t : Type := mk {
  base : BaseCollector.t;
  samples : SampleList.t;
}.

Definition new : t := mk BaseCollector.new SampleList.new.

Definition build_collector_result (c : t) : VALUE :=
  Result (BaseCollector.frame_list (base c)) [(0%Z, samples c)].

(** [start] is inherited. *)
Definition start (h : Host.t) (c : t) : t * bool :=
  let '(b, ok) := BaseCollector.start h (base c) in (mk b (samples c), ok).

Definition stop (c : t) : t * res VALUE :=
  match BaseCollector.stop (base c) with
  | (b, Err e) => (mk b (samples c), Err e)
  | (b, Ok _) =>
      let c := mk b (samples c) in
      let result := build_collector_result c in
      (mk (BaseCollector.reset (base c)) (samples c), Ok result)
  end.

Definition sample (h : Host.t) (c : t) : t * res unit :=
  let sample := RawSample.sample h (RawSample.new (Host.junk h)) in
  match FrameList.stack_index (BaseCollector.frame_list (base c)) sample with
  | Err e => (c, Err e)
  | Ok (fl, stack_index) =>
      let c := mk (BaseCollector.with_frame_list (base c) fl) (samples c) in
      match SampleList.record_sample (samples c) stack_index (Host.now h) 0
              CATEGORY_NORMAL with
      | Err e => (c, Err e)
      | Ok sl => (mk (base c) sl, Ok tt)
      end
  end.
End CustomCollector.

Module RetainedCollector.
Record t : Type := mk {
  base : BaseCollector.t;
  object_frames : gmap Z Z;
  object_list : list Z;
}.

Definition new : t := mk BaseCollector.new ∅ [].

Definition reset (c : t) : t := mk (BaseCollector.reset (base c)) ∅ [].

Definition start (h : Host.t) (c : t) : t * bool :=
  let '(b, ok) := BaseCollector.start h (base c) in
  (mk b (object_frames c) (object_list c), ok).

(** The weights of the result come from [rb_obj_memsize_of] and are
    left out: the result lists the stacks of the objects still
    tracked. *)
Definition build_collector_result (c : t) : VALUE :=
  Result (BaseCollector.frame_list (base c))
    [(0%Z,
      SampleList.mk (omap (λ obj, object_frames c !! obj) (object_list c))
        [] [] [] [])].

(** [object_frames.emplace(obj, stack_index)]: keeps the value of a key
    that is present. *)
Definition emplace (m : gmap Z Z) (obj stack_index : Z) : gmap Z Z :=
  match m !! obj with
  | Some _ => m
  | None => <[obj := stack_index]> m
  end.

Definition record (h : Host.t) (c : t) (obj : Z) : t * res unit :=
  let sample := RawSample.sample h (RawSample.new (Host.junk h)) in
  match FrameList.stack_index (BaseCollector.frame_list (base c)) sample with
  | Err e => (c, Err e)
  | Ok (fl, stack_index) =>
      (mk (BaseCollector.with_frame_list (base c) fl)
          (emplace (object_frames c) obj stack_index)
          (object_list c ++ [obj]),
       Ok tt)
  end.

(** The trace-point hooks; [obj] is [rb_tracearg_object(tparg)]. *)
Definition newobj_i (h : Host.t) (c : t) (obj : Z) : t * res unit :=
  record h c obj.

Definition freeobj_i (c : t) (obj : Z) : t :=
  mk (base c) (delete obj (object_frames c)) (object_list c).

(** What the host does to the collector inside [rb_gc()]: it calls the
    hook of a trace point that is enabled, [newobj_i] for an object
    allocated meanwhile (with the answers the host gives at that moment),
    [freeobj_i] for an object that is swept. *)
Inductive gc_hook : Type :=
  | NEWOBJ (h : Host.t) (obj : Z)
  | FREEOBJ (obj : Z).

Fixpoint rb_gc (tp_newobj tp_freeobj : bool) (hooks : list gc_hook)
    (c : t) : t * res unit :=
  match hooks with
  | [] => (c, Ok tt)
  | NEWOBJ h obj :: rest =>
      if tp_newobj then
        match newobj_i h c obj with
        | (c, Err e) => (c, Err e)
        | (c, Ok _) => rb_gc tp_newobj tp_freeobj rest c
        end
      else rb_gc tp_newobj tp_freeobj rest c
  | FREEOBJ obj :: rest =>
      if tp_freeobj then rb_gc tp_newobj tp_freeobj rest (freeobj_i c obj)
      else rb_gc tp_newobj tp_freeobj rest c
  end.

(** [stop()]: [first_gc] and [second_gc] are the hook calls the host
    makes during the two [rb_gc()]; the first runs with both trace points
    enabled, the second after [tp_newobj] has been disabled.
    [frame_list.finalize()] between the two works on the string and frame
    tables and leaves the tree alone. *)
Definition stop (first_gc second_gc : list gc_hook) (c : t)
  : t * res VALUE :=
  match BaseCollector.stop (base c) with
  | (b, Err e) => (mk b (object_frames c) (object_list c), Err e)
  | (b, Ok _) =>
      let c := mk b (object_frames c) (object_list c) in
      match rb_gc true true first_gc c with
      | (c, Err e) => (c, Err e)
      | (c, Ok _) =>
          match rb_gc false true second_gc c with
          | (c, Err e) => (c, Err e)
          | (c, Ok _) =>
              let result := build_collector_result c in
              (reset c, Ok result)
          end
      end
  end.

(** The [samples] array of the result. *)
Definition result_samples (c : t) : list Z :=
  omap (λ obj, object_frames c !! obj) (object_list c).
End RetainedCollector.

Module GlobalSignalHandler.
(** [record_sample(sample, pthread_id)]: the signal handler runs
    [sample.sample()] on the target thread, where the host answers
    [target], while the caller waits on the semaphore.  The signal is
    taken to be delivered ([pthread_kill] failing ends the process). *)
Definition record_sample (target : Host.t) (sample : RawSample.t)
    (pthread_id : Z) : res RawSample.t :=
  _ ← assert (bool_decide (pthread_id ≠ 0%Z));
  Ok (RawSample.sample target sample).

(** What [sigaction(SIGPROF, ...)] last installed. *)
Inductive disposition : Type :=
  | SIG_DFL            (* nothing installed yet *)
  | SIG_IGN            (* [clear_signal_handler] *)
  | signal_handler.    (* [setup_signal_handler] *)

(** The process-wide instance: the reference count and the disposition
    of [SIGPROF]. *)
Record t : Type := mk {
  count : Z;                       (* [int count] *)
  sigprof : disposition;
}.

(** The [static] instance is zero-initialised. *)
Definition get_instance : t := mk 0 SIG_DFL.

Definition setup_signal_handler (g : t) : t := mk (count g) signal_handler.
Definition clear_signal_handler (g : t) : t := mk (count g) SIG_IGN.

Definition install (g : t) : res t :=
  if decide (count g = SampleList.INT_MAX) then Err Undefined  (* [count++] *)
  else
    let g := mk (count g + 1) (sigprof g) in
    if decide (count g = 1%Z) then Ok (setup_signal_handler g) else Ok g.

Definition uninstall (g : t) : res t :=
  if decide (count g = - SampleList.INT_MAX - 1)%Z then Err Undefined
  else
    let g := mk (count g - 1) (sigprof g) in
    if decide (count g = 0%Z) then Ok (clear_signal_handler g) else Ok g.
End GlobalSignalHandler.

Module TimeCollector.
Record t : Type := mk {
  base : BaseCollector.t;
  gc_markers : GCMarkerTable.t;
  threads : ThreadTable.t;
  running : bool;                 (* [atomic_bool running], set by [start] *)
  interval : TimeStamp.t;
}.

Definition new (interval : TimeStamp.t) : t :=
  mk BaseCollector.new GCMarkerTable.new ThreadTable.new false interval.

Definition record_sample (fl : FrameList.t) (sample : RawSample.t)
    (time : TimeStamp.t) (thread : Thread.t) (category : Category)
  : res (FrameList.t * Thread.t) :=
  if negb (RawSample.empty sample) then
    '(fl, tr, stack_index) ←
      SampleTranslator.translate fl (Thread.translator thread) sample;
    sl ← SampleList.record_sample (Thread.samples thread) stack_index time
           (Thread.native_tid thread) category;
    Ok (fl, Thread.with_samples (Thread.with_translator thread tr) sl)
  else Ok (fl, thread).

(** The body of the loop over [threads.list] in [sample_thread_run];
    [sample] is the [LiveSample] the loop reuses. *)
Definition sample_one (target : Host.t) (sample_start : TimeStamp.t)
    (fl : FrameList.t) (sample : RawSample.t) (thread : Thread.t)
  : res (FrameList.t * RawSample.t * Thread.t) :=
  if decide (Thread.state thread = Thread.RUNNING) then
    sample ← GlobalSignalHandler.record_sample target sample
               (Thread.pthread_id thread);
    if RawSample.gc sample then
      Ok (fl, sample, thread)
    else
      '(fl, thread) ← record_sample fl sample sample_start thread
                        CATEGORY_NORMAL;
      Ok (fl, sample, thread)
  else if decide (Thread.state thread = Thread.SUSPENDED) then
    sl ← SampleList.record_sample (Thread.samples thread)
           (Thread.stack_on_suspend_idx thread) sample_start
           (Thread.native_tid thread) CATEGORY_IDLE;
    Ok (fl, sample, Thread.with_samples thread sl)
  else Ok (fl, sample, thread).

(** The loop over [threads.list]; [targets i] is what the host answers
    on the thread of the [i]-th record when it is signalled. *)
Fixpoint sample_threads (targets : nat → Host.t)
    (sample_start : TimeStamp.t) (i : nat) (fl : FrameList.t)
    (sample : RawSample.t) (l : list Thread.t)
  : res (FrameList.t * RawSample.t * list Thread.t) :=
  match l with
  | [] => Ok (fl, sample, [])
  | thread :: rest =>
      '(fl, sample, thread) ←
        sample_one (targets i) sample_start fl sample thread;
      '(fl, sample, rest) ←
        sample_threads targets sample_start (S i) fl sample rest;
      Ok (fl, sample, thread :: rest)
  end.

(** The end of the loop body: where the next tick is scheduled. *)
Definition reschedule (next_sample_schedule interval
    sample_complete : TimeStamp.t) : TimeStamp.t :=
  let next_sample_schedule := TimeStamp.add next_sample_schedule interval in
  (* If sampling falls behind, restart, and check in another interval *)
  if TimeStamp.lt next_sample_schedule sample_complete
  then TimeStamp.add sample_complete interval
  else next_sample_schedule.

(** The locals of [sample_thread_run]. *)
Record sampler : Type := mk_sampler {
  sample : RawSample.t;
  next_sample_schedule : TimeStamp.t;
}.

(** What one iteration reads from outside. *)
Record tick : Type := mk_tick {
  sample_start : TimeStamp.t;
  targets : nat → Host.t;
  sample_complete : TimeStamp.t;
}.

Definition with_tree_threads (c : t) (fl : FrameList.t)
    (l : list Thread.t) : t :=
  mk (BaseCollector.with_frame_list (base c) fl) (gc_markers c)
     (ThreadTable.mk l) (running c) (interval c).

(** One iteration of the [while (running)] loop; [SleepUntil] at its end
    only waits. *)
Definition iteration (tk : tick) (c : t) (s : sampler) : res (t * sampler) :=
  '(fl, live, l) ←
    sample_threads (targets tk) (sample_start tk) 0
      (BaseCollector.frame_list (base c)) (sample s)
      (ThreadTable.list (threads c));
  Ok (with_tree_threads c fl l,
      mk_sampler live
        (reschedule (next_sample_schedule s) (interval c)
           (sample_complete tk))).

(** [sample_thread_run], one [tick] per iteration that found [running]
    set; [now] is the clock when the thread starts. *)
Fixpoint iterations (tks : list tick) (c : t) (s : sampler)
  : res (t * sampler) :=
  match tks with
  | [] => Ok (c, s)
  | tk :: tks' =>
      '(c, s) ← iteration tk c s;
      iterations tks' c s
  end.

Definition sample_thread_run (h : Host.t) (tks : list tick) (c : t)
  : res (t * sampler) :=
  iterations tks c (mk_sampler (RawSample.new (Host.junk h)) (Host.now h)).

Definition start (h : Host.t) (c : t) : t * res bool :=
  let '(b, ok) := BaseCollector.start h (base c) in
  let c := mk b (gc_markers c) (threads c) (running c) (interval c) in
  if negb ok then (c, Ok false)
  else
    let c := mk (base c) (gc_markers c) (threads c) true (interval c) in
    (* Set the state of the current Ruby thread to RUNNING *)
    match ThreadTable.resumed h (BaseCollector.frame_list (base c))
            (threads c) (Host.rb_thread_current h) with
    | Err e => (c, Err e)
    | Ok (fl, tbl) =>
        (mk (BaseCollector.with_frame_list (base c) fl) (gc_markers c) tbl
            (running c) (interval c),
         Ok true)
    end.

Definition build_collector_result (c : t) : VALUE :=
  Result (BaseCollector.frame_list (base c))
    ((λ th, (Thread.ruby_thread_id th, Thread.samples th))
       <$> ThreadTable.list (threads c)).

Definition stop (c : t) : t * res VALUE :=
  match BaseCollector.stop (base c) with
  | (b, Err e) =>
      (mk b (gc_markers c) (threads c) (running c) (interval c), Err e)
  | (b, Ok _) =>
      let c := mk b (gc_markers c) (threads c) false (interval c) in
      let result := build_collector_result c in
      (mk (BaseCollector.reset (base c)) (gc_markers c) (threads c)
          (running c) (interval c),
       Ok result)
  end.

(** [get_markers()]: the rows of the GC markers, tagged with the id of
    the main thread, then those of every thread, tagged with its id.
    [main_thread] is [rb_thread_main()]. *)
Definition get_markers (h : Host.t) (main_thread : Z) (c : t)
  : list (list (option Z)) :=
  let main_thread_id := Host.rb_obj_id h main_thread in
  ((λ marker, <[0 := Some main_thread_id]> (Marker.to_array marker))
     <$> GCMarkerTable.list (gc_markers c))
  ++ (thread ← ThreadTable.list (threads c);
      (λ marker, <[0 := Some (Thread.ruby_thread_id thread)]>
                   (Marker.to_array marker))
        <$> Thread.markers thread).

(** The events of the GC hook. *)
Inductive gc_event : Type :=
  | RUBY_INTERNAL_EVENT_GC_START
  | RUBY_INTERNAL_EVENT_GC_END_MARK
  | RUBY_INTERNAL_EVENT_GC_END_SWEEP
  | RUBY_INTERNAL_EVENT_GC_ENTER
  | RUBY_INTERNAL_EVENT_GC_EXIT
  | gc_event_other.

Definition with_gc_markers (c : t) (g : GCMarkerTable.t) : t :=
  mk (base c) g (threads c) (running c) (interval c).

(** [now] is the one [TimeStamp::Now()] the call reads. *)
Definition internal_gc_event_cb (now : TimeStamp.t) (event : gc_event)
    (c : t) : t :=
  match event with
  | RUBY_INTERNAL_EVENT_GC_START =>
      with_gc_markers c
        (GCMarkerTable.record now (gc_markers c) Marker.MARKER_GC_START)
  | RUBY_INTERNAL_EVENT_GC_END_MARK =>
      with_gc_markers c
        (GCMarkerTable.record now (gc_markers c) Marker.MARKER_GC_END_MARK)
  | RUBY_INTERNAL_EVENT_GC_END_SWEEP =>
      with_gc_markers c
        (GCMarkerTable.record now (gc_markers c) Marker.MARKER_GC_END_SWEEP)
  | RUBY_INTERNAL_EVENT_GC_ENTER =>
      with_gc_markers c (GCMarkerTable.record_gc_entered now (gc_markers c))
  | RUBY_INTERNAL_EVENT_GC_EXIT =>
      with_gc_markers c (GCMarkerTable.record_gc_leave now (gc_markers c))
  | gc_event_other => c
  end.

(** The events of the thread hooks. *)
Inductive thread_event : Type :=
  | RUBY_INTERNAL_THREAD_EVENT_STARTED
  | RUBY_INTERNAL_THREAD_EVENT_READY
  | RUBY_INTERNAL_THREAD_EVENT_RESUMED
  | RUBY_INTERNAL_THREAD_EVENT_SUSPENDED
  | RUBY_INTERNAL_THREAD_EVENT_EXITED
  | thread_event_other.

Definition with_table (c : t) (r : res (FrameList.t * ThreadTable.t))
  : res t :=
  '(fl, tbl) ← r;
  Ok (mk (BaseCollector.with_frame_list (base c) fl) (gc_markers c) tbl
         (running c) (interval c)).

(** The hook for the internal thread events.  [event_data_thread] is
    [event_data->thread] where the host has that member
    ([HAVE_RB_INTERNAL_THREAD_EVENT_DATA_T_THREAD]) and [None] where it
    has not. *)
Definition internal_thread_event_cb (h : Host.t)
    (event_data_thread : option Z) (event : thread_event) (c : t) : res t :=
  let dispatch (thread : Z) : res t :=
    let fl := BaseCollector.frame_list (base c) in
    match event with
    | RUBY_INTERNAL_THREAD_EVENT_STARTED =>
        with_table c (ThreadTable.started h fl (threads c) thread)
    | RUBY_INTERNAL_THREAD_EVENT_EXITED =>
        with_table c (ThreadTable.stopped h fl (threads c) thread)
    | RUBY_INTERNAL_THREAD_EVENT_READY =>
        with_table c (ThreadTable.ready h fl (threads c) thread)
    | RUBY_INTERNAL_THREAD_EVENT_RESUMED =>
        with_table c (ThreadTable.resumed h fl (threads c) thread)
    | RUBY_INTERNAL_THREAD_EVENT_SUSPENDED =>
        with_table c (ThreadTable.suspended h fl (threads c) thread)
    | thread_event_other => Ok c
    end in
  match event_data_thread with
  | Some thread => dispatch thread
  | None =>
      (* We may arrive here when starting a thread with
         RUBY_INTERNAL_THREAD_EVENT_READY before the thread is actually
         set up. *)
      if negb (Host.ruby_native_thread_p h) then Ok c
      else dispatch (Host.rb_thread_current h)
  end.

(** The hook for [RUBY_EVENT_THREAD_BEGIN] and [RUBY_EVENT_THREAD_END];
    [self] is the thread. *)
Inductive normal_event : Type :=
  | RUBY_EVENT_THREAD_BEGIN
  | RUBY_EVENT_THREAD_END
  | normal_event_other.

Definition internal_thread_event_cb_normal (h : Host.t)
    (event : normal_event) (self : Z) (c : t) : res t :=
  let fl := BaseCollector.frame_list (base c) in
  match event with
  | RUBY_EVENT_THREAD_BEGIN =>
      with_table c (ThreadTable.started h fl (threads c) self)
  | RUBY_EVENT_THREAD_END =>
      with_table c (ThreadTable.stopped h fl (threads c) self)
  | normal_event_other => Ok c
  end.
End TimeCollector.

(** The collector behind a Ruby [Vernier::Collector] object, as
    [collector_new] makes it for the modes [:custom], [:retained] and
    [:wall]. *)
Inductive collector : Type :=
  | Custom (c : CustomCollector.t)
  | Retained (c : RetainedCollector.t)
  | Wall (c : TimeCollector.t).

Definition collector_base (c : collector) : BaseCollector.t :=
  match c with
  | Custom c => CustomCollector.base c
  | Retained c => RetainedCollector.base c
  | Wall c => TimeCollector.base c
  end.

(** [collector->start()], dispatched on the dynamic type. *)
Definition virtual_start (h : Host.t) (c : collector) : collector * res bool :=
  match c with
  | Custom c => let '(c, ok) := CustomCollector.start h c in (Custom c, Ok ok)
  | Retained c =>
      let '(c, ok) := RetainedCollector.start h c in (Retained c, Ok ok)
  | Wall c => let '(c, r) := TimeCollector.start h c in (Wall c, r)
  end.

(** [collector->stop()]; [first_gc] and [second_gc] are what the host
    does during the two [rb_gc()] of [RetainedCollector::stop]. *)
Definition virtual_stop (first_gc second_gc : list RetainedCollector.gc_hook)
    (c : collector) : collector * res VALUE :=
  match c with
  | Custom c => let '(c, r) := CustomCollector.stop c in (Custom c, r)
  | Retained c =>
      let '(c, r) := RetainedCollector.stop first_gc second_gc c in
      (Retained c, r)
  | Wall c => let '(c, r) := TimeCollector.stop c in (Wall c, r)
  end.

Definition collector_start (h : Host.t) (self : collector)
  : collector * res VALUE :=
  match virtual_start h self with
  | (c, Ok false) => (c, Err (Raised "already running"))
  | (c, Ok true) => (c, Ok Qtrue)
  | (c, Err e) => (c, Err e)
  end.

Definition collector_stop (first_gc second_gc : list RetainedCollector.gc_hook)
    (self : collector) : collector * res VALUE :=
  virtual_stop first_gc second_gc self.

(** [collector->sample()] *)
Definition virtual_sample (h : Host.t) (c : collector) : collector * res unit :=
  match c with
  | Custom c => let '(c, r) := CustomCollector.sample h c in (Custom c, r)
  | Retained c =>
      let '(b, r) := BaseCollector.sample (RetainedCollector.base c) in
      (Retained (RetainedCollector.mk b (RetainedCollector.object_frames c)
                   (RetainedCollector.object_list c)), r)
  | Wall c =>
      let '(b, r) := BaseCollector.sample (TimeCollector.base c) in
      (Wall (TimeCollector.mk b (TimeCollector.gc_markers c)
               (TimeCollector.threads c) (TimeCollector.running c)
               (TimeCollector.interval c)), r)
  end.

Definition collector_sample (h : Host.t) (self : collector)
  : collector * res VALUE :=
  match virtual_sample h self with
  | (c, Ok _) => (c, Ok Qtrue)
  | (c, Err e) => (c, Err e)
  end.

(** [markers(self)]: [collector->get_markers()]. *)
Definition markers (h : Host.t) (main_thread : Z) (self : collector)
  : list (list (option Z)) :=
  match self with
  | Custom c => BaseCollector.get_markers (CustomCollector.base c)
  | Retained c => BaseCollector.get_markers (RetainedCollector.base c)
  | Wall c => TimeCollector.get_markers h main_thread c
  end.

(** [NUM2UINT] on an Integer: a value from [INT_MIN] to [UINT_MAX] is
    converted to [unsigned int], a negative one wrapping around; any other
    raises a RangeError. *)
Definition NUM2UINT (v : Z) : res Z :=
  if decide (- 2 ^ 31 ≤ v ≤ 2 ^ 32 - 1)%Z then Ok (v mod 2 ^ 32)%Z
  else Err RangeError.

(** [collector_new(self, mode, options)]; [interval] is the [:interval]
    option, an Integer of microseconds, when it is given. *)
Inductive collector_mode : Type :=
  | mode_retained
  | mode_custom
  | mode_wall
  | mode_other.

Definition collector_new (mode : collector_mode) (interval : option Z)
  : res collector :=
  match mode with
  | mode_retained => Ok (Retained RetainedCollector.new)
  | mode_custom => Ok (Custom CustomCollector.new)
  | mode_wall =>
      match interval with
      | None => Ok (Wall (TimeCollector.new (TimeStamp.from_microseconds 500)))
      | Some intervalv =>
          us ← NUM2UINT intervalv;
          Ok (Wall (TimeCollector.new (TimeStamp.from_microseconds us)))
      end
  | mode_other => Err (ArgError "invalid mode")
  end.

(** * Invariants and sessions: what the properties are stated with *)

(** ** Reading the tree without changing it *)

Module Tree.
Import FrameList.

#[global] Instance node_ptr_eq_dec : EqDecision node_ptr.
Proof. solve_decision. Defined.

(** The value of [node->index] in a well-formed tree. *)
Definition ptr_index (p : node_ptr) : Z :=
  match p with
  | root_ptr => (-1)%Z
  | elem_ptr i => Z.of_nat i
  end.

Definition node_of (fl : t) (p : node_ptr) : option StackNode :=
  match p with
  | root_ptr => Some (root_stack_node fl)
  | elem_ptr i => stack_node_list fl !! i
  end.

(** Following [children] from [p] along [fs], inserting nothing. *)
Fixpoint find (fl : t) (p : node_ptr) (fs : list Frame.t) : option node_ptr :=
  match fs with
  | [] => Some p
  | f :: fs' =>
      n ← node_of fl p;
      c ← children n !! f;
      find fl (elem_ptr (Z.to_nat c)) fs'
  end.

(** [next_stack_node] for each frame of [fs] in turn. *)
Fixpoint walk (fl : t) (p : node_ptr) (fs : list Frame.t)
  : res (t * node_ptr) :=
  match fs with
  | [] => Ok (fl, p)
  | f :: fs' =>
      '(fl, p) ← next_stack_node fl p f;
      walk fl p fs'
  end.

Record wf (fl : t) : Prop := mk_wf {
  wf_root_index : index (root_stack_node fl) = (-1)%Z;
  wf_index : ∀ i n, stack_node_list fl !! i = Some n → index n = Z.of_nat i;
  wf_parent : ∀ i n, stack_node_list fl !! i = Some n →
    (-1 ≤ parent n < Z.of_nat i)%Z;
  wf_children : ∀ p n f c,
    node_of fl p = Some n → children n !! f = Some c →
    ∃ m, (0 ≤ c)%Z ∧ stack_node_list fl !! Z.to_nat c = Some m ∧
         frame m = f ∧ parent m = ptr_index p;
}.

(** [fl'] has every node of [fl], with at least its children. *)
Definition ext (fl fl' : t) : Prop :=
  ∀ p n, node_of fl p = Some n →
    ∃ n', node_of fl' p = Some n' ∧ frame n' = frame n ∧
          parent n' = parent n ∧ index n' = index n ∧
          children n ⊆ children n'.
End Tree.

Import FrameList Tree.

(** The tree after the inserting branch of [next_stack_node]. *)
Definition insert_child (fl : t) (p : node_ptr) (n : StackNode)
    (f : Frame.t) : t :=
  let next_node_idx := Z.of_nat (length (stack_node_list fl)) in
  let fl1 := store fl p (set_children n (<[f := next_node_idx]> (children n))) in
  mk (root_stack_node fl1)
     (stack_node_list fl1 ++ [StackNode_new f next_node_idx (index n)]).

(** What a translator remembers is right for the tree: entry [j] of
    [frame_indexes] is the node found from the root along the first
    [j + 1] cached frames.  Slots from [len] on are never read. *)
Definition cache_ok (fl : FrameList.t) (tr : SampleTranslator.t) : Prop :=
  length (SampleTranslator.frames tr) = RawSample.MAX_LEN ∧
  length (SampleTranslator.frame_indexes tr) = RawSample.MAX_LEN ∧
  SampleTranslator.len tr ≤ RawSample.MAX_LEN ∧
  ∀ j, j < SampleTranslator.len tr →
    ∃ q, find fl root_ptr (take (S j) (SampleTranslator.frames tr)) = Some q ∧
         SampleTranslator.frame_indexes tr !! j = Some (ptr_index q).

(** ** A capture session over one tree *)

Module Session.
(** What happens to the tree during a session: one of the translators
    sharing it translates a sample, or a stack is interned directly. *)
Inductive event : Type :=
  | Translate (who : nat) (sample : RawSample.t)
  | StackIndex (stack : RawSample.t).

Record t : Type := mk {
  frame_list : FrameList.t;
  translators : list SampleTranslator.t;
}.

(** A new tree and one new translator per element of [junk]. *)
Definition fresh (junk : list (nat → Z)) : t :=
  mk FrameList.new (SampleTranslator.new <$> junk).

Definition step (st : t) (e : event) : res t :=
  match e with
  | Translate who sample =>
      tr ← array_get (translators st) who;
      '(fl, tr, _) ← SampleTranslator.translate (frame_list st) tr sample;
      Ok (mk fl (<[who := tr]> (translators st)))
  | StackIndex stack =>
      '(fl, _) ← FrameList.stack_index (frame_list st) stack;
      Ok (mk fl (translators st))
  end.

Fixpoint run (st : t) (evs : list event) : res t :=
  match evs with
  | [] => Ok st
  | e :: evs' => st ← step st e; run st evs'
  end.

Definition sample_of (e : event) : RawSample.t :=
  match e with
  | Translate _ s => s
  | StackIndex s => s
  end.

(** Interning a list of stacks one after the other, collecting the
    node indices. *)
Fixpoint stack_indexes (fl : FrameList.t) (stacks : list RawSample.t)
  : res (FrameList.t * list Z) :=
  match stacks with
  | [] => Ok (fl, [])
  | s :: stacks' =>
      '(fl, r) ← FrameList.stack_index fl s;
      '(fl, rs) ← stack_indexes fl stacks';
      Ok (fl, r :: rs)
  end.

Definition inv (st : t) : Prop :=
  wf (frame_list st) ∧ Forall (cache_ok (frame_list st)) (translators st).
End Session.

(** The tree and the translators of the registered threads fit
    together. *)
Definition table_ok (fl : FrameList.t) (l : list Thread.t) : Prop :=
  wf fl ∧ Forall (λ th, cache_ok fl (Thread.translator th)) l.

(** Two frame sequences agree on their first [k] frames and no further. *)
Definition share_exactly (k : nat) (a b : list Frame.t) : Prop :=
  take k a = take k b ∧ a !! k ≠ b !! k.

(** What [ThreadTable::set_state] leaves of a record whose own
    [set_state] did nothing. *)
Definition zero_ids (th : Thread.t) : Thread.t :=
  Thread.with_native_tid (Thread.with_pthread_id th 0) 0.

(** A collector no thread has been registered with: one that has not
    been started before. *)
Definition first_start (c : collector) : Prop :=
  match c with
  | Wall c => ThreadTable.list (TimeCollector.threads c) = []
  | _ => True
  end.

(** ** Values for the examples *)

(** Three frames. *)
Definition fa := Frame.mk 10 1.
Definition fb := Frame.mk 20 2.
Definition fc := Frame.mk 30 3.

(** The sample whose stack, root first, is [fs]; unused slots hold 0. *)
Definition sample_of_stack (fs : list Frame.t) : RawSample.t :=
  let pad := replicate (RawSample.MAX_LEN - length fs) 0%Z in
  RawSample.mk ((Frame.frame <$> reverse fs) ++ pad)
               ((Frame.line <$> reverse fs) ++ pad)
               (length fs) false.

(** A host for the examples: a native thread outside GC whose stack has
    two frames. *)
Definition host0 : Host.t :=
  Host.mk 100%Z 101%Z 7%Z 8%Z true false [(10, 1); (20, 2)]%Z (λ v, v) 1%Z
    (λ _, 0%Z).

(** A host on a thread that is not native: a capture there is empty and
    not flagged. *)
Definition host_foreign : Host.t :=
  Host.mk 200%Z 201%Z 7%Z 8%Z false false [(10, 1)]%Z (λ v, v) 1%Z (λ _, 0%Z).

(** A tick that starts at 1000 and ends at 1900. *)
Definition tick0 : TimeCollector.tick :=
  TimeCollector.mk_tick 1000%Z (λ _, host0) 1900%Z.

(** ** Values for the further examples *)

(** A wall-clock collector that was started on [host0] and has sampled
    its one thread once. *)
Definition wall_sampled : TimeCollector.t :=
  let c := (TimeCollector.start host0 (TimeCollector.new 500%Z)).1 in
  match TimeCollector.iteration tick0 c
          (TimeCollector.mk_sampler (RawSample.new (λ _, 0%Z)) 1000%Z) with
  | Ok (c, _) => c
  | Err _ => c
  end.

(** ** The string and frame tables *)

(** An index map and its vector say the same: [k] is mapped to [i]
    exactly when slot [i] of the vector holds [k]. *)
Definition interned `{Countable K} (to_idx : gmap K Z) (l : list K) : Prop :=
  ∀ k i, to_idx !! k = Some i ↔ (0 ≤ i)%Z ∧ l !! Z.to_nat i = Some k.

Definition tables_ok (tb : FrameList.tables) : Prop :=
  interned (FrameList.string_to_idx tb) (FrameList.string_list tb) ∧
  interned (FrameList.frame_to_idx tb) (FrameList.frame_list tb).

(** A host that knows one label and no paths, and a tree of two nodes
    for the examples. *)
Definition frame_host0 : FrameInfo.host :=
  FrameInfo.mk_host (λ _, "main") (λ _, None) (λ _, None) (λ _, Some 3%Z).

Definition tree_ab : FrameList.t :=
  FrameList.mk
    (FrameList.set_children FrameList.StackNode_root {[ fa := 0%Z ]})
    [FrameList.set_children (FrameList.StackNode_new fa 0 (-1)) {[ fb := 1%Z ]};
     FrameList.StackNode_new fb 1 0].

(** ** The thread state machine *)

(** The pairs (state, notification) at which [Thread::set_state] fails
    an assertion. *)
Definition illegal_transitions : list (Thread.State * Thread.State) :=
  [(Thread.STARTED, Thread.RUNNING); (Thread.SUSPENDED, Thread.RUNNING);
   (Thread.READY, Thread.READY); (Thread.READY, Thread.SUSPENDED);
   (Thread.READY, Thread.STOPPED)].

(** A host whose clock reads [t], then [t + 1] inside
    [MarkerTable::record]. *)
Definition host_at (t : Z) : Host.t :=
  Host.mk t (t + 1)%Z 7%Z 8%Z true false [(10, 1); (20, 2)]%Z (λ v, v) 1%Z
    (λ _, 0%Z).

(** ** The sample list as a run-length code *)

(** What identifies a sample when runs are formed: the stack, the thread
    and the category, not the time. *)
Definition sample_key (x : Z * TimeStamp.t * Z * Category)
  : Z * Z * Category :=
  (x.1.1.1, x.1.2, x.2).

Definition keys (sl : SampleList.t) : list (Z * Z * Category) :=
  zip (zip (SampleList.stacks sl) (SampleList.threads sl))
      (SampleList.categories sl).

(** Every entry written out as many times as its weight says. *)
Fixpoint decode_runs {A} (ks : list A) (ws : list Z) : list A :=
  match ks, ws with
  | k :: ks, w :: ws => replicate (Z.to_nat w) k ++ decode_runs ks ws
  | _, _ => []
  end.

Definition decode (sl : SampleList.t) : list (Z * Z * Category) :=
  decode_runs (keys sl) (SampleList.weights sl).

(** No two neighbours are equal. *)
Definition adjacent_differ {A} (l : list A) : Prop :=
  ∀ i a b, l !! i = Some a → l !! S i = Some b → a ≠ b.

(** [record_sample] for each sample of a list in turn. *)
Fixpoint record_samples (sl : SampleList.t)
    (xs : list (Z * TimeStamp.t * Z * Category)) : res SampleList.t :=
  match xs with
  | [] => Ok sl
  | (stack_index, time, thread_id, category) :: xs' =>
      sl ← SampleList.record_sample sl stack_index time thread_id category;
      record_samples sl xs'
  end.

(** A list as [record_sample] keeps it: the five vectors in step, every
    weight at least 1 and no two neighbouring entries with the same
    key. *)
Definition run_length_encoded (sl : SampleList.t) : Prop :=
  SampleList.wf sl ∧
  Forall (λ w, (1 ≤ w)%Z) (SampleList.weights sl) ∧
  adjacent_differ (keys sl).

(** ** The thread table *)

(** What holds of the table between notifications: the tree and the
    translators fit together, no thread has two records, a record in
    state RUNNING has the id of a thread to signal, and every sample
    list is a run-length code with room for one more sample. *)
Definition threads_ok (fl : FrameList.t) (l : list Thread.t) : Prop :=
  table_ok fl l ∧
  NoDup (Thread.ruby_thread <$> l) ∧
  Forall (λ t, Thread.state t = Thread.RUNNING → Thread.pthread_id t ≠ 0%Z) l ∧
  Forall (λ t, run_length_encoded (Thread.samples t)) l.

Definition samples_have_room (l : list Thread.t) : Prop :=
  Forall (λ t, (Z.of_nat (length (decode (Thread.samples t)))
                < SampleList.INT_MAX)%Z) l.

(** [t'] is [t] but for its samples and its translator. *)
Definition sampled_from (t t' : Thread.t) : Prop :=
  t' = Thread.with_samples
         (Thread.with_translator t (Thread.translator t'))
         (Thread.samples t').

(** ** One tick of the sampler *)

(** What a tick does to the record of one thread: [thread] is the record
    before the tick and [thread'] after it, [fl] is the tree after the
    tick, and [target] is what the host answers on the thread when it is
    signalled.  Whatever the capture buffer holds before, the capture is
    the same. *)
Definition tick_outcome (target : Host.t) (sample_start : TimeStamp.t)
    (fl : FrameList.t) (thread thread' : Thread.t) : Prop :=
  match Thread.state thread with
  | Thread.RUNNING =>
      ∀ live, RawSample.wf live →
        let s := RawSample.sample target live in
        if RawSample.gc s || RawSample.empty s then thread' = thread
        else
          ∃ idx,
            FrameList.stack_index fl s = Ok (fl, idx) ∧
            FrameList.path fl idx = RawSample.stack s ∧
            SampleList.record_sample (Thread.samples thread) idx sample_start
              (Thread.native_tid thread) CATEGORY_NORMAL
              = Ok (Thread.samples thread') ∧
            decode (Thread.samples thread')
              = decode (Thread.samples thread)
                ++ [(idx, Thread.native_tid thread, CATEGORY_NORMAL)] ∧
            sampled_from thread thread'
  | Thread.SUSPENDED =>
      SampleList.record_sample (Thread.samples thread)
        (Thread.stack_on_suspend_idx thread) sample_start
        (Thread.native_tid thread) CATEGORY_IDLE
        = Ok (Thread.samples thread') ∧
      decode (Thread.samples thread')
        = decode (Thread.samples thread)
          ++ [(Thread.stack_on_suspend_idx thread, Thread.native_tid thread,
               CATEGORY_IDLE)] ∧
      thread' = Thread.with_samples thread (Thread.samples thread') ∧
      ∀ target0 fl0 live0,
        TimeCollector.sample_one target0 sample_start fl0 live0 thread
          = Ok (fl0, live0, thread')
  | _ => thread' = thread
  end.

(** A running wall-clock collector with a RUNNING, a SUSPENDED and a
    READY thread, none sampled so far. *)
Definition wall_three_threads : TimeCollector.t :=
  TimeCollector.mk (BaseCollector.mk true FrameList.new 100%Z)
    GCMarkerTable.new
    (ThreadTable.mk [Thread.new host0 Thread.RUNNING 7 1;
                     Thread.new host0 Thread.SUSPENDED 7 2;
                     Thread.new host0 Thread.READY 7 3])
    true 500%Z.

(** A host on a native thread whose stack is [fa; fc]. *)
Definition host_ac : Host.t :=
  Host.mk 300%Z 301%Z 7%Z 8%Z true false [(30, 3); (10, 1)]%Z (λ v, v) 1%Z
    (λ _, 0%Z).

(** ** Garbage collection inside [RetainedCollector::stop] *)

(** The objects a sequence of hook calls frees, and those it
    allocates. *)
Definition freed (hooks : list RetainedCollector.gc_hook) : list Z :=
  omap (λ e, match e with
             | RetainedCollector.FREEOBJ obj => Some obj
             | RetainedCollector.NEWOBJ _ _ => None
             end) hooks.

Definition allocated (hooks : list RetainedCollector.gc_hook) : list Z :=
  omap (λ e, match e with
             | RetainedCollector.NEWOBJ _ obj => Some obj
             | RetainedCollector.FREEOBJ _ => None
             end) hooks.

(** Every allocation of the sequence happens where a stack can be
    captured. *)
Definition allocations_captured (hooks : list RetainedCollector.gc_hook)
  : Prop :=
  Forall (λ e, match e with
               | RetainedCollector.NEWOBJ h _ =>
                   RawSample.len
                     (RawSample.sample h (RawSample.new (Host.junk h))) ≠ 0
               | RetainedCollector.FREEOBJ _ => True
               end) hooks.

(** A running retained collector that tracks three objects on the tree
    of two nodes. *)
Definition retained_tracking : RetainedCollector.t :=
  RetainedCollector.mk (BaseCollector.mk true tree_ab 40%Z)
    {[ 5%Z := 1%Z; 6%Z := 0%Z; 7%Z := 1%Z ]} [5%Z; 6%Z; 7%Z].

(** A RUNNING thread that has two IDLE samples at the root, recorded as
    one entry of weight 2. *)
Definition thread_sampled : Thread.t :=
  Thread.with_samples (Thread.new host0 Thread.RUNNING 7 1)
    (SampleList.mk [(-1)%Z] [300%Z] [8%Z] [CATEGORY_IDLE] [2%Z]).

(** ** The signal handler's reference count *)

Inductive handler_call : Type :=
  | call_install
  | call_uninstall.

(** A sequence of calls of [install] and [uninstall] on the process-wide
    instance. *)
Fixpoint handler_calls (g : GlobalSignalHandler.t)
    (calls : list handler_call) : res GlobalSignalHandler.t :=
  match calls with
  | [] => Ok g
  | call_install :: calls' =>
      g ← GlobalSignalHandler.install g; handler_calls g calls'
  | call_uninstall :: calls' =>
      g ← GlobalSignalHandler.uninstall g; handler_calls g calls'
  end.

(** Installs minus uninstalls. *)
Fixpoint handler_balance (calls : list handler_call) : Z :=
  match calls with
  | [] => 0
  | call_install :: calls' => 1 + handler_balance calls'
  | call_uninstall :: calls' => -1 + handler_balance calls'
  end%Z.

(** ** GC events and exported markers *)

(** The GC hook called for each event of a list, each with the clock it
    reads. *)
Definition gc_events (c : TimeCollector.t)
    (evs : list (TimeStamp.t * TimeCollector.gc_event)) : TimeCollector.t :=
  foldl (λ c ev, TimeCollector.internal_gc_event_cb ev.1 ev.2 c) c evs.

(** The sampled collector after a GC pause with a mark phase, and after
    its thread was suspended at 400 and made ready at 600: three GC
    markers and two markers of the thread. *)
Definition wall_marked : TimeCollector.t :=
  let after h ev c :=
    match TimeCollector.internal_thread_event_cb h (Some 1%Z) ev c with
    | Ok c' => c'
    | Err _ => c
    end in
  after (host_at 600) TimeCollector.RUBY_INTERNAL_THREAD_EVENT_READY
    (after (host_at 400) TimeCollector.RUBY_INTERNAL_THREAD_EVENT_SUSPENDED
       (gc_events wall_sampled
          [(10%Z, TimeCollector.RUBY_INTERNAL_EVENT_GC_ENTER);
           (11%Z, TimeCollector.RUBY_INTERNAL_EVENT_GC_START);
           (12%Z, TimeCollector.RUBY_INTERNAL_EVENT_GC_END_MARK);
           (20%Z, TimeCollector.RUBY_INTERNAL_EVENT_GC_EXIT)])).

Definition Type_of_Z (z : Z) : option Marker.Type_ :=
  list_find (λ ty, Marker.Type_to_Z ty = z)
    [Marker.MARKER_GVL_THREAD_STARTED; Marker.MARKER_GVL_THREAD_EXITED;
     Marker.MARKER_GC_START; Marker.MARKER_GC_END_MARK;
     Marker.MARKER_GC_END_SWEEP; Marker.MARKER_GC_ENTER;
     Marker.MARKER_GC_EXIT; Marker.MARKER_GC_PAUSE;
     Marker.MARKER_THREAD_RUNNING; Marker.MARKER_THREAD_STALLED;
     Marker.MARKER_THREAD_SUSPENDED; Marker.MARKER_MAX]
  ≫= λ p, Some p.2.

Definition Phase_of_Z (z : Z) : option Marker.Phase :=
  list_find (λ ph, Marker.Phase_to_Z ph = z)
    [Marker.INSTANT; Marker.INTERVAL; Marker.INTERVAL_START;
     Marker.INTERVAL_END]
  ≫= λ p, Some p.2.

(** Reading a marker back from a row of the exported array; the first
    value, the thread id, is not part of the marker. *)
Definition of_array (row : list (option Z)) : option Marker.t :=
  match row with
  | [_; Some ty; Some ph; Some ts; fin; idx] =>
      ty ← Type_of_Z ty;
      ph ← Phase_of_Z ph;
      Some (Marker.mk ty ph ts (default 0%Z fin) (default (-1)%Z idx))
  | _ => None
  end.

(** A marker as the tables record it: only an interval has a finish. *)
Definition recordable (m : Marker.t) : Prop :=
  Marker.phase m ≠ Marker.INTERVAL → Marker.finish m = TimeStamp.Zero.

(** * Properties *)

#[local] Arguments RawSample.MAX_LEN : simpl never.

(** Runs the binds whose first computation is known. *)
Ltac bind_step := cbn [mbind res_bind].

(** Discharges [RawSample.wf] of a concrete sample by evaluation. *)
Ltac sample_wf :=
  split; [vm_compute; reflexivity|];
  split; [vm_compute; reflexivity|];
  apply Nat.leb_le; vm_compute; reflexivity.

Create HintDb vernier discriminated.

(** ** Arrays and vectors *)

Lemma array_get_Ok {A} (a : list A) i x :
  array_get a i = Ok x ↔ a !! i = Some x.
Proof. unfold array_get. destruct (a !! i); split; congruence. Qed.

Lemma array_set_Ok {A} (a : list A) i x :
  i < length a → array_set a i x = Ok (<[i := x]> a).
Proof. intros Hi. unfold array_set. by rewrite decide_True. Qed.

Lemma back_snoc {A} (l : list A) x : back (l ++ [x]) = Ok x.
Proof. unfold back. by rewrite last_snoc. Qed.

(** ** The stack tree *)

Lemma deref_node_of fl p n : deref fl p = Ok n ↔ node_of fl p = Some n.
Proof. destruct p; simpl; [split; congruence|apply array_get_Ok]. Qed.

Lemma node_of_valid fl i n :
  node_of fl (elem_ptr i) = Some n → i < length (stack_node_list fl).
Proof. simpl. apply lookup_lt_Some. Qed.

Lemma wf_new : wf FrameList.new.
Proof.
  split; simpl; try done.
  intros [|i] n f c; simpl; intros Hn; [|done].
  injection Hn as <-. simpl. by rewrite lookup_empty.
Qed.

Lemma wf_node_index fl p n :
  wf fl → node_of fl p = Some n → index n = ptr_index p.
Proof. intros Hwf. destruct p; simpl; [intros [= <-]; apply Hwf | apply Hwf]. Qed.

Lemma ext_refl fl : ext fl fl.
Proof. intros p n Hn. exists n. done. Qed.

Lemma ext_trans fl1 fl2 fl3 : ext fl1 fl2 → ext fl2 fl3 → ext fl1 fl3.
Proof.
  intros H12 H23 p n Hn.
  destruct (H12 p n Hn) as (n2 & Hn2 & Hf & Hp & Hi & Hc).
  destruct (H23 p n2 Hn2) as (n3 & Hn3 & Hf' & Hp' & Hi' & Hc').
  exists n3. repeat split; try congruence. by etrans.
Qed.

#[local] Hint Resolve wf_new ext_refl : vernier.

Lemma find_ext fl fl' p fs q :
  ext fl fl' → find fl p fs = Some q → find fl' p fs = Some q.
Proof.
  intros He. revert p. induction fs as [|f fs IH]; intros p; simpl; [done|].
  destruct (node_of fl p) as [n|] eqn:Hn; simpl; [|done].
  destruct (children n !! f) as [c|] eqn:Hc; simpl; [|done].
  destruct (He p n Hn) as (n' & -> & _ & _ & _ & Hsub). simpl.
  rewrite (lookup_weaken _ _ _ _ Hc Hsub). simpl. apply IH.
Qed.

Lemma find_app fl p fs gs :
  find fl p (fs ++ gs) = find fl p fs ≫= λ q, find fl q gs.
Proof.
  revert p; induction fs as [|f fs IH]; intros p; simpl; [done|].
  destruct (node_of fl p) as [n|]; simpl; [|done].
  destruct (children n !! f) as [c|]; simpl; [|done]. apply IH.
Qed.

Lemma find_cons fl p f fs :
  find fl p (f :: fs) = find fl p [f] ≫= λ q, find fl q fs.
Proof. exact (find_app fl p [f] fs). Qed.

Lemma walk_app fl p fs gs :
  walk fl p (fs ++ gs) = walk fl p fs ≫= λ '(fl', q), walk fl' q gs.
Proof.
  revert fl p; induction fs as [|f fs IH]; intros fl p; simpl; [done|].
  destruct (next_stack_node fl p f) as [[fl' q]|]; simpl; [|done]. apply IH.
Qed.

(** *** Inserting a child *)

Section insert_child.
Context (fl : FrameList.t) (p : node_ptr) (n : StackNode) (f : Frame.t).
Context (Hn : node_of fl p = Some n).

Lemma next_stack_node_unfold :
  next_stack_node fl p f =
    match children n !! f with
    | None => Ok (insert_child fl p n f, elem_ptr (length (stack_node_list fl)))
    | Some c => q ← elem fl c; Ok (fl, q)
    end.
Proof.
  unfold next_stack_node. rewrite (proj2 (deref_node_of _ _ _) Hn). simpl.
  destruct (children n !! f); [done|].
  unfold elem. rewrite decide_True.
  - simpl. by rewrite Nat2Z.id.
  - destruct p; simpl; rewrite length_app, ?length_insert; simpl; lia.
Qed.

Lemma node_of_insert_child q :
  node_of (insert_child fl p n f) q =
    if decide (q = p) then
      Some (set_children n
              (<[f := Z.of_nat (length (stack_node_list fl))]> (children n)))
    else if decide (q = elem_ptr (length (stack_node_list fl))) then
      Some (StackNode_new f (Z.of_nat (length (stack_node_list fl))) (index n))
    else node_of fl q.
Proof.
  unfold insert_child. revert Hn.
  set (L := length (stack_node_list fl)).
  destruct p as [|i], q as [|j];
    cbn [node_of store root_stack_node stack_node_list]; intros Hn'.
  - by rewrite decide_True.
  - rewrite decide_False by done. case_decide as Hj.
    + injection Hj as ->. by rewrite lookup_app_r, Nat.sub_diag.
    + assert (j ≠ L) by congruence.
      destruct (decide (j < L)).
      * by rewrite lookup_app_l.
      * rewrite !lookup_ge_None_2; [done|fold L; lia|].
        rewrite length_app; simpl. fold L. lia.
  - rewrite decide_False by done. by rewrite decide_False.
  - apply lookup_lt_Some in Hn' as Hi. fold L in Hi.
    case_decide as Hji.
    + injection Hji as ->. rewrite lookup_app_l by (by rewrite length_insert).
      by rewrite list_lookup_insert_eq.
    + assert (j ≠ i) by congruence.
      case_decide as Hj.
      * injection Hj as ->.
        rewrite lookup_app_r by (rewrite length_insert; fold L; lia).
        rewrite length_insert. fold L. by rewrite Nat.sub_diag.
      * assert (j ≠ L) by congruence.
        destruct (decide (j < L)).
        -- rewrite lookup_app_l by (by rewrite length_insert).
           by rewrite list_lookup_insert_ne.
        -- rewrite !lookup_ge_None_2; [done|fold L; lia|].
           rewrite length_app, length_insert; simpl. fold L. lia.
Qed.

Context (Hf : children n !! f = None).

Lemma insert_child_ext : ext fl (insert_child fl p n f).
Proof.
  intros q m Hm. rewrite node_of_insert_child.
  case_decide as Hq.
  - subst q. assert (m = n) as -> by congruence.
    eexists; split; [done|]. simpl. repeat split; try done.
    by apply insert_subseteq.
  - rewrite decide_False.
    + exists m. done.
    + intros ->. apply node_of_valid in Hm. lia.
Qed.

Context (Hwf : wf fl).

Lemma insert_child_wf : wf (insert_child fl p n f).
Proof.
  pose proof insert_child_ext as Hext.
  pose proof node_of_insert_child as Hnode.
  pose proof (wf_node_index _ _ _ Hwf Hn) as Hidx.
  assert (Hp : (ptr_index p < Z.of_nat (length (stack_node_list fl)))%Z).
  { destruct p; simpl; [lia|]. pose proof (node_of_valid _ _ _ Hn). lia. }
  split.
  - revert Hn. destruct p; simpl; [|intros _; apply Hwf].
    intros [= <-]. apply Hwf.
  - intros i m Hm.
    change (node_of (insert_child fl p n f) (elem_ptr i) = Some m) in Hm.
    rewrite Hnode in Hm. repeat case_decide.
    + subst p. injection Hm as <-. simpl. apply (wf_index _ Hwf i n Hn).
    + simplify_eq. done.
    + by apply (wf_index _ Hwf).
  - intros i m Hm.
    change (node_of (insert_child fl p n f) (elem_ptr i) = Some m) in Hm.
    rewrite Hnode in Hm. repeat case_decide.
    + subst p. injection Hm as <-. simpl. apply (wf_parent _ Hwf i n Hn).
    + injection Hm as <-. simpl. rewrite Hidx.
      match goal with H : elem_ptr _ = elem_ptr _ |- _ => injection H as -> end.
      split; [destruct p; simpl; lia | lia].
    + by apply (wf_parent _ Hwf).
  - intros q m g c Hm Hc.
    assert (Hold : ∀ q0 m0, node_of fl q0 = Some m0 → children m0 !! g = Some c →
      ∃ m', (0 ≤ c)%Z ∧
            stack_node_list (insert_child fl p n f) !! Z.to_nat c = Some m' ∧
            frame m' = g ∧ parent m' = ptr_index q0).
    { intros q0 m0 Hm0 Hc0.
      destruct (wf_children _ Hwf q0 m0 g c Hm0 Hc0) as (m1 & Hc1 & Hm1 & Hfr & Hpa).
      destruct (Hext (elem_ptr (Z.to_nat c)) m1 Hm1) as (m2 & Hm2 & Hf2 & Hp2 & _).
      exists m2. repeat split; try done; congruence. }
    rewrite Hnode in Hm. repeat case_decide.
    + subst q. injection Hm as <-. simpl in Hc.
      destruct (decide (f = g)) as [<-|Hne].
      * rewrite lookup_insert_eq in Hc. injection Hc as <-.
        exists (StackNode_new f (Z.of_nat (length (stack_node_list fl))) (index n)).
        split; [lia|]. rewrite Nat2Z.id.
        split; [|by simpl].
        change (node_of (insert_child fl p n f)
                  (elem_ptr (length (stack_node_list fl))) =
                Some (StackNode_new f (Z.of_nat (length (stack_node_list fl)))
                        (index n))).
        rewrite Hnode.
        case_decide as Hq; [|by rewrite decide_True].
        subst p. pose proof (node_of_valid _ _ _ Hn). lia.
      * rewrite lookup_insert_ne in Hc by done. by eapply Hold.
    + by simplify_eq.
    + by eapply Hold.
Qed.
End insert_child.

(** *** Looking up and walking *)

Section well_formed_tree.
Context (fl : FrameList.t) (Hwf : wf fl).

Lemma find_valid p fs q :
  is_Some (node_of fl p) → find fl p fs = Some q → is_Some (node_of fl q).
Proof.
  revert p. induction fs as [|f fs IH]; intros p Hp; simpl.
  - by intros [= <-].
  - destruct (node_of fl p) as [n|] eqn:Hn; simpl; [|done].
    destruct (children n !! f) as [c|] eqn:Hc; simpl; [|done].
    destruct (wf_children _ Hwf p n f c Hn Hc) as (m & _ & Hm & _).
    apply IH. simpl. eauto.
Qed.

(** A node found along a non-empty path is a slot of the vector, and its
    index leads back to it. *)
Lemma find_elem p fs q :
  find fl p fs = Some q → fs ≠ [] → is_Some (node_of fl p) →
  elem fl (ptr_index q) = Ok q.
Proof.
  intros Hfind Hne Hp.
  destruct (find_valid _ _ _ Hp Hfind) as [m Hm].
  destruct q as [|i].
  - exfalso. clear Hm Hp. revert p Hfind. induction fs as [|f fs IH]; [done|].
    intros p. simpl.
    destruct (node_of fl p) as [n|]; simpl; [|done].
    destruct (children n !! f) as [c|]; simpl; [|done].
    destruct fs as [|g fs]; [done|]. by apply IH.
  - apply node_of_valid in Hm. unfold elem. simpl.
    rewrite decide_True by lia. by rewrite Nat2Z.id.
Qed.

(** Where the child exists, [next_stack_node] returns it and changes
    nothing. *)
Lemma next_stack_node_found p f q :
  find fl p [f] = Some q → next_stack_node fl p f = Ok (fl, q).
Proof.
  simpl.
  destruct (node_of fl p) as [n|] eqn:Hn; simpl; [|done].
  destruct (children n !! f) as [c|] eqn:Hc; simpl; [|done].
  intros [= <-]. rewrite (next_stack_node_unfold _ _ _ _ Hn), Hc.
  destruct (wf_children _ Hwf p n f c Hn Hc) as (m & Hc0 & Hm & _).
  apply lookup_lt_Some in Hm. unfold elem.
  by rewrite decide_True by lia.
Qed.

(** [next_stack_node] on a valid node always returns, with a tree that
    extends the old one and has the child it returns. *)
Lemma next_stack_node_ok p f :
  is_Some (node_of fl p) →
  ∃ fl' q, next_stack_node fl p f = Ok (fl', q) ∧ wf fl' ∧ ext fl fl' ∧
           find fl' p [f] = Some q ∧ is_Some (node_of fl' q).
Proof.
  intros [n Hn].
  destruct (children n !! f) as [c|] eqn:Hc.
  - assert (Hfind : find fl p [f] = Some (elem_ptr (Z.to_nat c))).
    { simpl. rewrite Hn. simpl. by rewrite Hc. }
    exists fl, (elem_ptr (Z.to_nat c)).
    split; [by apply next_stack_node_found|].
    split; [done|]. split; [apply ext_refl|]. split; [done|].
    eapply find_valid; eauto.
  - exists (insert_child fl p n f), (elem_ptr (length (stack_node_list fl))).
    rewrite (next_stack_node_unfold _ _ _ _ Hn), Hc.
    split; [done|]. split; [by apply insert_child_wf|].
    split; [by apply insert_child_ext|].
    assert (Hne : elem_ptr (length (stack_node_list fl)) ≠ p).
    { intros <-. apply node_of_valid in Hn. lia. }
    split.
    + simpl. rewrite (node_of_insert_child _ _ _ _ Hn), decide_True by done.
      simpl. rewrite lookup_insert_eq. simpl. by rewrite Nat2Z.id.
    + rewrite (node_of_insert_child _ _ _ _ Hn), decide_False by done.
      rewrite decide_True by done. eauto.
Qed.

Lemma walk_found p fs q : find fl p fs = Some q → walk fl p fs = Ok (fl, q).
Proof.
  revert p. induction fs as [|f fs IH]; intros p; simpl.
  - by intros [= <-].
  - intros Hfind.
    destruct (node_of fl p) as [n|] eqn:Hn; simpl in Hfind; [|done].
    destruct (children n !! f) as [c|] eqn:Hc; simpl in Hfind; [|done].
    rewrite (next_stack_node_found p f (elem_ptr (Z.to_nat c))).
    + simpl. by apply IH.
    + simpl. rewrite Hn. simpl. by rewrite Hc.
Qed.

(** *** Paths *)

Lemma path_up_fuel fuel fuel' idx :
  (idx < Z.of_nat fuel)%Z → (idx < Z.of_nat fuel')%Z →
  path_up fuel fl idx = path_up fuel' fl idx.
Proof.
  revert fuel' idx. induction fuel as [|k IH]; intros fuel' idx H1 H2.
  - destruct fuel' as [|k']; [done|]. simpl. by rewrite decide_True by lia.
  - destruct fuel' as [|k']; simpl.
    + by rewrite decide_True by lia.
    + case_decide; [done|].
      destruct (stack_node_list fl !! Z.to_nat idx) as [n|] eqn:Hn; [|done].
      f_equal. pose proof (wf_parent _ Hwf _ _ Hn). apply IH; lia.
Qed.

Lemma path_elem i n :
  stack_node_list fl !! i = Some n →
  path fl (Z.of_nat i) = path fl (parent n) ++ [frame n].
Proof.
  intros Hn. unfold path.
  pose proof (lookup_lt_Some _ _ _ Hn) as Hi.
  rewrite <- reverse_cons. f_equal.
  pose proof (wf_parent _ Hwf _ _ Hn).
  destruct (length (stack_node_list fl)) as [|k] eqn:Hlen; [lia|].
  trans (frame n :: path_up k fl (parent n)).
  - simpl. rewrite decide_False by lia. by rewrite Nat2Z.id, Hn.
  - f_equal. apply path_up_fuel; lia.
Qed.

(** The parent links of a node found along [fs] spell [fs]. *)
Lemma path_find p fs q :
  find fl p fs = Some q →
  path fl (ptr_index q) = path fl (ptr_index p) ++ fs.
Proof.
  revert p. induction fs as [|f fs IH]; intros p; simpl.
  - intros [= <-]. by rewrite app_nil_r.
  - destruct (node_of fl p) as [n|] eqn:Hn; simpl; [|done].
    destruct (children n !! f) as [c|] eqn:Hc; simpl; [|done].
    intros Hfind. rewrite (IH _ Hfind).
    destruct (wf_children _ Hwf p n f c Hn Hc) as (m & Hc0 & Hm & Hfr & Hpa).
    simpl. rewrite (path_elem _ _ Hm), Hfr, Hpa.
    by rewrite <- app_assoc.
Qed.
End well_formed_tree.

Lemma path_root fl : path fl (-1) = [].
Proof. unfold path. by destruct (length (stack_node_list fl)). Qed.

(** Walking from a valid node of a well-formed tree always returns; the
    tree only grows, and the node returned is the one then found along the
    same frames. *)
Lemma walk_ok fs : ∀ fl p,
  wf fl → is_Some (node_of fl p) →
  ∃ fl' q, walk fl p fs = Ok (fl', q) ∧ wf fl' ∧ ext fl fl' ∧
           find fl' p fs = Some q ∧ is_Some (node_of fl' q).
Proof.
  induction fs as [|f fs IH]; intros fl p Hwf Hp.
  - exists fl, p. simpl. split; [done|]. split; [done|].
    split; [apply ext_refl|done].
  - destruct (next_stack_node_ok fl Hwf p f Hp)
      as (fl1 & q1 & Hstep & Hwf1 & Hext1 & Hf1 & Hq1).
    destruct (IH fl1 q1 Hwf1 Hq1) as (fl' & q & Hwalk & Hwf' & Hext' & Hf' & Hq).
    exists fl', q.
    split; [by simpl; rewrite Hstep|].
    split; [done|]. split; [by eapply ext_trans|]. split; [|done].
    rewrite find_cons.
    by rewrite (find_ext _ _ _ _ _ Hext' Hf1).
Qed.

(** ** The translator's cache *)

Lemma cache_ok_new fl junk : cache_ok fl (SampleTranslator.new junk).
Proof.
  unfold cache_ok, SampleTranslator.new.
  cbn [SampleTranslator.frames SampleTranslator.frame_indexes SampleTranslator.len].
  rewrite !length_fmap, !length_seq. repeat split; try lia.
Qed.

(** Growth of the tree, by whoever shares it, keeps a cache right. *)
Lemma cache_ok_ext fl fl' tr : ext fl fl' → cache_ok fl tr → cache_ok fl' tr.
Proof.
  intros Hext (Hf & Hi & Hl & Hc). repeat split; try done.
  intros j Hj. destruct (Hc j Hj) as (q & Hq & Hidx).
  exists q. split; [by eapply find_ext|done].
Qed.

#[local] Hint Resolve cache_ok_new : vernier.

(** ** One sample against the tree *)

Section sample.
Context (s : RawSample.t) (Hs : RawSample.wf s).

Lemma stack_length : length (RawSample.stack s) = RawSample.len s.
Proof.
  destruct Hs as (Hf & Hl & Hlen). unfold RawSample.stack.
  rewrite length_reverse, length_zip_with, !length_take. lia.
Qed.

(** [frame i] reads the [i]-th frame from the root. *)
Lemma frame_stack i :
  i < RawSample.len s →
  ∃ x, RawSample.frame s (Z.of_nat i) = Ok x ∧
       RawSample.stack s !! i = Some x.
Proof.
  intros Hi. pose proof stack_length as Hlen.
  destruct Hs as (Hf & Hl & Hmax).
  unfold RawSample.frame. cbv zeta. rewrite decide_False by lia.
  unfold RawSample.stack in *. rewrite length_reverse in Hlen.
  rewrite reverse_lookup by lia. rewrite Hlen.
  replace (Z.to_nat (Z.of_nat (RawSample.len s) - Z.of_nat i - 1))
    with (RawSample.len s - i - 1) by lia.
  replace (RawSample.len s - S i) with (RawSample.len s - i - 1) by lia.
  set (idx := RawSample.len s - i - 1).
  destruct (lookup_lt_is_Some_2 (RawSample.frames s) idx) as [a Ha]; [lia|].
  destruct (lookup_lt_is_Some_2 (RawSample.lines s) idx) as [b Hb]; [lia|].
  exists (Frame.mk a b). unfold array_get. rewrite Ha, Hb. simpl. split; [done|].
  rewrite lookup_zip_with, !lookup_take_lt by lia. rewrite Ha, Hb. done.
Qed.

(** *** [stack_index] *)

Lemma stack_index_loop_walk n : ∀ fl i p,
  i + n ≤ RawSample.len s →
  stack_index_loop n fl s i p =
    walk fl p (take n (drop i (RawSample.stack s))).
Proof.
  induction n as [|n IH]; intros fl i p Hi; simpl; [done|].
  destruct (frame_stack i) as (x & Hx & Hsx); [lia|].
  rewrite Hx. simpl.
  rewrite (drop_S _ _ _ Hsx). simpl.
  destruct (next_stack_node fl p x) as [[fl1 p1]|]; simpl; [|done].
  apply IH. lia.
Qed.

Lemma stack_index_walk fl :
  RawSample.len s ≠ 0 →
  stack_index fl s =
    '(fl', q) ← walk fl root_ptr (RawSample.stack s);
    n ← deref fl' q; Ok (fl', index n).
Proof.
  intros Hne. unfold stack_index, RawSample.empty.
  rewrite bool_decide_eq_false_2 by done.
  unfold RawSample.size. rewrite stack_index_loop_walk by lia.
  rewrite drop_0, firstn_all2; [done|]. by rewrite stack_length.
Qed.

(** On a non-empty sample [stack_index] returns the index of the node
    its walk ends in. *)
Lemma stack_index_ok fl :
  wf fl → RawSample.len s ≠ 0 →
  ∃ fl' q, stack_index fl s = Ok (fl', ptr_index q) ∧
           walk fl root_ptr (RawSample.stack s) = Ok (fl', q) ∧
           wf fl' ∧ ext fl fl' ∧
           find fl' root_ptr (RawSample.stack s) = Some q.
Proof.
  intros Hwf Hne.
  destruct (walk_ok (RawSample.stack s) fl root_ptr Hwf)
    as (fl' & q & Hw & Hwf' & Hext & Hfind & [n Hn]).
  { simpl. eauto. }
  exists fl', q. rewrite stack_index_walk, Hw by done. simpl.
  rewrite (proj2 (deref_node_of _ _ _) Hn). simpl.
  by rewrite (wf_node_index _ _ _ Hwf' Hn).
Qed.

(** *** [translate] *)

(** The first loop stops at some [k] with the first [k] cached frames
    equal to the sample's. *)
Lemma prefix_loop_ok tr m : ∀ i,
  i + m ≤ RawSample.len s → i + m ≤ length (SampleTranslator.frames tr) →
  ∃ k, SampleTranslator.prefix_loop m tr s i = Ok k ∧ i ≤ k ≤ i + m ∧
       ∀ j, i ≤ j < k →
            SampleTranslator.frames tr !! j = RawSample.stack s !! j.
Proof.
  induction m as [|m IH]; intros i Hi Hlen; simpl.
  - exists i. split; [done|]. split; [lia|]. intros j Hj. lia.
  - destruct (lookup_lt_is_Some_2 (SampleTranslator.frames tr) i)
      as [cached Hc]; [lia|].
    rewrite (proj2 (array_get_Ok _ _ _) Hc). simpl.
    destruct (frame_stack i) as (x & Hx & Hsx); [lia|].
    rewrite Hx. simpl. case_decide as Hne.
    + exists i. split; [done|]. split; [lia|]. intros j Hj. lia.
    + subst cached.
      destruct (IH (S i)) as (k & Hk & Hrange & Hagree); [lia|lia|].
      exists k. split; [done|]. split; [lia|].
      intros j Hj. destruct (decide (j = i)) as [->|]; [by rewrite Hc|].
      apply Hagree. lia.
Qed.

(** The second loop walks the rest of the sample as [walk] does, and
    leaves in slot [j] the frame [j] of the sample and the index of the
    node reached after it. *)
Lemma walk_loop_ok m : ∀ fl tr i p,
  wf fl → is_Some (node_of fl p) → i + m ≤ RawSample.len s →
  length (SampleTranslator.frames tr) = RawSample.MAX_LEN →
  length (SampleTranslator.frame_indexes tr) = RawSample.MAX_LEN →
  ∃ fl' tr' p',
    SampleTranslator.walk_loop m fl tr s i p = Ok (fl', tr', i + m, p') ∧
    walk fl p (take m (drop i (RawSample.stack s))) = Ok (fl', p') ∧
    wf fl' ∧ ext fl fl' ∧ is_Some (node_of fl' p') ∧
    length (SampleTranslator.frames tr') = RawSample.MAX_LEN ∧
    length (SampleTranslator.frame_indexes tr') = RawSample.MAX_LEN ∧
    (∀ j, j < i →
       SampleTranslator.frames tr' !! j = SampleTranslator.frames tr !! j ∧
       SampleTranslator.frame_indexes tr' !! j =
         SampleTranslator.frame_indexes tr !! j) ∧
    (∀ j, i ≤ j < i + m →
       SampleTranslator.frames tr' !! j = RawSample.stack s !! j ∧
       ∃ q, find fl' p (take (S j - i) (drop i (RawSample.stack s)))
              = Some q ∧
            SampleTranslator.frame_indexes tr' !! j = Some (ptr_index q)).
Proof.
  pose proof Hs as (_ & _ & Hmax).
  induction m as [|m IH]; intros fl tr i p Hwf Hp Hi Hlf Hli.
  - exists fl, tr, p. simpl. rewrite Nat.add_0_r.
    split; [done|]. split; [done|]. split; [done|]. split; [apply ext_refl|].
    split; [done|]. split; [done|]. split; [done|].
    split; [done|]. intros j Hj; lia.
  - destruct (frame_stack i) as (x & Hx & Hsx); [lia|].
    destruct (next_stack_node_ok fl Hwf p x Hp)
      as (fl1 & p1 & Hstep & Hwf1 & Hext1 & Hf1 & [nd Hnd]).
    set (tr1 := SampleTranslator.mk (SampleTranslator.last_stack_index tr)
                  (<[i := x]> (SampleTranslator.frames tr))
                  (<[i := index nd]> (SampleTranslator.frame_indexes tr))
                  (SampleTranslator.len tr)).
    destruct (IH fl1 tr1 (S i) p1 Hwf1) as
      (fl' & tr' & p' & Hloop & Hwalk & Hwf' & Hext' & Hp' & Hlf' & Hli' & Hold & Hnew).
    { eauto. } { lia. }
    { simpl. by rewrite length_insert. } { simpl. by rewrite length_insert. }
    exists fl', tr', p'.
    split.
    { simpl. rewrite Hx. simpl. rewrite Hstep. simpl.
      rewrite (proj2 (deref_node_of _ _ _) Hnd). simpl.
      rewrite !array_set_Ok by lia. simpl. fold tr1.
      rewrite Hloop. do 3 f_equal. lia. }
    split.
    { rewrite (drop_S _ _ _ Hsx). simpl. rewrite Hstep. simpl. done. }
    split; [done|]. split; [by eapply ext_trans|]. split; [done|].
    split; [done|]. split; [done|].
    split.
    { intros j Hj. destruct (Hold j) as [H1 H2]; [lia|].
      rewrite H1, H2. simpl. rewrite !list_lookup_insert_ne by lia. done. }
    intros j Hj. destruct (decide (j = i)) as [->|Hne].
    + destruct (Hold i) as [H1 H2]; [lia|]. rewrite H1, H2. simpl.
      rewrite !list_lookup_insert_eq by lia.
      split; [done|]. exists p1.
      replace (S i - i) with 1 by lia.
      rewrite (drop_S _ _ _ Hsx). simpl take. rewrite take_0.
      split; [by eapply find_ext|].
      by rewrite (wf_node_index _ _ _ Hwf1 Hnd).
    + destruct (Hnew j) as (H1 & q & Hq & Hidx); [lia|].
      split; [done|]. exists q. split; [|done].
      rewrite (drop_S _ _ _ Hsx).
      replace (S j - i) with (S (S j - S i)) by lia. simpl take.
      rewrite find_cons, (find_ext _ _ _ _ _ Hext' Hf1). done.
Qed.

(** [translate] always returns, with the node a walk of the whole sample
    from the root ends in; the cache is then right for the tree it
    leaves. *)
Lemma translate_ok fl tr :
  wf fl → cache_ok fl tr →
  ∃ fl' tr' q,
    SampleTranslator.translate fl tr s = Ok (fl', tr', ptr_index q) ∧
    walk fl root_ptr (RawSample.stack s) = Ok (fl', q) ∧
    is_Some (node_of fl' q) ∧
    wf fl' ∧ ext fl fl' ∧ cache_ok fl' tr' ∧
    SampleTranslator.len tr' = RawSample.len s ∧
    SampleTranslator.last_stack_index tr' = ptr_index q.
Proof.
  intros Hwf (Hlf & Hli & Hlen & Hcache).
  pose proof Hs as (_ & _ & Hmax). pose proof stack_length as Hslen.
  unfold SampleTranslator.translate, RawSample.size.
  destruct (prefix_loop_ok tr (min (SampleTranslator.len tr) (RawSample.len s)) 0)
    as (k & -> & Hk & Hagree); [lia|lia|]. simpl.
  assert (Htake : ∀ j, j ≤ k →
            take j (SampleTranslator.frames tr) = take j (RawSample.stack s)).
  { intros j Hj. apply list_eq. intros i.
    destruct (decide (i < j)).
    - rewrite !lookup_take_lt by done. apply Hagree. lia.
    - rewrite !lookup_take_ge by lia. done. }
  (* the node the cursor resumes from *)
  assert (Hstart : ∃ p,
    (if decide (k = 0) then Ok root_ptr
     else idx ← array_get (SampleTranslator.frame_indexes tr) (k - 1);
          elem fl idx) = Ok p ∧
    find fl root_ptr (take k (RawSample.stack s)) = Some p ∧
    is_Some (node_of fl p)).
  { case_decide as Hk0.
    - subst k. exists root_ptr. simpl. eauto.
    - destruct (Hcache (k - 1)) as (q & Hq & Hidx); [lia|].
      replace (S (k - 1)) with k in Hq by lia. rewrite Htake in Hq by lia.
      exists q. rewrite (proj2 (array_get_Ok _ _ _) Hidx). simpl.
      assert (Hne : take k (RawSample.stack s) ≠ []).
      { intros Hnil. apply (f_equal length) in Hnil.
        rewrite length_take in Hnil. simpl in Hnil. lia. }
      split; [eapply find_elem; eauto; simpl; eauto|].
      split; [done|]. eapply find_valid; eauto. simpl; eauto. }
  destruct Hstart as (p & -> & Hfindp & Hp). simpl.
  destruct (walk_loop_ok (RawSample.len s - k) fl tr k p Hwf Hp)
    as (fl' & tr' & p' & Hloop & Hwalk & Hwf' & Hext & [nd Hnd] & Hlf' & Hli'
        & Hold & Hnew);
    [lia|done|done|].
  rewrite Hloop. simpl. rewrite (proj2 (deref_node_of _ _ _) Hnd). simpl.
  replace (k + (RawSample.len s - k)) with (RawSample.len s) in * by lia.
  rewrite (wf_node_index _ _ _ Hwf' Hnd).
  rewrite firstn_all2 in Hwalk by (rewrite length_drop; lia).
  exists fl', (SampleTranslator.mk (ptr_index p') (SampleTranslator.frames tr')
                 (SampleTranslator.frame_indexes tr') (RawSample.len s)), p'.
  split; [done|].
  split.
  { rewrite <- (take_drop k (RawSample.stack s)), walk_app.
    rewrite (walk_found _ Hwf _ _ _ Hfindp). simpl. done. }
  split; [eauto|]. split; [done|]. split; [done|]. split; [|done].
  (* the cache after the call *)
  assert (Hfr : ∀ j, j < RawSample.len s →
            SampleTranslator.frames tr' !! j = RawSample.stack s !! j).
  { intros j Hj. destruct (decide (j < k)).
    - destruct (Hold j) as [-> _]; [done|]. apply Hagree. lia.
    - apply Hnew. lia. }
  split; [done|]. split; [done|]. split; [done|]. simpl.
  intros j Hj.
  assert (Htj : take (S j) (SampleTranslator.frames tr')
                = take (S j) (RawSample.stack s)).
  { apply list_eq. intros i. destruct (decide (i < S j)).
    - rewrite !lookup_take_lt by done. apply Hfr. lia.
    - rewrite !lookup_take_ge by lia. done. }
  rewrite Htj.
  destruct (decide (j < k)).
  - destruct (Hold j) as [_ ->]; [done|].
    destruct (Hcache j) as (q & Hq & Hidx); [lia|].
    exists q. split; [|done]. rewrite Htake in Hq by lia. by eapply find_ext.
  - destruct (Hnew j) as (_ & q & Hq & Hidx); [lia|].
    exists q. split; [|done].
    replace (take (S j) (RawSample.stack s))
      with (take k (RawSample.stack s)
            ++ take (S j - k) (drop k (RawSample.stack s))).
    + rewrite find_app, (find_ext _ _ _ _ _ Hext Hfindp). done.
    + rewrite <- (take_drop k (RawSample.stack s)) at 3.
      rewrite take_app, length_take.
      replace (S j - k `min` length (RawSample.stack s)) with (S j - k)
        by lia.
      rewrite take_take. f_equal. f_equal. lia.
Qed.

(** The cursor against the fresh walk. *)
Lemma translate_refines_stack_index fl tr :
  wf fl → cache_ok fl tr → 1 ≤ RawSample.len s →
  ∃ fl' tr' r,
    SampleTranslator.translate fl tr s = Ok (fl', tr', r) ∧
    stack_index fl s = Ok (fl', r).
Proof.
  intros Hwf Hc Hlen.
  destruct (translate_ok fl tr Hwf Hc)
    as (fl' & tr' & q & Htr & Hwalk & [n Hn] & Hwf' & _).
  exists fl', tr', (ptr_index q). split; [done|].
  rewrite stack_index_walk by lia. rewrite Hwalk. simpl.
  rewrite (proj2 (deref_node_of _ _ _) Hn). simpl.
  by rewrite (wf_node_index _ _ _ Hwf' Hn).
Qed.
End sample.

(** ** Sessions *)

Lemma session_inv_fresh junk : Session.inv (Session.fresh junk).
Proof.
  split; [apply wf_new|]. simpl. apply Forall_fmap, Forall_forall.
  intros j _. apply cache_ok_new.
Qed.

Lemma session_inv_step st e st' :
  Session.inv st → RawSample.wf (Session.sample_of e) →
  Session.step st e = Ok st' → Session.inv st'.
Proof.
  intros [Hwf Hc] Hs. destruct e as [who s|s]; simpl in *.
  - destruct (Session.translators st !! who) as [tr|] eqn:Htr.
    2:{ unfold array_get. by rewrite Htr. }
    rewrite (proj2 (array_get_Ok _ _ _) Htr). simpl.
    pose proof (proj1 (Forall_lookup _ _) Hc _ _ Htr) as Hok.
    destruct (translate_ok s Hs _ _ Hwf Hok)
      as (fl' & tr' & q & -> & _ & _ & Hwf' & Hext & Hc' & _).
    simpl. intros [= <-]. split; simpl; [done|].
    apply Forall_insert; [|done].
    eapply Forall_impl; [exact Hc|]. intros x. by apply cache_ok_ext.
  - destruct (decide (RawSample.len s = 0)) as [H0|Hne].
    { unfold stack_index, RawSample.empty. by rewrite bool_decide_eq_true_2. }
    destruct (stack_index_ok s Hs _ Hwf Hne) as (fl' & q & -> & _ & Hwf' & Hext & _).
    simpl. intros [= <-]. split; simpl; [done|].
    eapply Forall_impl; [exact Hc|]. intros x. by apply cache_ok_ext.
Qed.

Lemma session_inv_run evs : ∀ st st',
  Session.inv st → Forall (λ e, RawSample.wf (Session.sample_of e)) evs →
  Session.run st evs = Ok st' → Session.inv st'.
Proof.
  induction evs as [|e evs IH]; intros st st' Hinv Hev; simpl.
  - by intros [= <-].
  - apply Forall_cons in Hev as [He Hev].
    destruct (Session.step st e) as [st1|] eqn:Hstep; simpl; [|done].
    apply IH; [|done]. by eapply session_inv_step.
Qed.

(** A session whose events name existing translators and intern only
    non-empty stacks runs to its end. *)
Lemma session_run_ok evs : ∀ st,
  Session.inv st →
  Forall (λ e, RawSample.wf (Session.sample_of e) ∧
               match e with
               | Session.Translate who _ => who < length (Session.translators st)
               | Session.StackIndex s => RawSample.len s ≠ 0
               end) evs →
  ∃ st', Session.run st evs = Ok st'.
Proof.
  induction evs as [|e evs IH]; intros st Hinv Hev; simpl; [eauto|].
  apply Forall_cons in Hev as [[Hs He] Hev].
  assert (Hstep : ∃ st1, Session.step st e = Ok st1 ∧
            length (Session.translators st1) = length (Session.translators st)).
  { destruct Hinv as [Hwf Hc]. destruct e as [who s|s]; simpl in *.
    - destruct (lookup_lt_is_Some_2 _ _ He) as [tr Htr].
      rewrite (proj2 (array_get_Ok _ _ _) Htr). simpl.
      pose proof (proj1 (Forall_lookup _ _) Hc _ _ Htr) as Hok.
      destruct (translate_ok s Hs _ _ Hwf Hok) as (fl' & tr' & q & -> & _).
      simpl. eexists. split; [done|]. simpl. by rewrite length_insert.
    - destruct (stack_index_ok s Hs _ Hwf He) as (fl' & q & -> & _).
      simpl. eauto. }
  destruct Hstep as (st1 & Hstep & Hlen). rewrite Hstep. simpl.
  apply IH; [by eapply session_inv_step|].
  eapply Forall_impl; [exact Hev|]. intros [who s|s]; simpl; [|done].
  by rewrite Hlen.
Qed.

(** C1. In every state a session can reach (any number of translators on
    one tree, any sequence of earlier samples), translating a non-empty
    sample with the incremental cursor returns the node index, and leaves
    the tree, that a fresh walk by [stack_index] does.  The previous sample
    of the translator is whatever the events made it, so prefixes,
    extensions and unrelated stacks are all covered. *)
Theorem translate_agrees_with_stack_index :
  ∀ (junk : list (nat → Z)) (evs : list Session.event) (st : Session.t)
    (who : nat) (tr : SampleTranslator.t) (sample : RawSample.t),
    Forall (λ e, RawSample.wf (Session.sample_of e)) evs →
    Session.run (Session.fresh junk) evs = Ok st →
    Session.translators st !! who = Some tr →
    RawSample.wf sample →
    1 ≤ RawSample.len sample →
    ∃ fl' tr' r,
      SampleTranslator.translate (Session.frame_list st) tr sample
        = Ok (fl', tr', r) ∧
      FrameList.stack_index (Session.frame_list st) sample = Ok (fl', r).
Proof.
  intros junk evs st who tr sample Hev Hrun Htr Hs Hlen.
  destruct (session_inv_run evs _ _ (session_inv_fresh junk) Hev Hrun) as [Hwf Hc].
  apply translate_refines_stack_index; try done.
  exact (proj1 (Forall_lookup _ _) Hc _ _ Htr).
Qed.

(** After [fa fb fc], then [fa fb] (a prefix), on translator 0, and
    [fa fc] on translator 1 in between, translator 0 is given [fa fb fb]
    (an extension that leaves the cached path). *)
Lemma translate_agrees_with_stack_index_witness :
  ∃ st,
    Session.run (Session.fresh [λ _, 7%Z; λ _, 0%Z])
      [Session.Translate 0 (sample_of_stack [fa; fb; fc]);
       Session.Translate 1 (sample_of_stack [fa; fc]);
       Session.Translate 0 (sample_of_stack [fa; fb])] = Ok st ∧
    ∃ tr, Session.translators st !! 0 = Some tr ∧
    ∃ fl' tr' r,
      SampleTranslator.translate (Session.frame_list st) tr
        (sample_of_stack [fa; fb; fb]) = Ok (fl', tr', r) ∧
      FrameList.stack_index (Session.frame_list st)
        (sample_of_stack [fa; fb; fb]) = Ok (fl', r).
Proof.
  eexists. split; [vm_compute; reflexivity|].
  eexists. split; [vm_compute; reflexivity|].
  eapply (translate_agrees_with_stack_index [λ _, 7%Z; λ _, 0%Z]
    [Session.Translate 0 (sample_of_stack [fa; fb; fc]);
     Session.Translate 1 (sample_of_stack [fa; fc]);
     Session.Translate 0 (sample_of_stack [fa; fb])] _ 0).
  - repeat (apply Forall_cons; split; [sample_wf|]). apply Forall_nil_2.
  - vm_compute; reflexivity.
  - vm_compute; reflexivity.
  - sample_wf.
  - apply Nat.leb_le; vm_compute; reflexivity.
Defined.

(** *** Interning stacks directly *)

Lemma stack_indexes_ok stacks : ∀ fl,
  wf fl →
  Forall (λ s, RawSample.wf s ∧ RawSample.len s ≠ 0) stacks →
  ∃ fl' rs,
    Session.stack_indexes fl stacks = Ok (fl', rs) ∧ wf fl' ∧ ext fl fl' ∧
    Forall2 (λ s r, ∃ q, r = ptr_index q ∧
                         find fl' root_ptr (RawSample.stack s) = Some q)
            stacks rs.
Proof.
  induction stacks as [|s stacks IH]; intros fl Hwf Hall.
  - exists fl, []. simpl. split; [done|]. split; [done|].
    split; [apply ext_refl|constructor].
  - apply Forall_cons in Hall as [[Hs Hne] Hall].
    destruct (stack_index_ok s Hs fl Hwf Hne)
      as (fl1 & q & Hsi & _ & Hwf1 & Hext1 & Hfind).
    destruct (IH fl1 Hwf1 Hall) as (fl' & rs & Hrs & Hwf' & Hext' & Hall2).
    exists fl', (ptr_index q :: rs). simpl. rewrite Hsi. simpl. rewrite Hrs. simpl.
    split; [done|]. split; [done|]. split; [by eapply ext_trans|].
    constructor; [|done]. exists q. split; [done|]. by eapply find_ext.
Qed.

(** C2. Interning any sequence of non-empty stacks into a new tree
    succeeds, and for any two of the calls: equal frame sequences get equal
    node indices, each returned node has the interned frames as its
    root-to-node path (read off the parent links), and so two stacks that
    first differ at position [k] get nodes whose paths share exactly the
    first [k] frames. *)
Theorem stack_index_deterministic_and_prefix_sharing :
  ∀ (stacks : list RawSample.t),
    Forall (λ s, RawSample.wf s ∧ RawSample.len s ≠ 0) stacks →
    ∃ fl rs,
      Session.stack_indexes FrameList.new stacks = Ok (fl, rs) ∧
      length rs = length stacks ∧
      ∀ i j si sj ri rj,
        stacks !! i = Some si → stacks !! j = Some sj →
        rs !! i = Some ri → rs !! j = Some rj →
        (RawSample.stack si = RawSample.stack sj → ri = rj) ∧
        FrameList.path fl ri = RawSample.stack si ∧
        FrameList.path fl rj = RawSample.stack sj ∧
        ∀ k, share_exactly k (RawSample.stack si) (RawSample.stack sj) →
             share_exactly k (FrameList.path fl ri) (FrameList.path fl rj).
Proof.
  intros stacks Hall.
  destruct (stack_indexes_ok stacks FrameList.new wf_new Hall)
    as (fl & rs & Hrun & Hwf & _ & Hall2).
  exists fl, rs. split; [done|].
  split; [symmetry; by eapply Forall2_length|].
  intros i j si sj ri rj Hsi Hsj Hri Hrj.
  destruct (Forall2_lookup_lr _ _ _ _ _ _ Hall2 Hsi Hri) as (qi & -> & Hqi).
  destruct (Forall2_lookup_lr _ _ _ _ _ _ Hall2 Hsj Hrj) as (qj & -> & Hqj).
  assert (Hpi := path_find _ Hwf _ _ _ Hqi).
  assert (Hpj := path_find _ Hwf _ _ _ Hqj).
  simpl in Hpi, Hpj. rewrite path_root in Hpi, Hpj. simpl in Hpi, Hpj.
  split; [intros Heq; congruence|].
  split; [done|]. split; [done|].
  intros k. by rewrite Hpi, Hpj.
Qed.

Lemma stack_index_deterministic_and_prefix_sharing_witness :
  ∃ fl rs,
    Session.stack_indexes FrameList.new
      [sample_of_stack [fa; fb; fc]; sample_of_stack [fa; fc];
       sample_of_stack [fa; fb; fc]] = Ok (fl, rs) ∧
    length rs = 3 ∧
    ∀ i j si sj ri rj,
      [sample_of_stack [fa; fb; fc]; sample_of_stack [fa; fc];
       sample_of_stack [fa; fb; fc]] !! i = Some si →
      [sample_of_stack [fa; fb; fc]; sample_of_stack [fa; fc];
       sample_of_stack [fa; fb; fc]] !! j = Some sj →
      rs !! i = Some ri → rs !! j = Some rj →
      (RawSample.stack si = RawSample.stack sj → ri = rj) ∧
      FrameList.path fl ri = RawSample.stack si ∧
      FrameList.path fl rj = RawSample.stack sj ∧
      ∀ k, share_exactly k (RawSample.stack si) (RawSample.stack sj) →
           share_exactly k (FrameList.path fl ri) (FrameList.path fl rj).
Proof.
  apply (stack_index_deterministic_and_prefix_sharing
    [sample_of_stack [fa; fb; fc]; sample_of_stack [fa; fc];
     sample_of_stack [fa; fb; fc]]).
  repeat (apply Forall_cons; split; [split; [sample_wf|vm_compute; lia]|]).
  apply Forall_nil_2.
Defined.

(** ** Captures *)

Lemma write_from_length {A} (xs : list A) : ∀ buf i,
  length (RawSample.write_from buf i xs) = length buf.
Proof.
  induction xs as [|x xs IH]; intros buf i; simpl; [done|].
  by rewrite IH, length_insert.
Qed.

Lemma RawSample_new_wf junk : RawSample.wf (RawSample.new junk).
Proof.
  unfold RawSample.wf, RawSample.new.
  cbn [RawSample.frames RawSample.lines RawSample.len].
  rewrite !length_fmap, !length_seq. lia.
Qed.

Lemma RawSample_sample_wf h s :
  RawSample.wf s → RawSample.wf (RawSample.sample h s).
Proof.
  intros (Hf & Hl & Hlen).
  unfold RawSample.sample, RawSample.profile_frames, RawSample.clear.
  destruct (negb (Host.ruby_native_thread_p h)); [|destruct (Host.rb_during_gc h)];
    unfold RawSample.wf; cbn [RawSample.frames RawSample.lines RawSample.len];
    rewrite ?write_from_length, ?length_take; repeat split; lia.
Qed.

#[local] Hint Resolve RawSample_new_wf RawSample_sample_wf : vernier.

(** A capture off a native thread, or during GC, is empty. *)
Lemma RawSample_sample_empty h s :
  Host.ruby_native_thread_p h = false ∨ Host.rb_during_gc h = true →
  RawSample.len (RawSample.sample h s) = 0.
Proof.
  unfold RawSample.sample. intros [->| ->]; simpl; [done|].
  by destruct (Host.ruby_native_thread_p h).
Qed.

Lemma translate_empty fl tr s :
  index (root_stack_node fl) = (-1)%Z → RawSample.len s = 0 →
  SampleTranslator.translate fl tr s =
    Ok (fl, SampleTranslator.mk (-1) (SampleTranslator.frames tr)
              (SampleTranslator.frame_indexes tr) 0, (-1)%Z).
Proof.
  intros Hroot Hlen. unfold SampleTranslator.translate, RawSample.size.
  rewrite Hlen, Nat.min_0_r. simpl. by rewrite Hroot.
Qed.

(** ** The thread state machine *)

Lemma set_state_stopped h thread new_state :
  Thread.state thread = Thread.STOPPED →
  Thread.set_state h thread new_state = Ok thread.
Proof. intros Hst. unfold Thread.set_state. by rewrite decide_True. Qed.

Lemma set_state_suspended_twice h thread :
  Thread.state thread = Thread.SUSPENDED →
  Thread.set_state h thread Thread.SUSPENDED = Ok thread.
Proof.
  intros Hst. unfold Thread.set_state.
  rewrite decide_False by congruence. by rewrite decide_True.
Qed.

Lemma set_state_to_suspended h thread :
  Thread.state thread = Thread.RUNNING ∨ Thread.state thread = Thread.STARTED
    ∨ Thread.state thread = Thread.SUSPENDED →
  ∃ thread',
    Thread.set_state h thread Thread.SUSPENDED = Ok thread' ∧
    Thread.state thread' = Thread.SUSPENDED ∧
    Thread.stack_on_suspend_idx thread' = Thread.stack_on_suspend_idx thread ∧
    Thread.samples thread' = Thread.samples thread.
Proof.
  intros Hst. unfold Thread.set_state.
  destruct (TimeStamp.zero (Thread.started_at thread));
    destruct Hst as [Hst|[Hst|Hst]]; simpl; rewrite Hst; simpl;
    eexists; (split; [reflexivity|]); simpl; by rewrite ?Hst.
Qed.

(** [Thread::set_state] never touches the translator or the samples. *)
Lemma set_state_keeps_translator h thread new_state thread' :
  Thread.set_state h thread new_state = Ok thread' →
  Thread.translator thread' = Thread.translator thread ∧
  Thread.samples thread' = Thread.samples thread.
Proof.
  unfold Thread.set_state, assert.
  destruct (TimeStamp.zero (Thread.started_at thread));
    repeat case_decide; try (by intros [= <-]);
    destruct new_state; simpl;
    repeat match goal with
           | |- context [bool_decide ?P] => destruct (bool_decide P); simpl
           | |- context [TimeStamp.ne ?a ?b] => destruct (TimeStamp.ne a b); simpl
           end;
    try done; by intros [= <-].
Qed.

(** ** The thread table *)

Lemma set_state_loop_find h fl new_state th l :
  ThreadTable.set_state_loop h fl new_state th l =
    match list_find (λ t, th = Thread.ruby_thread t) l with
    | Some (i, thread) =>
        '(fl', thread') ← ThreadTable.update_thread h fl thread new_state;
        Ok (Some (fl', <[i := thread']> l))
    | None => Ok None
    end.
Proof.
  induction l as [|x l IH]; simpl; [done|].
  unfold ThreadTable.thread_equal. case_decide as Hx.
  - rewrite bool_decide_eq_true_2 by done.
    destruct (ThreadTable.update_thread h fl x new_state) as [[fl' x']|]; done.
  - rewrite bool_decide_eq_false_2 by done. rewrite IH.
    destruct (list_find _ l) as [[i thread]|]; simpl; [|done].
    destruct (ThreadTable.update_thread h fl thread new_state) as [[fl' x']|]; done.
Qed.

(** A notification for a registered thread updates the first record
    with its identity, in place. *)
Lemma set_state_found h fl tbl new_state th i thread :
  list_find (λ t, th = Thread.ruby_thread t) (ThreadTable.list tbl)
    = Some (i, thread) →
  ThreadTable.set_state h fl tbl new_state th =
    '(fl', thread') ← ThreadTable.update_thread h fl thread new_state;
    Ok (fl', ThreadTable.mk (<[i := thread']> (ThreadTable.list tbl))).
Proof.
  intros Hfind. unfold ThreadTable.set_state. rewrite set_state_loop_find, Hfind.
  destruct (ThreadTable.update_thread h fl thread new_state) as [[fl' x']|]; done.
Qed.

(** A notification for an unknown thread registers it. *)
Lemma set_state_new h fl tbl new_state th :
  list_find (λ t, th = Thread.ruby_thread t) (ThreadTable.list tbl) = None →
  ThreadTable.set_state h fl tbl new_state th =
    Ok (fl, ThreadTable.mk (ThreadTable.list tbl ++
          [Thread.new h new_state (Host.pthread_self h) th])).
Proof.
  intros Hfind. unfold ThreadTable.set_state.
  by rewrite set_state_loop_find, Hfind.
Qed.

Lemma table_ok_new : table_ok FrameList.new (ThreadTable.list ThreadTable.new).
Proof. split; [apply wf_new|constructor]. Qed.

(** A table with one record that was just made. *)
Lemma table_ok_one h state pthread_id th :
  table_ok FrameList.new [Thread.new h state pthread_id th].
Proof.
  split; [apply wf_new|].
  constructor; [apply cache_ok_new|constructor].
Qed.

Lemma table_ok_lookup fl l i thread :
  table_ok fl l → l !! i = Some thread →
  wf fl ∧ cache_ok fl (Thread.translator thread).
Proof.
  intros [Hwf Hall] Hi. split; [done|].
  exact (proj1 (Forall_lookup _ _) Hall _ _ Hi).
Qed.

Lemma table_ok_find fl tbl th i thread :
  table_ok fl (ThreadTable.list tbl) →
  list_find (λ t, th = Thread.ruby_thread t) (ThreadTable.list tbl)
    = Some (i, thread) →
  wf fl ∧ cache_ok fl (Thread.translator thread).
Proof.
  intros Hok Hfind. apply list_find_Some in Hfind as (Hi & _).
  by eapply table_ok_lookup.
Qed.

Lemma update_thread_ok h fl thread new_state fl' thread' :
  wf fl → cache_ok fl (Thread.translator thread) →
  ThreadTable.update_thread h fl thread new_state = Ok (fl', thread') →
  wf fl' ∧ ext fl fl' ∧ cache_ok fl' (Thread.translator thread').
Proof.
  intros Hwf Hc. unfold ThreadTable.update_thread.
  destruct (decide (new_state = Thread.SUSPENDED)) as [->|Hne].
  - assert (Hs : RawSample.wf (RawSample.sample h (RawSample.new (Host.junk h))))
      by auto with vernier.
    destruct (translate_ok _ Hs fl (Thread.translator thread) Hwf Hc)
      as (fl1 & tr1 & q & Htr & _ & _ & Hwf1 & Hext1 & Hc1 & _).
    cbv zeta. rewrite Htr. bind_step.
    destruct (Thread.set_state h _ Thread.SUSPENDED) as [th2|] eqn:Hset; [|done].
    bind_step. apply set_state_keeps_translator in Hset as [Htr2 _].
    case_decide; intros [= <- <-]; simpl; by rewrite Htr2.
  - bind_step.
    destruct (Thread.set_state h thread new_state) as [th2|] eqn:Hset; [|done].
    bind_step. apply set_state_keeps_translator in Hset as [Htr2 _].
    case_decide; intros [= <- <-]; simpl; rewrite Htr2;
      (split; [done|]); (split; [apply ext_refl|done]).
Qed.

(** Lifecycle notifications keep the tree and the translators of the
    table fitting together. *)
Lemma set_state_table_ok h fl tbl new_state th fl' tbl' :
  table_ok fl (ThreadTable.list tbl) →
  ThreadTable.set_state h fl tbl new_state th = Ok (fl', tbl') →
  table_ok fl' (ThreadTable.list tbl').
Proof.
  intros Hok.
  destruct (list_find (λ t, th = Thread.ruby_thread t) (ThreadTable.list tbl))
    as [[i thread]|] eqn:Hfind.
  - rewrite (set_state_found _ _ _ _ _ _ _ Hfind).
    destruct (table_ok_find _ _ _ _ _ Hok Hfind) as [Hwf Hc].
    destruct (ThreadTable.update_thread h fl thread new_state)
      as [[fl1 th1]|] eqn:Hup; [|done].
    bind_step. intros [= <- <-].
    destruct (update_thread_ok _ _ _ _ _ _ Hwf Hc Hup) as (Hwf1 & Hext1 & Hc1).
    split; [done|]. simpl. apply Forall_insert; [|done].
    eapply Forall_impl; [exact (proj2 Hok)|]. intros x. by apply cache_ok_ext.
  - rewrite (set_state_new _ _ _ _ _ Hfind). intros [= <- <-].
    destruct Hok as [Hwf Hall]. split; [done|]. simpl.
    apply Forall_app. split; [done|].
    constructor; [apply cache_ok_new|constructor].
Qed.

(** C4, as the code has it.  Once a record is STOPPED, a later
    notification for its thread leaves the state, the three time stamps,
    the markers and the samples as they are and sets both native ids to
    zero; a notification other than SUSPENDED changes nothing else, in
    the record or in the tree.  The sampler passes the record by. *)
Theorem stopped_thread_keeps_state_markers_samples :
  ∀ (h : Host.t) (fl : FrameList.t) (tbl : ThreadTable.t)
    (new_state : Thread.State) (th : Z) (i : nat) (thread : Thread.t),
    table_ok fl (ThreadTable.list tbl) →
    list_find (λ t, th = Thread.ruby_thread t) (ThreadTable.list tbl)
      = Some (i, thread) →
    Thread.state thread = Thread.STOPPED →
    ∃ fl' thread',
      ThreadTable.set_state h fl tbl new_state th =
        Ok (fl', ThreadTable.mk (<[i := thread']> (ThreadTable.list tbl))) ∧
      Thread.state thread' = Thread.STOPPED ∧
      Thread.state_changed_at thread' = Thread.state_changed_at thread ∧
      Thread.started_at thread' = Thread.started_at thread ∧
      Thread.stopped_at thread' = Thread.stopped_at thread ∧
      Thread.markers thread' = Thread.markers thread ∧
      Thread.samples thread' = Thread.samples thread ∧
      Thread.pthread_id thread' = 0%Z ∧
      Thread.native_tid thread' = 0%Z ∧
      (new_state ≠ Thread.SUSPENDED → fl' = fl ∧ thread' = zero_ids thread) ∧
      (∀ target sample_start live,
         TimeCollector.sample_one target sample_start fl' live thread'
           = Ok (fl', live, thread')).
Proof.
  intros h fl tbl new_state th i thread Hok Hfind Hst.
  destruct (table_ok_find _ _ _ _ _ Hok Hfind) as [Hwf Hc].
  rewrite (set_state_found _ _ _ _ _ _ _ Hfind).
  unfold ThreadTable.update_thread.
  destruct (decide (new_state = Thread.SUSPENDED)) as [->|Hne].
  - assert (Hs : RawSample.wf (RawSample.sample h (RawSample.new (Host.junk h))))
      by auto with vernier.
    destruct (translate_ok _ Hs fl (Thread.translator thread) Hwf Hc)
      as (fl' & tr' & q & -> & _).
    bind_step. rewrite set_state_stopped by done. bind_step.
    cbn [Thread.state Thread.with_stack_on_suspend_idx Thread.with_translator].
    rewrite Hst, decide_False by done. bind_step.
    eexists _, _. split; [reflexivity|]. simpl.
    repeat split; try done.
    intros. unfold TimeCollector.sample_one. simpl. by rewrite Hst.
  - bind_step. rewrite set_state_stopped by done. bind_step.
    rewrite Hst, decide_False by done.
    eexists _, _. split; [reflexivity|]. simpl.
    repeat split; try done.
    intros. unfold TimeCollector.sample_one. simpl. by rewrite Hst.
Qed.

Lemma stopped_thread_keeps_state_markers_samples_witness :
  ∃ fl' thread',
    ThreadTable.set_state host0 FrameList.new
      (ThreadTable.mk [Thread.new host0 Thread.STOPPED 7 1]) Thread.READY 1 =
      Ok (fl', ThreadTable.mk
                 (<[0 := thread']> [Thread.new host0 Thread.STOPPED 7 1])) ∧
    Thread.state thread' = Thread.STOPPED ∧
    Thread.state_changed_at thread' =
      Thread.state_changed_at (Thread.new host0 Thread.STOPPED 7 1) ∧
    Thread.started_at thread' = Thread.started_at (Thread.new host0 Thread.STOPPED 7 1) ∧
    Thread.stopped_at thread' = Thread.stopped_at (Thread.new host0 Thread.STOPPED 7 1) ∧
    Thread.markers thread' = Thread.markers (Thread.new host0 Thread.STOPPED 7 1) ∧
    Thread.samples thread' = Thread.samples (Thread.new host0 Thread.STOPPED 7 1) ∧
    Thread.pthread_id thread' = 0%Z ∧
    Thread.native_tid thread' = 0%Z ∧
    (Thread.READY ≠ Thread.SUSPENDED →
     fl' = FrameList.new ∧ thread' = zero_ids (Thread.new host0 Thread.STOPPED 7 1)) ∧
    (∀ target sample_start live,
       TimeCollector.sample_one target sample_start fl' live thread'
         = Ok (fl', live, thread')).
Proof.
  apply (stopped_thread_keeps_state_markers_samples host0 FrameList.new
           (ThreadTable.mk [Thread.new host0 Thread.STOPPED 7 1]) Thread.READY 1 0
           (Thread.new host0 Thread.STOPPED 7 1)).
  - apply table_ok_one.
  - reflexivity.
  - reflexivity.
Defined.

(** C4 as stated fails: a thread is started and stops with
    stack-index-at-suspend [-1]; the SUSPENDED notification that follows
    captures a two-frame stack and stores its node index, [1], in the
    stopped record. *)
Lemma stopped_thread_suspend_overwrites_stack_index :
  ('(fl, tbl) ← ThreadTable.started host0 FrameList.new ThreadTable.new 1;
   '(fl, tbl) ← ThreadTable.stopped host0 fl tbl 1;
   '(fl', tbl') ← ThreadTable.suspended host0 fl tbl 1;
   Ok (Thread.state <$> ThreadTable.list tbl,
       Thread.stack_on_suspend_idx <$> ThreadTable.list tbl,
       Thread.state <$> ThreadTable.list tbl',
       Thread.stack_on_suspend_idx <$> ThreadTable.list tbl'))
  = Ok ([Thread.STOPPED], [(-1)%Z], [Thread.STOPPED], [1%Z]).
Proof. vm_compute. reflexivity. Qed.

(** C6. On a transition to RUNNING (from READY or RUNNING) with a clock
    that has not gone backwards, a "stalled" interval marker from the last
    state change to now is appended exactly when the time elapsed between
    them is not zero; otherwise the markers stay as they are. *)
Theorem stalled_marker_iff_elapsed_nonzero :
  ∀ (h : Host.t) (thread : Thread.t),
    Thread.state thread = Thread.READY ∨ Thread.state thread = Thread.RUNNING →
    (Thread.state_changed_at thread ≤ Host.now h)%Z →
    ∃ thread',
      Thread.set_state h thread Thread.RUNNING = Ok thread' ∧
      Thread.state thread' = Thread.RUNNING ∧
      Thread.state_changed_at thread' = Host.now h ∧
      Thread.markers thread' =
        Thread.markers thread ++
        (if decide (TimeStamp.sub (Host.now h) (Thread.state_changed_at thread)
                    = 0%Z)
         then []
         else [Marker.mk Marker.MARKER_THREAD_STALLED Marker.INTERVAL
                 (Thread.state_changed_at thread) (Host.now h) (-1)]).
Proof.
  intros h thread Hst Hmono. unfold Thread.set_state.
  rewrite decide_False by (destruct Hst; congruence).
  rewrite decide_False by (intros [? _]; done).
  set (th1 := if TimeStamp.zero _ then _ else _).
  assert (Hth1 : Thread.state th1 = Thread.state thread ∧
                 Thread.markers th1 = Thread.markers thread).
  { subst th1. by destruct (TimeStamp.zero _). }
  destruct Hth1 as [Hs1 Hm1].
  unfold assert. rewrite bool_decide_eq_true_2 by (rewrite Hs1; done).
  bind_step.
  eexists. split; [reflexivity|].
  unfold TimeStamp.ne, TimeStamp.sub.
  case_bool_decide as Heq; simpl; rewrite Hm1;
    (split; [done|]); (split; [done|]);
    repeat case_decide; try lia; by rewrite ?app_nil_r.
Qed.

(** A thread made READY at 40 is resumed at 100. *)
Lemma stalled_marker_iff_elapsed_nonzero_witness :
  ∃ thread',
    Thread.set_state host0
      (Thread.new (Host.mk 40%Z 41%Z 7%Z 8%Z true false [] (λ v, v) 1%Z (λ _, 0%Z))
         Thread.READY 7 1)
      Thread.RUNNING = Ok thread' ∧
    Thread.state thread' = Thread.RUNNING ∧
    Thread.state_changed_at thread' = 100%Z ∧
    Thread.markers thread' =
      [] ++ [Marker.mk Marker.MARKER_THREAD_STALLED Marker.INTERVAL 40%Z 100%Z (-1)].
Proof.
  apply (stalled_marker_iff_elapsed_nonzero host0
           (Thread.new (Host.mk 40%Z 41%Z 7%Z 8%Z true false [] (λ v, v) 1%Z (λ _, 0%Z))
              Thread.READY 7 1)).
  - left. reflexivity.
  - simpl. lia.
Defined.

(** ** The sampler tick *)

Lemma record_sample_ok fl sample time thread category fl' thread' :
  wf fl → cache_ok fl (Thread.translator thread) → RawSample.wf sample →
  TimeCollector.record_sample fl sample time thread category = Ok (fl', thread') →
  wf fl' ∧ ext fl fl' ∧ cache_ok fl' (Thread.translator thread').
Proof.
  intros Hwf Hc Hs. unfold TimeCollector.record_sample.
  destruct (RawSample.empty sample); simpl.
  - intros [= <- <-]. split; [done|]. split; [apply ext_refl|done].
  - destruct (translate_ok sample Hs fl (Thread.translator thread) Hwf Hc)
      as (fl1 & tr1 & q & -> & _ & _ & Hwf1 & Hext1 & Hc1 & _).
    bind_step.
    destruct (SampleList.record_sample _ _ _ _ _) as [sl|]; [|done].
    bind_step. by intros [= <- <-].
Qed.

Lemma sample_one_ok target sample_start fl live thread fl' live' thread' :
  wf fl → cache_ok fl (Thread.translator thread) → RawSample.wf live →
  TimeCollector.sample_one target sample_start fl live thread
    = Ok (fl', live', thread') →
  wf fl' ∧ ext fl fl' ∧ cache_ok fl' (Thread.translator thread') ∧
  RawSample.wf live'.
Proof.
  intros Hwf Hc Hlive. unfold TimeCollector.sample_one.
  repeat case_decide.
  - unfold GlobalSignalHandler.record_sample.
    destruct (assert _); [|done]. bind_step.
    pose proof (RawSample_sample_wf target live Hlive) as Hs.
    destruct (RawSample.gc _).
    + intros [= <- <- <-]. split; [done|]. split; [apply ext_refl|done].
    + destruct (TimeCollector.record_sample _ _ _ _ _) as [[fl1 th1]|] eqn:Hrec;
        [|done].
      bind_step. intros [= <- <- <-].
      destruct (record_sample_ok _ _ _ _ _ _ _ Hwf Hc Hs Hrec) as (? & ? & ?).
      done.
  - destruct (SampleList.record_sample _ _ _ _ _) as [sl|]; [|done].
    bind_step. intros [= <- <- <-]. split; [done|]. split; [apply ext_refl|done].
  - intros [= <- <- <-]. split; [done|]. split; [apply ext_refl|done].
Qed.

(** A pass over the thread list keeps the tree and the translators
    fitting together, and each record in the state it was in. *)
Lemma sample_threads_table_ok targets sample_start l : ∀ i fl live fl' live' l',
  table_ok fl l → RawSample.wf live →
  TimeCollector.sample_threads targets sample_start i fl live l
    = Ok (fl', live', l') →
  table_ok fl' l' ∧ ext fl fl' ∧ RawSample.wf live' ∧ length l' = length l.
Proof.
  induction l as [|thread rest IH]; intros i fl live fl' live' l' [Hwf Hall] Hlive;
    simpl.
  - intros [= <- <- <-]. split; [by split|]. split; [apply ext_refl|done].
  - apply Forall_cons in Hall as [Hc Hall].
    destruct (TimeCollector.sample_one _ _ _ _ _) as [[[fl1 live1] th1]|] eqn:Hone;
      [|done].
    bind_step.
    destruct (sample_one_ok _ _ _ _ _ _ _ _ Hwf Hc Hlive Hone)
      as (Hwf1 & Hext1 & Hc1 & Hlive1).
    destruct (TimeCollector.sample_threads _ _ _ _ _ _)
      as [[[fl2 live2] rest2]|] eqn:Hrest; [|done].
    bind_step. intros [= <- <- <-].
    destruct (IH _ _ _ _ _ _
                (conj Hwf1 (Forall_impl _ _ _ Hall (λ x, cache_ok_ext _ _ _ Hext1)))
                Hlive1 Hrest)
      as ([Hwf2 Hall2] & Hext2 & Hlive2 & Hlen).
    split; [split; [done|]|].
    + constructor; [by eapply cache_ok_ext|done].
    + split; [by eapply ext_trans|]. split; [done|]. simpl. by rewrite Hlen.
Qed.

(** The pass handles the records one after the other, each with
    [sample_one], handing on the tree and the capture buffer. *)
Lemma sample_threads_app targets sample_start l1 l2 : ∀ i fl live,
  TimeCollector.sample_threads targets sample_start i fl live (l1 ++ l2) =
    '(fl, live, l1') ← TimeCollector.sample_threads targets sample_start i fl live l1;
    '(fl, live, l2') ← TimeCollector.sample_threads targets sample_start
                          (i + length l1) fl live l2;
    Ok (fl, live, l1' ++ l2').
Proof.
  induction l1 as [|thread l1 IH]; intros i fl live; simpl.
  - rewrite Nat.add_0_r.
    by destruct (TimeCollector.sample_threads _ _ _ _ _ l2) as [[[? ?] ?]|].
  - destruct (TimeCollector.sample_one _ _ _ _ _) as [[[fl1 live1] th1]|];
      simpl; [|done].
    rewrite IH. replace (S i + length l1) with (i + S (length l1)) by lia.
    destruct (TimeCollector.sample_threads _ _ _ _ _ l1) as [[[fl2 live2] l1']|];
      simpl; [|done].
    by destruct (TimeCollector.sample_threads _ _ _ _ _ l2) as [[[? ?] ?]|].
Qed.

(** C3 as stated fails: a RUNNING thread whose capture comes back empty
    and not GC-flagged (the signalled thread is not native) gets no sample;
    its record is returned as it was. *)
Lemma running_thread_empty_capture_records_nothing :
  Thread.state (Thread.new host0 Thread.RUNNING 7 1) = Thread.RUNNING ∧
  RawSample.gc (RawSample.sample host_foreign (RawSample.new (λ _, 0%Z))) = false ∧
  TimeCollector.sample_one host_foreign 300%Z FrameList.new
    (RawSample.new (λ _, 0%Z)) (Thread.new host0 Thread.RUNNING 7 1)
  = Ok (FrameList.new, RawSample.sample host_foreign (RawSample.new (λ _, 0%Z)),
        Thread.new host0 Thread.RUNNING 7 1) ∧
  SampleList.size (Thread.samples (Thread.new host0 Thread.RUNNING 7 1)) = 0.
Proof. repeat split; vm_compute; reflexivity. Qed.

(** *** Scheduling the next tick *)

Lemma iteration_schedule tk c s c' s' :
  TimeCollector.iteration tk c s = Ok (c', s') →
  TimeCollector.next_sample_schedule s' =
    TimeCollector.reschedule (TimeCollector.next_sample_schedule s)
      (TimeCollector.interval c) (TimeCollector.sample_complete tk) ∧
  TimeCollector.interval c' = TimeCollector.interval c.
Proof.
  unfold TimeCollector.iteration.
  destruct (TimeCollector.sample_threads _ _ _ _ _ _) as [[[fl live] l]|];
    simpl; [|done].
  by intros [= <- <-].
Qed.

(** An iteration keeps the collector's tree and thread table fitting
    together. *)
Lemma iteration_table_ok tk c s c' s' :
  table_ok (BaseCollector.frame_list (TimeCollector.base c))
    (ThreadTable.list (TimeCollector.threads c)) →
  RawSample.wf (TimeCollector.sample s) →
  TimeCollector.iteration tk c s = Ok (c', s') →
  table_ok (BaseCollector.frame_list (TimeCollector.base c'))
    (ThreadTable.list (TimeCollector.threads c')) ∧
  RawSample.wf (TimeCollector.sample s').
Proof.
  intros Hok Hlive. unfold TimeCollector.iteration.
  destruct (TimeCollector.sample_threads _ _ _ _ _ _) as [[[fl live] l]|] eqn:Hrun;
    simpl; [|done].
  intros [= <- <-]. simpl.
  destruct (sample_threads_table_ok _ _ _ _ _ _ _ _ _ Hok Hlive Hrun)
    as (? & _ & ? & _).
  done.
Qed.

(** C8. With time stamps that do not overflow 64 bits, an iteration of
    the sampler loop that ends at [sample_complete] schedules the next tick
    at the previous schedule plus the interval, unless that moment is
    already past, in which case it schedules it one interval after
    [sample_complete].  Either way the next tick is not scheduled in the
    past, and, the iteration having started at or after its own schedule,
    it is at most one interval ahead: no backlog of overdue ticks builds
    up. *)
Theorem next_tick_schedule :
  ∀ (tk : TimeCollector.tick) (c c' : TimeCollector.t)
    (s s' : TimeCollector.sampler),
    let prev := TimeCollector.next_sample_schedule s in
    let interval := TimeCollector.interval c in
    let complete := TimeCollector.sample_complete tk in
    let next := TimeCollector.next_sample_schedule s' in
    TimeStamp.in_range prev → TimeStamp.in_range interval →
    TimeStamp.in_range complete →
    (prev + interval < TimeStamp.modulus)%Z →
    (complete + interval < TimeStamp.modulus)%Z →
    TimeCollector.iteration tk c s = Ok (c', s') →
    (¬ (prev + interval < complete)%Z → next = (prev + interval)%Z) ∧
    ((prev + interval < complete)%Z → next = (complete + interval)%Z) ∧
    (complete ≤ next)%Z ∧
    ((prev ≤ complete)%Z → (next ≤ complete + interval)%Z).
Proof.
  intros tk c c' s s' prev interval complete next Hp Hi Hc Ho1 Ho2 Hit.
  subst next. rewrite (proj1 (iteration_schedule _ _ _ _ _ Hit)).
  fold prev interval complete.
  unfold TimeCollector.reschedule, TimeStamp.add, TimeStamp.lt,
    TimeStamp.in_range in *.
  rewrite !Z.mod_small by lia.
  case_bool_decide; repeat split; intros; lia.
Qed.

(** An iteration scheduled for 1000 with interval 500 ends at 1900: the
    next tick is set for 2400. *)
Lemma next_tick_schedule_witness :
  (¬ (1000 + 500 < 1900)%Z →
   TimeCollector.next_sample_schedule
     (TimeCollector.mk_sampler (RawSample.new (λ _, 0%Z)) 2400%Z)
   = (1000 + 500)%Z) ∧
  ((1000 + 500 < 1900)%Z →
   TimeCollector.next_sample_schedule
     (TimeCollector.mk_sampler (RawSample.new (λ _, 0%Z)) 2400%Z)
   = (1900 + 500)%Z) ∧
  (1900 ≤ TimeCollector.next_sample_schedule
     (TimeCollector.mk_sampler (RawSample.new (λ _, 0%Z)) 2400%Z))%Z ∧
  ((1000 ≤ 1900)%Z →
   (TimeCollector.next_sample_schedule
      (TimeCollector.mk_sampler (RawSample.new (λ _, 0%Z)) 2400%Z)
    ≤ 1900 + 500)%Z).
Proof.
  apply (next_tick_schedule tick0 (TimeCollector.new 500%Z)
           (TimeCollector.new 500%Z)
           (TimeCollector.mk_sampler (RawSample.new (λ _, 0%Z)) 1000%Z)
           (TimeCollector.mk_sampler (RawSample.new (λ _, 0%Z)) 2400%Z)).
  - vm_compute. split; [discriminate|reflexivity].
  - vm_compute. split; [discriminate|reflexivity].
  - vm_compute. split; [discriminate|reflexivity].
  - vm_compute. reflexivity.
  - vm_compute. reflexivity.
  - vm_compute. reflexivity.
Defined.

(** ** The sample list *)

Lemma bump_back_snoc ws w :
  w ≠ SampleList.INT_MAX →
  SampleList.bump_back (ws ++ [w]) = Ok (ws ++ [(w + 1)%Z]).
Proof.
  intros Hw. unfold SampleList.bump_back. rewrite back_snoc. bind_step.
  rewrite decide_False by done. f_equal.
  rewrite length_app. simpl.
  replace (length ws + 1 - 1) with (length ws + 0) by lia.
  by rewrite insert_app_r.
Qed.

Lemma same_as_back_snoc ss tss ts cs ws s th c :
  SampleList.same_as_back
    (SampleList.mk (ss ++ [s]) tss (ts ++ [th]) (cs ++ [c]) ws) s th c
  = Ok true.
Proof.
  unfold SampleList.same_as_back, SampleList.empty, SampleList.size.
  cbn [SampleList.stacks SampleList.threads SampleList.categories].
  rewrite bool_decide_eq_false_2 by (rewrite length_app; simpl; lia).
  rewrite !back_snoc. bind_step.
  rewrite decide_False by (intros ?; done). bind_step.
  rewrite decide_False by (intros ?; done). bind_step.
  by rewrite bool_decide_eq_true_2.
Qed.

(** The merging branch of [record_sample]. *)
Lemma record_sample_same ss tss ts cs ws s th c w time :
  w ≠ SampleList.INT_MAX →
  SampleList.record_sample
    (SampleList.mk (ss ++ [s]) tss (ts ++ [th]) (cs ++ [c]) (ws ++ [w]))
    s time th c
  = Ok (SampleList.mk (ss ++ [s]) tss (ts ++ [th]) (cs ++ [c])
          (ws ++ [(w + 1)%Z])).
Proof.
  intros Hw. unfold SampleList.record_sample.
  rewrite same_as_back_snoc. cbn [mbind res_bind SampleList.weights].
  by rewrite bump_back_snoc.
Qed.

(** The appending branch of [record_sample]. *)
Lemma record_sample_differs sl s th c time :
  SampleList.same_as_back sl s th c = Ok false →
  SampleList.record_sample sl s time th c
  = Ok (SampleList.mk (SampleList.stacks sl ++ [s])
          (SampleList.timestamps sl ++ [time])
          (SampleList.threads sl ++ [th])
          (SampleList.categories sl ++ [c])
          (SampleList.weights sl ++ [1%Z])).
Proof. intros Hdiff. unfold SampleList.record_sample. by rewrite Hdiff. Qed.

(** [record_sample] keeps the five vectors in step. *)
Lemma record_sample_wf sl s time th c sl' :
  SampleList.wf sl → SampleList.record_sample sl s time th c = Ok sl' →
  SampleList.wf sl'.
Proof.
  intros (H1 & H2 & H3 & H4). unfold SampleList.record_sample.
  destruct (SampleList.same_as_back sl s th c) as [[]|]; simpl; [| |done].
  - unfold SampleList.bump_back.
    destruct (back (SampleList.weights sl)) as [w|]; simpl; [|done].
    case_decide; simpl; [done|]. intros [= <-].
    unfold SampleList.wf. simpl. rewrite length_insert. done.
  - intros [= <-]. unfold SampleList.wf. simpl. rewrite !length_app. simpl. lia.
Qed.

(** C7. Recording a sample whose stack index, thread id and category are
    those of the last entry adds one to that entry's weight and appends
    nothing, whatever the time stamps are.  So recording the same stack and
    category three times in a row, after an entry that differs or into an
    empty list, leaves one new entry of weight 3 carrying the first time
    stamp. *)
Theorem record_sample_run_length :
  ∀ (ss : list Z) (tss : list TimeStamp.t) (ts : list Z) (cs : list Category)
    (ws : list Z) (s th : Z) (c : Category) (w : Z) (time : TimeStamp.t)
    (sl : SampleList.t) (t1 t2 t3 : TimeStamp.t),
    w ≠ SampleList.INT_MAX →
    SampleList.same_as_back sl s th c = Ok false →
    SampleList.record_sample
      (SampleList.mk (ss ++ [s]) tss (ts ++ [th]) (cs ++ [c]) (ws ++ [w]))
      s time th c
    = Ok (SampleList.mk (ss ++ [s]) tss (ts ++ [th]) (cs ++ [c])
            (ws ++ [(w + 1)%Z])) ∧
    (sl1 ← SampleList.record_sample sl s t1 th c;
     sl2 ← SampleList.record_sample sl1 s t2 th c;
     SampleList.record_sample sl2 s t3 th c)
    = Ok (SampleList.mk (SampleList.stacks sl ++ [s])
            (SampleList.timestamps sl ++ [t1])
            (SampleList.threads sl ++ [th])
            (SampleList.categories sl ++ [c])
            (SampleList.weights sl ++ [3%Z])).
Proof.
  intros ss tss ts cs ws s th c w time sl t1 t2 t3 Hw Hdiff.
  split; [by apply record_sample_same|].
  rewrite (record_sample_differs _ _ _ _ _ Hdiff). bind_step.
  rewrite record_sample_same by (unfold SampleList.INT_MAX; lia). bind_step.
  rewrite record_sample_same by (unfold SampleList.INT_MAX; lia). done.
Qed.

(** An entry of weight 2 is matched; and stack 5 is recorded three times
    into an empty list, at times 20, 21 and 22. *)
Lemma record_sample_run_length_witness :
  SampleList.record_sample
    (SampleList.mk ([4%Z] ++ [5%Z]) [10%Z; 11%Z] ([0%Z] ++ [0%Z])
       ([CATEGORY_NORMAL] ++ [CATEGORY_IDLE]) ([1%Z] ++ [2%Z]))
    5%Z 99%Z 0%Z CATEGORY_IDLE
  = Ok (SampleList.mk ([4%Z] ++ [5%Z]) [10%Z; 11%Z] ([0%Z] ++ [0%Z])
          ([CATEGORY_NORMAL] ++ [CATEGORY_IDLE]) ([1%Z] ++ [(2 + 1)%Z])) ∧
  (sl1 ← SampleList.record_sample SampleList.new 5%Z 20%Z 0%Z CATEGORY_IDLE;
   sl2 ← SampleList.record_sample sl1 5%Z 21%Z 0%Z CATEGORY_IDLE;
   SampleList.record_sample sl2 5%Z 22%Z 0%Z CATEGORY_IDLE)
  = Ok (SampleList.mk ([] ++ [5%Z]) ([] ++ [20%Z]) ([] ++ [0%Z])
          ([] ++ [CATEGORY_IDLE]) ([] ++ [3%Z])).
Proof.
  apply (record_sample_run_length [4%Z] [10%Z; 11%Z] [0%Z] [CATEGORY_NORMAL] [1%Z]
           5%Z 0%Z CATEGORY_IDLE 2%Z 99%Z SampleList.new 20%Z 21%Z 22%Z).
  - vm_compute. discriminate.
  - reflexivity.
Defined.

(** ** Starting and stopping a collector *)

(** C9. [stop] on a collector that is not running raises "collector not
    running" and leaves the collector as it was, whatever the host would
    do in a garbage collection; [start] on a running collector raises
    "already running"; [start] on a collector that is not running and has
    not been started before returns true and marks the collector
    running. *)
Theorem collector_start_stop_guards :
  ∀ (h : Host.t) (c : collector),
    (BaseCollector.running (collector_base c) = false →
     ∀ first_gc second_gc,
       collector_stop first_gc second_gc c
         = (c, Err (Raised "collector not running"))) ∧
    (BaseCollector.running (collector_base c) = true →
     collector_start h c = (c, Err (Raised "already running"))) ∧
    (BaseCollector.running (collector_base c) = false → first_start c →
     ∃ c', collector_start h c = (c', Ok Qtrue) ∧
           BaseCollector.running (collector_base c') = true).
Proof.
  intros h c. split; [|split].
  - intros Hrun first_gc second_gc. unfold collector_stop, virtual_stop.
    destruct c as [[b sl]|[b objf objl]|[b gm tbl run iv]]; simpl in *;
      unfold CustomCollector.stop, RetainedCollector.stop, TimeCollector.stop,
        BaseCollector.stop; simpl; rewrite Hrun; simpl; done.
  - intros Hrun. unfold collector_start, virtual_start.
    destruct c as [[b sl]|[b objf objl]|[b gm tbl run iv]]; simpl in *;
      unfold CustomCollector.start, RetainedCollector.start, TimeCollector.start,
        BaseCollector.start; simpl; rewrite Hrun; simpl; done.
  - intros Hrun Hfirst. unfold collector_start, virtual_start.
    destruct c as [[b sl]|[b objf objl]|[b gm tbl run iv]]; simpl in *.
    + unfold CustomCollector.start, BaseCollector.start. simpl. rewrite Hrun.
      simpl. eexists. split; [reflexivity|done].
    + unfold RetainedCollector.start, BaseCollector.start. simpl. rewrite Hrun.
      simpl. eexists. split; [reflexivity|done].
    + unfold TimeCollector.start, BaseCollector.start. simpl. rewrite Hrun.
      simpl. unfold ThreadTable.resumed, ThreadTable.set_state.
      rewrite Hfirst. simpl. eexists. split; [reflexivity|done].
Qed.

(** A new wall-clock collector: stopping it raises, starting it works,
    and starting what that leaves raises. *)
Lemma collector_start_stop_guards_witness :
  (∀ first_gc second_gc,
     collector_stop first_gc second_gc (Wall (TimeCollector.new 500%Z))
       = (Wall (TimeCollector.new 500%Z), Err (Raised "collector not running"))) ∧
  collector_start host0
    (collector_start host0 (Wall (TimeCollector.new 500%Z))).1
    = ((collector_start host0 (Wall (TimeCollector.new 500%Z))).1,
       Err (Raised "already running")) ∧
  ∃ c', collector_start host0 (Wall (TimeCollector.new 500%Z)) = (c', Ok Qtrue) ∧
        BaseCollector.running (collector_base c') = true.
Proof.
  split; [|split].
  - apply (collector_start_stop_guards host0 (Wall (TimeCollector.new 500%Z))).
    reflexivity.
  - apply (collector_start_stop_guards host0
             (collector_start host0 (Wall (TimeCollector.new 500%Z))).1).
    reflexivity.
  - apply (collector_start_stop_guards host0 (Wall (TimeCollector.new 500%Z)));
      reflexivity.
Defined.

(** * Further properties of the code *)

(** ** Time stamps *)

Lemma modulus_eq : TimeStamp.modulus = 18446744073709551616%Z.
Proof. reflexivity. Qed.

(** X1. [operator-] and [operator+] on time stamps undo each other as
    long as the sum fits in 64 bits, a difference that would be negative
    is zero, and both results are values of a [uint64_t]. *)
Theorem timestamp_add_sub_round_trip :
  ∀ a b : TimeStamp.t,
    TimeStamp.in_range a → TimeStamp.in_range b →
    ((a + b < TimeStamp.modulus)%Z →
     TimeStamp.sub (TimeStamp.add a b) b = a) ∧
    ((b ≤ a)%Z → TimeStamp.add (TimeStamp.sub a b) b = a) ∧
    ((a ≤ b)%Z → TimeStamp.sub a b = TimeStamp.Zero) ∧
    TimeStamp.in_range (TimeStamp.sub a b) ∧
    TimeStamp.in_range (TimeStamp.add a b).
Proof.
  intros a b Ha Hb. unfold TimeStamp.in_range in *.
  unfold TimeStamp.sub, TimeStamp.add, TimeStamp.Zero.
  rewrite modulus_eq in *.
  repeat split.
  - intros Hfit. rewrite Z.mod_small by lia. case_decide; lia.
  - intros Hle. case_decide.
    + rewrite Z.mod_small; lia.
    + assert (a = b) as -> by lia. rewrite Z.mod_small; lia.
  - intros Hle. case_decide; lia.
  - case_decide; lia.
  - case_decide; lia.
  - apply Z.mod_pos_bound. lia.
  - apply Z.mod_pos_bound. lia.
Qed.

Lemma timestamp_add_sub_round_trip_witness :
  ((5 + 3 < TimeStamp.modulus)%Z →
   TimeStamp.sub (TimeStamp.add 5%Z 3%Z) 3%Z = 5%Z) ∧
  ((3 ≤ 5)%Z → TimeStamp.add (TimeStamp.sub 5%Z 3%Z) 3%Z = 5%Z) ∧
  ((5 ≤ 3)%Z → TimeStamp.sub 5%Z 3%Z = TimeStamp.Zero) ∧
  TimeStamp.in_range (TimeStamp.sub 5%Z 3%Z) ∧
  TimeStamp.in_range (TimeStamp.add 5%Z 3%Z).
Proof.
  apply (timestamp_add_sub_round_trip 5%Z 3%Z);
    unfold TimeStamp.in_range; rewrite modulus_eq; lia.
Defined.

(** X2. [timespec()] splits a time stamp into whole seconds and fewer
    than 10^9 nanoseconds, and the arithmetic of [Now()] puts the two
    together again. *)
Theorem timespec_round_trip :
  ∀ a : TimeStamp.t,
    TimeStamp.in_range a →
    (0 ≤ (TimeStamp.timespec a).1)%Z ∧
    (0 ≤ (TimeStamp.timespec a).2 < TimeStamp.nanoseconds_per_second)%Z ∧
    TimeStamp.Now (TimeStamp.timespec a).1 (TimeStamp.timespec a).2 = a.
Proof.
  intros a Ha. unfold TimeStamp.in_range in Ha.
  unfold TimeStamp.timespec, TimeStamp.Now, TimeStamp.nanoseconds,
    TimeStamp.nanoseconds_per_second. simpl fst. simpl snd.
  split; [apply Z.div_pos; lia|].
  split; [apply Z.mod_pos_bound; lia|].
  rewrite (Z.mul_comm (a / 1000000000)), <- Z.div_mod by lia.
  apply Z.mod_small. done.
Qed.

Lemma timespec_round_trip_witness :
  (0 ≤ (TimeStamp.timespec 2500000001%Z).1)%Z ∧
  (0 ≤ (TimeStamp.timespec 2500000001%Z).2
     < TimeStamp.nanoseconds_per_second)%Z ∧
  TimeStamp.Now (TimeStamp.timespec 2500000001%Z).1
    (TimeStamp.timespec 2500000001%Z).2 = 2500000001%Z.
Proof.
  apply (timespec_round_trip 2500000001%Z).
  unfold TimeStamp.in_range. rewrite modulus_eq. lia.
Defined.

(** X3. [from_seconds] multiplies by 10^9 when the product fits in 64
    bits; the result reads back as 10^6 times as many microseconds and
    as a [timespec] of that many seconds and no nanoseconds. *)
Theorem from_seconds_units :
  ∀ s : Z,
    (0 ≤ s)%Z → (s * 1000000000 < TimeStamp.modulus)%Z →
    TimeStamp.from_seconds s = (s * 1000000000)%Z ∧
    TimeStamp.from_milliseconds (s * 1000) = TimeStamp.from_seconds s ∧
    TimeStamp.microseconds (TimeStamp.from_seconds s) = (s * 1000000)%Z ∧
    TimeStamp.timespec (TimeStamp.from_seconds s) = (s, 0%Z).
Proof.
  intros s Hs Hfit. rewrite modulus_eq in Hfit.
  assert (TimeStamp.from_seconds s = (s * 1000000000)%Z) as Heq.
  { unfold TimeStamp.from_seconds, TimeStamp.from_milliseconds,
      TimeStamp.from_microseconds, TimeStamp.from_nanoseconds.
    rewrite modulus_eq.
    rewrite (Z.mod_small (s * 1000)) by lia.
    rewrite (Z.mod_small (s * 1000 * 1000)) by lia.
    rewrite Z.mod_small; lia. }
  split; [done|]. split.
  { rewrite Heq.
    unfold TimeStamp.from_milliseconds,
      TimeStamp.from_microseconds, TimeStamp.from_nanoseconds.
    rewrite modulus_eq.
    rewrite (Z.mod_small (s * 1000 * 1000)) by lia.
    rewrite Z.mod_small; lia. }
  rewrite Heq. unfold TimeStamp.microseconds, TimeStamp.timespec,
    TimeStamp.nanoseconds, TimeStamp.nanoseconds_per_second.
  split.
  - replace (s * 1000000000)%Z with (s * 1000000 * 1000)%Z by lia.
    apply Z.div_mul. lia.
  - f_equal; [apply Z.div_mul; lia|apply Z.mod_mul; lia].
Qed.

Lemma from_seconds_units_witness :
  TimeStamp.from_seconds 5 = (5 * 1000000000)%Z ∧
  TimeStamp.from_milliseconds (5 * 1000) = TimeStamp.from_seconds 5 ∧
  TimeStamp.microseconds (TimeStamp.from_seconds 5) = (5 * 1000000)%Z ∧
  TimeStamp.timespec (TimeStamp.from_seconds 5) = (5%Z, 0%Z).
Proof.
  apply (from_seconds_units 5%Z); [lia|rewrite modulus_eq; lia].
Defined.

Lemma SleepUntil_loop_spec target clock rest :
  TimeStamp.SleepUntil_loop target clock = Some rest ↔
  ∃ pre now, clock = pre ++ now :: rest ∧
             Forall (λ t, (t < target)%Z) pre ∧ (target ≤ now)%Z.
Proof.
  revert rest. induction clock as [|t clock IH]; intros rest; simpl.
  - split; [done|]. intros (pre & now & Heq & _). by destruct pre.
  - unfold TimeStamp.gt. case_bool_decide as Hgt.
    + rewrite IH. split.
      * intros (pre & now & -> & Hpre & Hnow).
        exists (t :: pre), now. split; [done|]. split; [|done].
        constructor; [lia|done].
      * intros (pre & now & Heq & Hpre & Hnow).
        destruct pre as [|t' pre]; simpl in Heq.
        { injection Heq as -> ->. lia. }
        injection Heq as -> ->. exists pre, now.
        split; [done|]. split; [|done]. by inversion Hpre.
    + split.
      * intros [= ->]. exists [], t. split; [done|]. split; [constructor|lia].
      * intros (pre & now & Heq & Hpre & Hnow).
        destruct pre as [|t' pre]; simpl in Heq.
        { by injection Heq as -> ->. }
        injection Heq as -> ->. inversion Hpre; subst. lia.
Qed.

(** X4. [SleepUntil] returns at once for the zero time stamp, without
    reading the clock; for any other target it returns at the first
    reading of the clock that is not before the target, and it returns
    whenever the clock gets there. *)
Theorem SleepUntil_returns_at_target :
  ∀ (target : TimeStamp.t) (clock : list TimeStamp.t),
    (target = TimeStamp.Zero → TimeStamp.SleepUntil target clock = Some clock) ∧
    (target ≠ TimeStamp.Zero →
     ∀ rest,
       TimeStamp.SleepUntil target clock = Some rest ↔
       ∃ pre now, clock = pre ++ now :: rest ∧
                  Forall (λ t, (t < target)%Z) pre ∧ (target ≤ now)%Z) ∧
    (target ≠ TimeStamp.Zero →
     Exists (λ t, (target ≤ t)%Z) clock →
     is_Some (TimeStamp.SleepUntil target clock)).
Proof.
  intros target clock. unfold TimeStamp.SleepUntil, TimeStamp.zero,
    TimeStamp.Zero.
  split; [intros ->; done|]. split.
  - intros Hne rest. rewrite bool_decide_eq_false_2 by done.
    apply SleepUntil_loop_spec.
  - intros Hne Hex. rewrite bool_decide_eq_false_2 by done.
    induction Hex as [t clock Ht|t clock Hex IH]; simpl; unfold TimeStamp.gt.
    + rewrite bool_decide_eq_false_2 by lia. done.
    + case_bool_decide; [apply IH|done].
Qed.

(** ** What a capture holds *)

Lemma write_from_lookup {A} (xs : list A) : ∀ buf i j,
  i + length xs ≤ length buf →
  RawSample.write_from buf i xs !! j =
    if decide (i ≤ j < i + length xs) then xs !! (j - i) else buf !! j.
Proof.
  induction xs as [|x xs IH]; intros buf i j Hlen; simpl in *.
  - rewrite decide_False by lia. done.
  - rewrite IH by (rewrite length_insert; lia).
    destruct (decide (j = i)) as [->|Hne].
    + rewrite decide_False by lia. rewrite decide_True by lia.
      rewrite Nat.sub_diag. simpl. apply list_lookup_insert_eq. lia.
    + rewrite list_lookup_insert_ne by done.
      repeat case_decide; try lia; try done.
      replace (j - i) with (S (j - S i)) by lia. done.
Qed.

Lemma write_from_take {A} (xs buf : list A) :
  length xs ≤ length buf →
  take (length xs) (RawSample.write_from buf 0 xs) = xs.
Proof.
  intros Hlen. apply list_eq. intros j.
  destruct (decide (j < length xs)) as [Hj|Hj].
  - rewrite lookup_take_lt by done. rewrite write_from_lookup by done.
    rewrite decide_True by lia. by rewrite Nat.sub_0_r.
  - rewrite lookup_take_ge by lia. symmetry. apply lookup_ge_None. lia.
Qed.

Lemma zip_with_fst_snd (got : list (Z * Z)) :
  zip_with Frame.mk (got.*1) (got.*2) = (λ p, Frame.mk p.1 p.2) <$> got.
Proof. induction got as [|[a b] got IH]; csimpl; [done|by rewrite IH]. Qed.

(** X5. A capture is well formed and never both flagged as taken during
    GC and non-empty.  On a native thread outside GC it holds the first
    [MAX_LEN] frames [rb_profile_frames] offers, which [frame(0)],
    [frame(1)], ... then enumerate in the opposite order (root first);
    in every other case it is empty. *)
Theorem sample_captures_offered_frames :
  ∀ (h : Host.t) (s : RawSample.t),
    RawSample.wf s →
    RawSample.wf (RawSample.sample h s) ∧
    (RawSample.gc (RawSample.sample h s) = true ↔
       Host.ruby_native_thread_p h = true ∧ Host.rb_during_gc h = true) ∧
    (RawSample.gc (RawSample.sample h s) = true →
       RawSample.len (RawSample.sample h s) = 0) ∧
    RawSample.len (RawSample.sample h s) ≤ length (Host.rb_profile_frames h) ∧
    RawSample.stack (RawSample.sample h s) =
      if Host.ruby_native_thread_p h && negb (Host.rb_during_gc h)
      then reverse ((λ p, Frame.mk p.1 p.2)
                      <$> take RawSample.MAX_LEN (Host.rb_profile_frames h))
      else [].
Proof.
  intros h s Hs. split; [by apply RawSample_sample_wf|].
  destruct Hs as (Hf & Hl & Hlen).
  unfold RawSample.sample, RawSample.clear.
  destruct (Host.ruby_native_thread_p h); simpl;
    [|split; [split; [done|by intros [? _]]|]; split; [done|];
      split; [lia|done]].
  destruct (Host.rb_during_gc h); simpl;
    [split; [done|]; split; [done|]; split; [lia|done]|].
  split; [split; [done|by intros [_ ?]]|]. split; [done|].
  split; [rewrite length_take; lia|].
  unfold RawSample.stack, RawSample.profile_frames. simpl.
  set (got := take RawSample.MAX_LEN (Host.rb_profile_frames h)).
  assert (length got ≤ RawSample.MAX_LEN) as Hgot
    by (unfold got; rewrite length_take; lia).
  rewrite <- (length_fmap fst got) at 1.
  rewrite write_from_take by (rewrite length_fmap; lia).
  rewrite <- (length_fmap snd got) at 1.
  rewrite write_from_take by (rewrite length_fmap; lia).
  by rewrite zip_with_fst_snd.
Qed.

Lemma sample_captures_offered_frames_witness :
  RawSample.wf (RawSample.sample host0 (RawSample.new (λ _, 0%Z))) ∧
  (RawSample.gc (RawSample.sample host0 (RawSample.new (λ _, 0%Z))) = true ↔
     Host.ruby_native_thread_p host0 = true ∧ Host.rb_during_gc host0 = true) ∧
  (RawSample.gc (RawSample.sample host0 (RawSample.new (λ _, 0%Z))) = true →
     RawSample.len (RawSample.sample host0 (RawSample.new (λ _, 0%Z))) = 0) ∧
  RawSample.len (RawSample.sample host0 (RawSample.new (λ _, 0%Z)))
    ≤ length (Host.rb_profile_frames host0) ∧
  RawSample.stack (RawSample.sample host0 (RawSample.new (λ _, 0%Z))) =
    if Host.ruby_native_thread_p host0 && negb (Host.rb_during_gc host0)
    then reverse ((λ p, Frame.mk p.1 p.2)
                    <$> take RawSample.MAX_LEN (Host.rb_profile_frames host0))
    else [].
Proof.
  apply (sample_captures_offered_frames host0 (RawSample.new (λ _, 0%Z))).
  apply RawSample_new_wf.
Defined.

(** X6. [frame(i)] takes a signed index.  For [0 <= i < len] it returns
    the [i]-th frame of the stack, counted from the root, and for
    [i >= len] it throws [std::out_of_range].  A negative [i] is not
    refused: the slot [len - i - 1], which lies past the capture, is read
    as it is, and from slot [MAX_LEN] on the read is outside the
    buffers. *)
Theorem frame_in_and_out_of_range :
  ∀ (s : RawSample.t) (i : Z),
    RawSample.wf s →
    ((0 ≤ i < Z.of_nat (RawSample.len s))%Z →
     ∃ f, RawSample.frame s i = Ok f ∧
          RawSample.stack s !! Z.to_nat i = Some f) ∧
    ((Z.of_nat (RawSample.len s) ≤ i)%Z →
     RawSample.frame s i = Err (Thrown "out of range") ∧
     RawSample.stack s !! Z.to_nat i = None) ∧
    ((i < 0)%Z →
     let idx := Z.to_nat (Z.of_nat (RawSample.len s) - i - 1) in
     RawSample.len s ≤ idx ∧
     (idx < RawSample.MAX_LEN →
      ∃ f l, RawSample.frames s !! idx = Some f ∧
             RawSample.lines s !! idx = Some l ∧
             RawSample.frame s i = Ok (Frame.mk f l)) ∧
     (RawSample.MAX_LEN ≤ idx → RawSample.frame s i = Err Undefined)).
Proof.
  intros s i Hs. split; [|split].
  - intros Hi. destruct (frame_stack s Hs (Z.to_nat i)) as (f & Hf & Hsf); [lia|].
    exists f. rewrite Z2Nat.id in Hf by lia. done.
  - intros Hi. split.
    + unfold RawSample.frame. cbv zeta. rewrite decide_True by lia. done.
    + apply lookup_ge_None. rewrite stack_length by done. lia.
  - intros Hi. destruct Hs as (Hf & Hl & Hlen).
    unfold RawSample.frame. cbv zeta. rewrite decide_False by lia.
    remember (Z.to_nat (Z.of_nat (RawSample.len s) - i - 1)) as idx eqn:Hidx.
    split; [lia|]. unfold array_get. split.
    + intros Hlt.
      destruct (lookup_lt_is_Some_2 (RawSample.frames s) idx) as [a Ha]; [lia|].
      destruct (lookup_lt_is_Some_2 (RawSample.lines s) idx) as [b Hb]; [lia|].
      exists a, b. rewrite Ha, Hb. done.
    + intros Hge.
      rewrite (proj2 (lookup_ge_None (RawSample.frames s) idx)) by lia. done.
Qed.

(** On a capture of two frames: [frame(1)] is the leaf, [frame(2)]
    throws, [frame(-1)] returns what slot 2 holds, and [frame(-2047)]
    reads slot 2048. *)
Lemma frame_in_and_out_of_range_witness :
  (∃ f, RawSample.frame (sample_of_stack [fa; fb]) 1 = Ok f ∧
        RawSample.stack (sample_of_stack [fa; fb]) !! Z.to_nat 1 = Some f) ∧
  (RawSample.frame (sample_of_stack [fa; fb]) 2 = Err (Thrown "out of range") ∧
   RawSample.stack (sample_of_stack [fa; fb]) !! Z.to_nat 2 = None) ∧
  (∃ f l, RawSample.frames (sample_of_stack [fa; fb]) !! 2 = Some f ∧
          RawSample.lines (sample_of_stack [fa; fb]) !! 2 = Some l ∧
          RawSample.frame (sample_of_stack [fa; fb]) (-1) = Ok (Frame.mk f l)) ∧
  RawSample.frame (sample_of_stack [fa; fb]) (-2047) = Err Undefined.
Proof.
  assert (Hs : RawSample.wf (sample_of_stack [fa; fb])) by sample_wf.
  split; [|split; [|split]].
  - apply (frame_in_and_out_of_range (sample_of_stack [fa; fb]) 1 Hs).
    simpl. lia.
  - apply (frame_in_and_out_of_range (sample_of_stack [fa; fb]) 2 Hs).
    simpl. lia.
  - apply (frame_in_and_out_of_range (sample_of_stack [fa; fb]) (-1) Hs).
    + lia.
    + apply Nat.ltb_lt. vm_compute. reflexivity.
  - apply (frame_in_and_out_of_range (sample_of_stack [fa; fb]) (-2047) Hs).
    + lia.
    + apply Nat.leb_le. vm_compute. reflexivity.
Defined.

(** ** Interning stacks: what the tree keeps *)

Lemma next_stack_node_length fl p f fl' q :
  next_stack_node fl p f = Ok (fl', q) →
  length (stack_node_list fl) ≤ length (stack_node_list fl')
    ≤ length (stack_node_list fl) + 1.
Proof.
  unfold next_stack_node. destruct (deref fl p) as [n|] eqn:Hn; [|done].
  bind_step. destruct (children n !! f).
  - destruct (elem fl _); [|done]. intros [= <- _]. lia.
  - destruct (elem _ _); [|done]. intros [= <- _]. simpl.
    rewrite length_app. destruct p; simpl; rewrite ?length_insert; lia.
Qed.

Lemma walk_length fs : ∀ fl p fl' q,
  walk fl p fs = Ok (fl', q) →
  length (stack_node_list fl) ≤ length (stack_node_list fl')
    ≤ length (stack_node_list fl) + length fs.
Proof.
  induction fs as [|f fs IH]; intros fl p fl' q; simpl.
  - intros [= <- _]. lia.
  - destruct (next_stack_node fl p f) as [[fl1 p1]|] eqn:Hstep; [|done].
    bind_step. intros Hwalk.
    apply next_stack_node_length in Hstep. apply IH in Hwalk. lia.
Qed.

(** The path of a node does not change when the tree grows. *)
Lemma path_ext fl fl' :
  wf fl → wf fl' → ext fl fl' →
  ∀ i, i < length (stack_node_list fl) →
       path fl' (Z.of_nat i) = path fl (Z.of_nat i).
Proof.
  intros Hwf Hwf' Hext i. induction (lt_wf i) as [i _ IH]. intros Hi.
  destruct (lookup_lt_is_Some_2 _ _ Hi) as [n Hn].
  destruct (Hext (elem_ptr i) n Hn) as (n' & Hn' & Hfr & Hpar & _ & _).
  simpl in Hn'. rewrite (path_elem _ Hwf _ _ Hn), (path_elem _ Hwf' _ _ Hn').
  rewrite Hfr, Hpar. f_equal.
  pose proof (wf_parent _ Hwf _ _ Hn) as Hp.
  destruct (decide (parent n = (-1)%Z)) as [->|Hne].
  - by rewrite !path_root.
  - rewrite <- (Z2Nat.id (parent n)) by lia. apply IH; lia.
Qed.

(** A node is at least as deep in the list as it is in the tree. *)
Lemma path_length fl :
  wf fl →
  ∀ i, i < length (stack_node_list fl) →
       length (path fl (Z.of_nat i)) ≤ S i.
Proof.
  intros Hwf i. induction (lt_wf i) as [i _ IH]. intros Hi.
  destruct (lookup_lt_is_Some_2 _ _ Hi) as [n Hn].
  rewrite (path_elem _ Hwf _ _ Hn), length_app. simpl.
  pose proof (wf_parent _ Hwf _ _ Hn) as Hp.
  destruct (decide (parent n = (-1)%Z)) as [->|Hne].
  - rewrite path_root. simpl. lia.
  - rewrite <- (Z2Nat.id (parent n)) by lia.
    assert (Z.to_nat (parent n) < i) as Hlt by lia.
    specialize (IH _ Hlt). lia.
Qed.

(** What [stack_index] returns for a non-empty stack, in full. *)
Lemma stack_index_post fl s :
  wf fl → RawSample.wf s → RawSample.len s ≠ 0 →
  ∃ fl' i,
    stack_index fl s = Ok (fl', Z.of_nat i) ∧ wf fl' ∧ ext fl fl' ∧
    find fl' root_ptr (RawSample.stack s) = Some (elem_ptr i) ∧
    i < length (stack_node_list fl') ∧
    path fl' (Z.of_nat i) = RawSample.stack s ∧
    length (stack_node_list fl) ≤ length (stack_node_list fl')
      ≤ length (stack_node_list fl) + RawSample.len s.
Proof.
  intros Hwf Hs Hne.
  destruct (stack_index_ok s Hs fl Hwf Hne)
    as (fl' & q & Hidx & Hwalk & Hwf' & Hext & Hfind).
  assert (RawSample.stack s ≠ []) as Hnil.
  { intros Hnil. apply (f_equal length) in Hnil.
    rewrite stack_length in Hnil by done. simpl in Hnil. lia. }
  assert (is_Some (node_of fl' root_ptr)) as Hroot by (simpl; eauto).
  pose proof (find_elem _ Hwf' _ _ _ Hfind Hnil Hroot) as Helem.
  unfold elem in Helem. case_decide as Hrange; [|done]. clear Helem.
  destruct q as [|i]; simpl in Hrange; [lia|]. simpl in Hidx.
  exists fl', i.
  split; [done|]. split; [done|]. split; [done|]. split; [done|].
  split; [lia|]. split.
  - change (Z.of_nat i) with (ptr_index (elem_ptr i)).
    rewrite (path_find _ Hwf' _ _ _ Hfind). simpl. by rewrite path_root.
  - apply walk_length in Hwalk. rewrite stack_length in Hwalk by done. done.
Qed.

(** X7. Interning a non-empty stack in a well-formed tree returns the
    index of a node of the tree whose root-to-node path, read through
    the [parent] links, is the stack.  The tree stays well formed, gains
    at most one node per frame, and no node that was there is renumbered
    or moved: every earlier index keeps its path.  Interning is
    idempotent: the same stack interned again gets the same index and
    leaves the tree exactly as it is. *)
Theorem stack_index_interns_stack :
  ∀ (fl : FrameList.t) (s : RawSample.t),
    wf fl → RawSample.wf s → RawSample.len s ≠ 0 →
    ∃ fl' r,
      FrameList.stack_index fl s = Ok (fl', r) ∧
      wf fl' ∧
      (0 ≤ r < Z.of_nat (length (stack_node_list fl')))%Z ∧
      FrameList.path fl' r = RawSample.stack s ∧
      length (stack_node_list fl) ≤ length (stack_node_list fl')
        ≤ length (stack_node_list fl) + RawSample.len s ∧
      (∀ idx, (0 ≤ idx < Z.of_nat (length (stack_node_list fl)))%Z →
              FrameList.path fl' idx = FrameList.path fl idx) ∧
      FrameList.stack_index fl' s = Ok (fl', r).
Proof.
  intros fl s Hwf Hs Hne.
  destruct (stack_index_post fl s Hwf Hs Hne)
    as (fl' & i & Hidx & Hwf' & Hext & Hfind & Hi & Hpath & Hlen).
  exists fl', (Z.of_nat i).
  split; [done|]. split; [done|]. split; [lia|]. split; [done|].
  split; [done|]. split.
  - intros idx Hrange. rewrite <- (Z2Nat.id idx) by lia.
    apply path_ext; [done..|lia].
  - rewrite stack_index_walk by done.
    rewrite (walk_found _ Hwf' _ _ _ Hfind). bind_step.
    destruct (lookup_lt_is_Some_2 _ _ Hi) as [n Hn].
    rewrite (proj2 (deref_node_of fl' (elem_ptr i) n) Hn). bind_step.
    by rewrite (wf_index _ Hwf' _ _ Hn).
Qed.

Lemma stack_index_interns_stack_witness :
  ∃ fl' r,
    FrameList.stack_index FrameList.new (sample_of_stack [fa; fb])
      = Ok (fl', r) ∧
    wf fl' ∧
    (0 ≤ r < Z.of_nat (length (stack_node_list fl')))%Z ∧
    FrameList.path fl' r = RawSample.stack (sample_of_stack [fa; fb]) ∧
    length (stack_node_list FrameList.new) ≤ length (stack_node_list fl')
      ≤ length (stack_node_list FrameList.new)
        + RawSample.len (sample_of_stack [fa; fb]) ∧
    (∀ idx, (0 ≤ idx < Z.of_nat (length (stack_node_list FrameList.new)))%Z →
            FrameList.path fl' idx = FrameList.path FrameList.new idx) ∧
    FrameList.stack_index fl' (sample_of_stack [fa; fb]) = Ok (fl', r).
Proof.
  apply (stack_index_interns_stack FrameList.new (sample_of_stack [fa; fb])).
  - apply wf_new.
  - sample_wf.
  - vm_compute; lia.
Defined.

(** X8. Two stacks interned one after the other get the same node index
    exactly when they are the same sequence of frames: a node index
    stands for one stack and no other. *)
Theorem stack_index_same_node_iff_same_stack :
  ∀ (fl : FrameList.t) (s1 s2 : RawSample.t),
    wf fl → RawSample.wf s1 → RawSample.wf s2 →
    RawSample.len s1 ≠ 0 → RawSample.len s2 ≠ 0 →
    ∃ fl1 r1 fl2 r2,
      FrameList.stack_index fl s1 = Ok (fl1, r1) ∧
      FrameList.stack_index fl1 s2 = Ok (fl2, r2) ∧
      (r1 = r2 ↔ RawSample.stack s1 = RawSample.stack s2).
Proof.
  intros fl s1 s2 Hwf Hs1 Hs2 Hne1 Hne2.
  destruct (stack_index_post fl s1 Hwf Hs1 Hne1)
    as (fl1 & i1 & Hidx1 & Hwf1 & Hext1 & Hfind1 & Hi1 & Hpath1 & _).
  destruct (stack_index_post fl1 s2 Hwf1 Hs2 Hne2)
    as (fl2 & i2 & Hidx2 & Hwf2 & Hext2 & Hfind2 & Hi2 & Hpath2 & _).
  exists fl1, (Z.of_nat i1), fl2, (Z.of_nat i2).
  split; [done|]. split; [done|]. split.
  - intros Heq. apply Nat2Z.inj in Heq. subst i2.
    rewrite <- Hpath1, <- Hpath2. symmetry. by apply path_ext.
  - intros Heq. f_equal.
    pose proof (find_ext _ _ _ _ _ Hext2 Hfind1) as Hfind1'.
    rewrite Heq in Hfind1'. congruence.
Qed.

Lemma stack_index_same_node_iff_same_stack_witness :
  ∃ fl1 r1 fl2 r2,
    FrameList.stack_index FrameList.new (sample_of_stack [fa; fb])
      = Ok (fl1, r1) ∧
    FrameList.stack_index fl1 (sample_of_stack [fa; fc]) = Ok (fl2, r2) ∧
    (r1 = r2 ↔ RawSample.stack (sample_of_stack [fa; fb])
               = RawSample.stack (sample_of_stack [fa; fc])).
Proof.
  apply (stack_index_same_node_iff_same_stack FrameList.new
           (sample_of_stack [fa; fb]) (sample_of_stack [fa; fc])).
  - apply wf_new.
  - sample_wf.
  - sample_wf.
  - vm_compute; lia.
  - vm_compute; lia.
Defined.

(** The tree of the examples is what interning the stack [fa; fb] in an
    empty tree gives. *)
Lemma wf_tree_ab : wf tree_ab.
Proof.
  destruct (stack_index_post FrameList.new (sample_of_stack [fa; fb]))
    as (fl' & i & Hidx & Hwf & _); [apply wf_new|sample_wf|vm_compute; lia|].
  assert (FrameList.stack_index FrameList.new (sample_of_stack [fa; fb])
          = Ok (tree_ab, 1%Z)) as Hab by (vm_compute; reflexivity).
  rewrite Hab in Hidx. by injection Hidx as <- _.
Qed.

Lemma wf_clear fl : wf fl → wf (FrameList.clear fl).
Proof.
  intros Hwf. split.
  - simpl. apply Hwf.
  - intros i n Hn. simpl in Hn. by rewrite lookup_nil in Hn.
  - intros i n Hn. simpl in Hn. by rewrite lookup_nil in Hn.
  - intros p n f c Hn Hc. destruct p as [|i]; simpl in Hn.
    + injection Hn as <-. simpl in Hc. by rewrite lookup_empty in Hc.
    + by rewrite lookup_nil in Hn.
Qed.

(** X9. [clear()] gives back an empty, well-formed tree in which
    numbering starts again: the first stack interned after it makes one
    node per frame and gets the index of the last of them, its length
    minus one. *)
Theorem clear_restarts_numbering :
  ∀ (fl : FrameList.t) (s : RawSample.t),
    wf fl → RawSample.wf s → RawSample.len s ≠ 0 →
    wf (FrameList.clear fl) ∧
    stack_node_list (FrameList.clear fl) = [] ∧
    ∃ fl',
      FrameList.stack_index (FrameList.clear fl) s
        = Ok (fl', (Z.of_nat (RawSample.len s) - 1)%Z) ∧
      length (stack_node_list fl') = RawSample.len s.
Proof.
  intros fl s Hwf Hs Hne.
  pose proof (wf_clear fl Hwf) as Hwfc.
  split; [done|]. split; [done|].
  destruct (stack_index_post _ s Hwfc Hs Hne)
    as (fl' & i & Hidx & Hwf' & _ & _ & Hi & Hpath & Hlen).
  simpl in Hlen.
  pose proof (path_length fl' Hwf' i Hi) as Hdepth.
  rewrite Hpath, stack_length in Hdepth by done.
  exists fl'. split; [|lia].
  rewrite Hidx. do 2 f_equal. lia.
Qed.

(** The tree of two nodes, [fa] under the root and [fb] under [fa],
    cleared; the stack interned next has three frames. *)
Lemma clear_restarts_numbering_witness :
  wf (FrameList.clear tree_ab) ∧
  stack_node_list (FrameList.clear tree_ab) = [] ∧
  ∃ fl',
    FrameList.stack_index (FrameList.clear tree_ab)
      (sample_of_stack [fb; fa; fc])
      = Ok (fl', (Z.of_nat (RawSample.len (sample_of_stack [fb; fa; fc]))
                  - 1)%Z) ∧
    length (stack_node_list fl')
      = RawSample.len (sample_of_stack [fb; fa; fc]).
Proof.
  apply (clear_restarts_numbering tree_ab (sample_of_stack [fb; fa; fc])).
  - apply wf_tree_ab.
  - sample_wf.
  - vm_compute; lia.
Defined.

(** ** The translator's cache after a call *)

Lemma take_agree {A} (l1 l2 : list A) k :
  (∀ j, j < k → l1 !! j = l2 !! j) → take k l1 = take k l2.
Proof.
  intros Hagree. apply list_eq. intros i. destruct (decide (i < k)).
  - rewrite !lookup_take_lt by done. by apply Hagree.
  - rewrite !lookup_take_ge by lia. done.
Qed.

(** [translate] in full: besides what [translate_ok] says, the frames
    of the sample are in the cache and the node returned is the one
    found from the root along the stack. *)
Lemma translate_post s fl tr :
  RawSample.wf s → wf fl → cache_ok fl tr →
  ∃ fl' tr' q,
    SampleTranslator.translate fl tr s = Ok (fl', tr', ptr_index q) ∧
    wf fl' ∧ ext fl fl' ∧ cache_ok fl' tr' ∧
    SampleTranslator.len tr' = RawSample.len s ∧
    SampleTranslator.last_stack_index tr' = ptr_index q ∧
    find fl' root_ptr (RawSample.stack s) = Some q ∧
    (∀ j, j < RawSample.len s →
          SampleTranslator.frames tr' !! j = RawSample.stack s !! j) ∧
    length (stack_node_list fl) ≤ length (stack_node_list fl')
      ≤ length (stack_node_list fl) + RawSample.len s.
Proof.
  intros Hs Hwf (Hlf & Hli & Hlen & Hcache).
  pose proof Hs as (_ & _ & Hmax). pose proof (stack_length s Hs) as Hslen.
  unfold SampleTranslator.translate, RawSample.size.
  destruct (prefix_loop_ok s Hs tr
              (min (SampleTranslator.len tr) (RawSample.len s)) 0)
    as (k & -> & Hk & Hagree); [lia|lia|]. bind_step.
  assert (Htake : ∀ j, j ≤ k →
            take j (SampleTranslator.frames tr) = take j (RawSample.stack s)).
  { intros j Hj. apply take_agree. intros i Hi. apply Hagree. lia. }
  assert (Hstart : ∃ p,
    (if decide (k = 0) then Ok root_ptr
     else idx ← array_get (SampleTranslator.frame_indexes tr) (k - 1);
          elem fl idx) = Ok p ∧
    find fl root_ptr (take k (RawSample.stack s)) = Some p ∧
    is_Some (node_of fl p)).
  { case_decide as Hk0.
    - subst k. exists root_ptr. simpl. eauto.
    - destruct (Hcache (k - 1)) as (q & Hq & Hidx); [lia|].
      replace (S (k - 1)) with k in Hq by lia. rewrite Htake in Hq by lia.
      exists q. rewrite (proj2 (array_get_Ok _ _ _) Hidx). bind_step.
      assert (Hne : take k (RawSample.stack s) ≠ []).
      { intros Hnil. apply (f_equal length) in Hnil.
        rewrite length_take in Hnil. simpl in Hnil. lia. }
      split; [eapply find_elem; eauto; simpl; eauto|].
      split; [done|]. eapply find_valid; eauto. simpl; eauto. }
  destruct Hstart as (p & -> & Hfindp & Hp). bind_step.
  destruct (walk_loop_ok s Hs (RawSample.len s - k) fl tr k p Hwf Hp)
    as (fl' & tr' & p' & Hloop & Hwalk & Hwf' & Hext & [nd Hnd] & Hlf' & Hli'
        & Hold & Hnew);
    [lia|done|done|].
  rewrite Hloop. bind_step. rewrite (proj2 (deref_node_of _ _ _) Hnd).
  bind_step.
  replace (k + (RawSample.len s - k)) with (RawSample.len s) in * by lia.
  rewrite (wf_node_index _ _ _ Hwf' Hnd).
  rewrite firstn_all2 in Hwalk by (rewrite length_drop; lia).
  assert (Hfr : ∀ j, j < RawSample.len s →
            SampleTranslator.frames tr' !! j = RawSample.stack s !! j).
  { intros j Hj. destruct (decide (j < k)).
    - destruct (Hold j) as [-> _]; [done|]. apply Hagree. lia.
    - apply Hnew. lia. }
  assert (Hfindq : find fl' root_ptr (RawSample.stack s) = Some p').
  { destruct (walk_ok (drop k (RawSample.stack s)) fl p Hwf Hp)
      as (fl2 & q2 & Hwalk2 & _ & _ & Hfind2 & _).
    rewrite Hwalk in Hwalk2. injection Hwalk2 as <- <-.
    rewrite <- (take_drop k (RawSample.stack s)), find_app.
    rewrite (find_ext _ _ _ _ _ Hext Hfindp). done. }
  exists fl', (SampleTranslator.mk (ptr_index p') (SampleTranslator.frames tr')
                 (SampleTranslator.frame_indexes tr') (RawSample.len s)), p'.
  split; [done|]. split; [done|]. split; [done|].
  split; [|split; [done|]; split; [done|]; split; [done|]; split; [done|]].
  - split; [done|]. split; [done|]. split; [done|]. simpl.
    intros j Hj.
    assert (Htj : take (S j) (SampleTranslator.frames tr')
                  = take (S j) (RawSample.stack s)).
    { apply take_agree. intros i Hi. apply Hfr. lia. }
    rewrite Htj.
    destruct (decide (j < k)).
    + destruct (Hold j) as [_ ->]; [done|].
      destruct (Hcache j) as (q & Hq & Hidx); [lia|].
      exists q. split; [|done]. rewrite Htake in Hq by lia. by eapply find_ext.
    + destruct (Hnew j) as (_ & q & Hq & Hidx); [lia|].
      exists q. split; [|done].
      replace (take (S j) (RawSample.stack s))
        with (take k (RawSample.stack s)
              ++ take (S j - k) (drop k (RawSample.stack s))).
      * rewrite find_app, (find_ext _ _ _ _ _ Hext Hfindp). done.
      * rewrite <- (take_drop k (RawSample.stack s)) at 3.
        rewrite take_app, length_take.
        replace (S j - k `min` length (RawSample.stack s)) with (S j - k)
          by lia.
        rewrite take_take. f_equal. f_equal. lia.
  - apply walk_length in Hwalk. rewrite length_drop in Hwalk. lia.
Qed.

(** X10. After [translate] the translator holds the sample: its length,
    the sample's frames in the first [len] slots of [frames], and in
    slot [j] of [frame_indexes] the node whose path is the first [j + 1]
    frames.  The index returned is [last_stack_index], its path is the
    whole stack, and the paths of the nodes that were there before are
    unchanged. *)
Theorem translate_leaves_sample_in_cache :
  ∀ (fl : FrameList.t) (tr : SampleTranslator.t) (s : RawSample.t),
    wf fl → cache_ok fl tr → RawSample.wf s →
    ∃ fl' tr' r,
      SampleTranslator.translate fl tr s = Ok (fl', tr', r) ∧
      wf fl' ∧ cache_ok fl' tr' ∧
      SampleTranslator.len tr' = RawSample.len s ∧
      SampleTranslator.last_stack_index tr' = r ∧
      FrameList.path fl' r = RawSample.stack s ∧
      take (RawSample.len s) (SampleTranslator.frames tr') = RawSample.stack s ∧
      (∀ j, j < RawSample.len s →
         ∃ idx, SampleTranslator.frame_indexes tr' !! j = Some idx ∧
                FrameList.path fl' idx = take (S j) (RawSample.stack s)) ∧
      length (stack_node_list fl) ≤ length (stack_node_list fl')
        ≤ length (stack_node_list fl) + RawSample.len s ∧
      ∀ idx, (0 ≤ idx < Z.of_nat (length (stack_node_list fl)))%Z →
             FrameList.path fl' idx = FrameList.path fl idx.
Proof.
  intros fl tr s Hwf Hc Hs.
  destruct (translate_post s fl tr Hs Hwf Hc)
    as (fl' & tr' & q & Htr & Hwf' & Hext & Hc' & Hlen & Hlast & Hfind & Hfr
        & Hgrow).
  pose proof (stack_length s Hs) as Hslen.
  exists fl', tr', (ptr_index q).
  split; [done|]. split; [done|]. split; [done|]. split; [done|].
  split; [done|]. split.
  { rewrite (path_find _ Hwf' _ _ _ Hfind). simpl. by rewrite path_root. }
  split.
  { rewrite (take_agree _ (RawSample.stack s)) by done.
    apply take_ge. lia. }
  split.
  { intros j Hj. destruct Hc' as (_ & _ & _ & Hcache).
    destruct (Hcache j) as (qj & Hqj & Hidx); [lia|].
    exists (ptr_index qj). split; [done|].
    rewrite (take_agree _ (RawSample.stack s)) in Hqj
      by (intros i Hi; apply Hfr; lia).
    rewrite (path_find _ Hwf' _ _ _ Hqj). simpl. by rewrite path_root. }
  split; [done|].
  intros idx Hrange. rewrite <- (Z2Nat.id idx) by lia.
  apply path_ext; [done..|lia].
Qed.

Lemma translate_leaves_sample_in_cache_witness :
  ∃ fl' tr' r,
    SampleTranslator.translate FrameList.new (SampleTranslator.new (λ _, 0%Z))
      (sample_of_stack [fa; fb]) = Ok (fl', tr', r) ∧
    wf fl' ∧ cache_ok fl' tr' ∧
    SampleTranslator.len tr' = RawSample.len (sample_of_stack [fa; fb]) ∧
    SampleTranslator.last_stack_index tr' = r ∧
    FrameList.path fl' r = RawSample.stack (sample_of_stack [fa; fb]) ∧
    take (RawSample.len (sample_of_stack [fa; fb]))
      (SampleTranslator.frames tr')
      = RawSample.stack (sample_of_stack [fa; fb]) ∧
    (∀ j, j < RawSample.len (sample_of_stack [fa; fb]) →
       ∃ idx, SampleTranslator.frame_indexes tr' !! j = Some idx ∧
              FrameList.path fl' idx
              = take (S j) (RawSample.stack (sample_of_stack [fa; fb]))) ∧
    length (stack_node_list FrameList.new) ≤ length (stack_node_list fl')
      ≤ length (stack_node_list FrameList.new)
        + RawSample.len (sample_of_stack [fa; fb]) ∧
    ∀ idx, (0 ≤ idx < Z.of_nat (length (stack_node_list FrameList.new)))%Z →
           FrameList.path fl' idx = FrameList.path FrameList.new idx.
Proof.
  apply (translate_leaves_sample_in_cache FrameList.new
           (SampleTranslator.new (λ _, 0%Z)) (sample_of_stack [fa; fb])).
  - apply wf_new.
  - apply cache_ok_new.
  - sample_wf.
Defined.

Lemma prefix_loop_full s tr m : ∀ i,
  RawSample.wf s → i + m ≤ RawSample.len s →
  (∀ j, i ≤ j < i + m →
        SampleTranslator.frames tr !! j = RawSample.stack s !! j) →
  SampleTranslator.prefix_loop m tr s i = Ok (i + m).
Proof.
  induction m as [|m IH]; intros i Hs Hlen Hagree; simpl.
  - f_equal. lia.
  - destruct (frame_stack s Hs i) as (x & Hfx & Hsx); [lia|].
    rewrite (proj2 (array_get_Ok (SampleTranslator.frames tr) i x))
      by (rewrite Hagree by lia; done).
    bind_step. rewrite Hfx. bind_step.
    rewrite decide_False by (intros Hne; by apply Hne).
    rewrite IH; [f_equal; lia|done|lia|]. intros j Hj. apply Hagree. lia.
Qed.

(** X11. Translating the sample a translator has just translated is a
    fixed point: the second call returns the same index and leaves the
    tree and the translator exactly as the first call left them. *)
Theorem translate_same_sample_again :
  ∀ (fl : FrameList.t) (tr : SampleTranslator.t) (s : RawSample.t),
    wf fl → cache_ok fl tr → RawSample.wf s →
    ∃ fl' tr' r,
      SampleTranslator.translate fl tr s = Ok (fl', tr', r) ∧
      SampleTranslator.translate fl' tr' s = Ok (fl', tr', r).
Proof.
  intros fl tr s Hwf Hc Hs.
  destruct (translate_post s fl tr Hs Hwf Hc)
    as (fl' & tr' & q & Htr & Hwf' & Hext & Hc' & Hlen & Hlast & Hfind & Hfr
        & _).
  pose proof (stack_length s Hs) as Hslen.
  exists fl', tr', (ptr_index q). split; [done|].
  assert (is_Some (node_of fl' q)) as [nd Hnd].
  { eapply find_valid; eauto. simpl; eauto. }
  unfold SampleTranslator.translate, RawSample.size.
  rewrite Hlen, Nat.min_id.
  rewrite (prefix_loop_full s tr' (RawSample.len s) 0 Hs);
    [|lia|intros j Hj; apply Hfr; lia].
  bind_step. simpl (0 + RawSample.len s).
  assert ((if decide (RawSample.len s = 0) then Ok root_ptr
           else idx ← array_get (SampleTranslator.frame_indexes tr')
                        (RawSample.len s - 1);
                elem fl' idx) = Ok q) as ->.
  { case_decide as Hz.
    - destruct (RawSample.stack s) eqn:Hst; [|simpl in Hslen; lia].
      simpl in Hfind. congruence.
    - destruct Hc' as (_ & _ & _ & Hcache).
      destruct (Hcache (RawSample.len s - 1)) as (q' & Hq' & Hidx);
        [lia|].
      replace (S (RawSample.len s - 1)) with (RawSample.len s) in Hq' by lia.
      rewrite (take_agree _ (RawSample.stack s)) in Hq' by done.
      rewrite take_ge in Hq' by lia.
      assert (q' = q) as -> by congruence.
      rewrite (proj2 (array_get_Ok _ _ _) Hidx). bind_step.
      apply (find_elem _ Hwf' root_ptr (RawSample.stack s) q Hfind);
        [|simpl; eauto].
      intros Hnil. rewrite Hnil in Hslen. simpl in Hslen. lia. }
  bind_step. rewrite Nat.sub_diag. simpl SampleTranslator.walk_loop.
  bind_step. rewrite (proj2 (deref_node_of _ _ _) Hnd). bind_step.
  rewrite (wf_node_index _ _ _ Hwf' Hnd).
  destruct tr' as [last frs idxs n]. simpl in *. by subst.
Qed.

Lemma translate_same_sample_again_witness :
  ∃ fl' tr' r,
    SampleTranslator.translate FrameList.new (SampleTranslator.new (λ _, 0%Z))
      (sample_of_stack [fa; fb]) = Ok (fl', tr', r) ∧
    SampleTranslator.translate fl' tr' (sample_of_stack [fa; fb])
      = Ok (fl', tr', r).
Proof.
  apply (translate_same_sample_again FrameList.new
           (SampleTranslator.new (λ _, 0%Z)) (sample_of_stack [fa; fb])).
  - apply wf_new.
  - apply cache_ok_new.
  - sample_wf.
Defined.

Lemma translate_stale fl tr s :
  RawSample.wf s →
  stack_node_list fl = [] →
  length (SampleTranslator.frames tr) = RawSample.MAX_LEN →
  length (SampleTranslator.frame_indexes tr) = RawSample.MAX_LEN →
  0 < SampleTranslator.len tr → 0 < RawSample.len s →
  SampleTranslator.frames tr !! 0 = RawSample.stack s !! 0 →
  SampleTranslator.translate fl tr s = Err Undefined.
Proof.
  intros Hs Hnil Hlf Hli Hlen Hslen H0.
  pose proof Hs as (_ & _ & Hmax).
  unfold SampleTranslator.translate, RawSample.size.
  destruct (min (SampleTranslator.len tr) (RawSample.len s)) as [|m] eqn:Hmin;
    [lia|].
  simpl SampleTranslator.prefix_loop.
  destruct (frame_stack s Hs 0) as (x & Hfx & Hsx); [lia|].
  rewrite (proj2 (array_get_Ok (SampleTranslator.frames tr) 0 x))
    by (by rewrite H0).
  bind_step. rewrite Hfx. bind_step.
  rewrite decide_False by (intros Hne; by apply Hne).
  destruct (prefix_loop_ok s Hs tr m 1) as (k & -> & Hk & _); [lia|lia|].
  bind_step. rewrite decide_False by lia.
  destruct (lookup_lt_is_Some_2 (SampleTranslator.frame_indexes tr) (k - 1))
    as [idx Hidx]; [lia|].
  rewrite (proj2 (array_get_Ok _ _ _) Hidx). bind_step.
  unfold elem. rewrite Hnil. simpl length.
  rewrite decide_False by lia. done.
Qed.

(** X12. [stop()] of the wall-clock collector empties the tree but
    keeps the thread records and their translators ([TimeCollector] has
    no [reset] of its own).  A translator with a cached prefix that begins
    like the next sample then indexes the emptied node vector: on the
    collector as [stop()] leaves it, [translate] and the sampler's
    [record_sample] run into undefined behaviour. *)
Theorem stopped_wall_collector_keeps_stale_caches :
  ∀ (c : TimeCollector.t) (i : nat) (thread : Thread.t) (s : RawSample.t)
    (time : TimeStamp.t) (category : Category),
    BaseCollector.running (TimeCollector.base c) = true →
    ThreadTable.list (TimeCollector.threads c) !! i = Some thread →
    length (SampleTranslator.frames (Thread.translator thread))
      = RawSample.MAX_LEN →
    length (SampleTranslator.frame_indexes (Thread.translator thread))
      = RawSample.MAX_LEN →
    0 < SampleTranslator.len (Thread.translator thread) →
    RawSample.wf s → 0 < RawSample.len s →
    SampleTranslator.frames (Thread.translator thread) !! 0
      = RawSample.stack s !! 0 →
    ∃ c' result,
      TimeCollector.stop c = (c', Ok result) ∧
      stack_node_list (BaseCollector.frame_list (TimeCollector.base c')) = [] ∧
      ThreadTable.list (TimeCollector.threads c') !! i = Some thread ∧
      SampleTranslator.translate
        (BaseCollector.frame_list (TimeCollector.base c'))
        (Thread.translator thread) s = Err Undefined ∧
      TimeCollector.record_sample
        (BaseCollector.frame_list (TimeCollector.base c')) s time thread
        category = Err Undefined.
Proof.
  intros c i thread s time category Hrun Hth Hlf Hli Hlen Hs Hslen H0.
  eexists _, _. split.
  { unfold TimeCollector.stop, BaseCollector.stop. rewrite Hrun.
    cbn [negb]. reflexivity. }
  cbn [TimeCollector.base TimeCollector.threads BaseCollector.frame_list
       BaseCollector.reset].
  split; [done|]. split; [done|].
  assert (SampleTranslator.translate
            (FrameList.clear (BaseCollector.frame_list (TimeCollector.base c)))
            (Thread.translator thread) s = Err Undefined) as Htr
    by (by apply translate_stale).
  split; [done|].
  unfold TimeCollector.record_sample, RawSample.empty.
  rewrite bool_decide_eq_false_2 by lia. simpl negb. cbv iota.
  by rewrite Htr.
Qed.

Lemma stopped_wall_collector_keeps_stale_caches_witness :
  ∃ thread,
    ThreadTable.list (TimeCollector.threads wall_sampled) !! 0 = Some thread ∧
    ∃ c' result,
      TimeCollector.stop wall_sampled = (c', Ok result) ∧
      stack_node_list (BaseCollector.frame_list (TimeCollector.base c')) = [] ∧
      ThreadTable.list (TimeCollector.threads c') !! 0 = Some thread ∧
      SampleTranslator.translate
        (BaseCollector.frame_list (TimeCollector.base c'))
        (Thread.translator thread) (sample_of_stack [fb; fc]) = Err Undefined ∧
      TimeCollector.record_sample
        (BaseCollector.frame_list (TimeCollector.base c'))
        (sample_of_stack [fb; fc]) 2000%Z thread CATEGORY_NORMAL
        = Err Undefined.
Proof.
  eexists. split; [vm_compute; reflexivity|].
  eapply (stopped_wall_collector_keeps_stale_caches wall_sampled 0 _
            (sample_of_stack [fb; fc]) 2000%Z CATEGORY_NORMAL).
  - vm_compute; reflexivity.
  - vm_compute; reflexivity.
  - vm_compute; reflexivity.
  - vm_compute; reflexivity.
  - apply Nat.ltb_lt; vm_compute; reflexivity.
  - sample_wf.
  - apply Nat.ltb_lt; vm_compute; reflexivity.
  - vm_compute; reflexivity.
Defined.

(** ** The frame and string tables *)

Lemma interned_empty `{Countable K} : interned (∅ : gmap K Z) [].
Proof.
  intros k i. rewrite lookup_empty, lookup_nil. split; [done|by intros [_ ?]].
Qed.

Lemma interned_insert `{Countable K} (m : gmap K Z) (l : list K) k :
  interned m l → m !! k = None →
  interned (<[k := Z.of_nat (length l)]> m) (l ++ [k]).
Proof.
  intros Hok Hk k' i. destruct (decide (k' = k)) as [->|Hne].
  - rewrite lookup_insert_eq. split.
    + intros [= <-]. split; [lia|].
      rewrite Nat2Z.id. by rewrite lookup_app_r, Nat.sub_diag.
    + intros [Hi Hl]. f_equal.
      destruct (decide (Z.to_nat i < length l)) as [Hlt|Hge].
      * rewrite lookup_app_l in Hl by done.
        assert (m !! k = Some i) as Hm by (apply Hok; done). congruence.
      * apply lookup_lt_Some in Hl. rewrite length_app in Hl. simpl in Hl.
        lia.
  - rewrite lookup_insert_ne by done. rewrite (Hok k' i). split.
    + intros [Hi Hl]. split; [done|].
      rewrite lookup_app_l by (by eapply lookup_lt_Some). done.
    + intros [Hi Hl]. split; [done|].
      destruct (decide (Z.to_nat i < length l)) as [Hlt|Hge].
      * by rewrite lookup_app_l in Hl.
      * rewrite lookup_app_r in Hl by lia.
        destruct (Z.to_nat i - length l) as [|?]; simpl in Hl; [|done].
        congruence.
Qed.

Lemma interned_NoDup `{Countable K} (m : gmap K Z) (l : list K) :
  interned m l → NoDup l.
Proof.
  intros Hok. apply NoDup_alt. intros i j k Hi Hj.
  assert (m !! k = Some (Z.of_nat i)) as Hmi
    by (apply Hok; rewrite Nat2Z.id; split; [lia|done]).
  assert (m !! k = Some (Z.of_nat j)) as Hmj
    by (apply Hok; rewrite Nat2Z.id; split; [lia|done]).
  rewrite Hmi in Hmj. injection Hmj as Heq. lia.
Qed.

Lemma frame_index_known tb f i :
  tables_ok tb → FrameList.frame_list tb !! i = Some f →
  FrameList.frame_index tb f = (tb, Z.of_nat i).
Proof.
  intros [_ Hok] Hi. unfold FrameList.frame_index.
  assert (FrameList.frame_to_idx tb !! f = Some (Z.of_nat i)) as ->
    by (apply Hok; rewrite Nat2Z.id; split; [lia|done]).
  done.
Qed.

(** One call of [frame_index]. *)
Lemma frame_index_post tb f :
  tables_ok tb →
  ∃ i,
    (FrameList.frame_index tb f).2 = Z.of_nat i ∧
    tables_ok (FrameList.frame_index tb f).1 ∧
    FrameList.frame_list (FrameList.frame_index tb f).1 !! i = Some f ∧
    (FrameList.frame_list (FrameList.frame_index tb f).1
       = FrameList.frame_list tb ∨
     FrameList.frame_list (FrameList.frame_index tb f).1
       = FrameList.frame_list tb ++ [f]) ∧
    FrameList.frame_with_info_list (FrameList.frame_index tb f).1
      = FrameList.frame_with_info_list tb.
Proof.
  intros [Hstr Hok]. unfold FrameList.frame_index.
  destruct (FrameList.frame_to_idx tb !! f) as [idx|] eqn:Hf; simpl.
  - apply Hok in Hf as [Hidx Hl]. exists (Z.to_nat idx).
    rewrite Z2Nat.id by done. split; [done|]. split; [by split|].
    split; [done|]. split; [by left|done].
  - exists (length (FrameList.frame_list tb)).
    split; [done|]. split; [split; [done|by apply interned_insert]|].
    split; [by rewrite lookup_app_r, Nat.sub_diag|]. split; [by right|done].
Qed.

(** One call of [string_index]. *)
Lemma string_index_post tb str :
  tables_ok tb →
  ∃ i,
    (FrameList.string_index tb str).2 = Z.of_nat i ∧
    tables_ok (FrameList.string_index tb str).1 ∧
    FrameList.string_list (FrameList.string_index tb str).1 !! i = Some str ∧
    FrameList.string_list tb
      `prefix_of` FrameList.string_list (FrameList.string_index tb str).1.
Proof.
  intros [Hok Hfr]. unfold FrameList.string_index.
  destruct (FrameList.string_to_idx tb !! str) as [idx|] eqn:Hs; simpl.
  - apply Hok in Hs as [Hidx Hl]. exists (Z.to_nat idx).
    rewrite Z2Nat.id by done. split; [done|]. split; [by split|].
    split; [done|done].
  - exists (length (FrameList.string_list tb)).
    split; [done|]. split; [split; [by apply interned_insert|done]|].
    split; [by rewrite lookup_app_r, Nat.sub_diag|by apply prefix_app_r].
Qed.

Lemma string_index_known tb str i :
  tables_ok tb → FrameList.string_list tb !! i = Some str →
  FrameList.string_index tb str = (tb, Z.of_nat i).
Proof.
  intros [Hok _] Hi. unfold FrameList.string_index.
  assert (FrameList.string_to_idx tb !! str = Some (Z.of_nat i)) as ->
    by (apply Hok; rewrite Nat2Z.id; split; [lia|done]).
  done.
Qed.

(** X13. [frame_index] interns: on tables whose map and vector agree it
    returns a slot of [frame_list] that holds the frame, keeps the map
    and the vector in agreement and the vector free of duplicates, only
    ever appends, answers the same for the same frame from then on,
    keeps the index of every frame interned before, and gives no other
    frame that index.  [string_index] does the same for strings. *)
Theorem frame_index_interns :
  ∀ (tb : FrameList.tables) (f : Frame.t),
    tables_ok tb →
    ∃ tb' i,
      FrameList.frame_index tb f = (tb', Z.of_nat i) ∧
      tables_ok tb' ∧
      FrameList.frame_list tb' !! i = Some f ∧
      NoDup (FrameList.frame_list tb') ∧
      FrameList.frame_list tb `prefix_of` FrameList.frame_list tb' ∧
      FrameList.frame_index tb' f = (tb', Z.of_nat i) ∧
      (∀ g j, FrameList.frame_list tb !! j = Some g →
              FrameList.frame_index tb' g = (tb', Z.of_nat j)) ∧
      (∀ g, g ≠ f → (FrameList.frame_index tb' g).2 ≠ Z.of_nat i) ∧
      ∀ str, ∃ tb'' j,
        FrameList.string_index tb str = (tb'', Z.of_nat j) ∧
        tables_ok tb'' ∧
        FrameList.string_list tb'' !! j = Some str ∧
        FrameList.string_list tb `prefix_of` FrameList.string_list tb'' ∧
        FrameList.string_index tb'' str = (tb'', Z.of_nat j).
Proof.
  intros tb f Hok.
  destruct (frame_index_post tb f Hok) as (i & Hi & Hok' & Hl & Hgrow & _).
  exists (FrameList.frame_index tb f).1, i.
  assert (FrameList.frame_list tb
            `prefix_of` FrameList.frame_list (FrameList.frame_index tb f).1)
    as Hpre.
  { destruct Hgrow as [->| ->]; [done|by apply prefix_app_r]. }
  split; [rewrite <- Hi; by destruct (FrameList.frame_index tb f)|].
  split; [done|]. split; [done|].
  split; [by eapply interned_NoDup, Hok'|]. split; [done|].
  split; [by apply frame_index_known|]. split; [|split].
  - intros g j Hj. apply frame_index_known; [done|].
    by eapply prefix_lookup_Some.
  - intros g Hne Heq.
    destruct (frame_index_post _ g Hok') as (j & Hj & _ & Hlj & Hgrow' & _).
    rewrite Hj in Heq. apply Nat2Z.inj in Heq. subst j.
    assert (FrameList.frame_list
              (FrameList.frame_index (FrameList.frame_index tb f).1 g).1
              !! i = Some f) as Hf.
    { destruct Hgrow' as [->| ->]; [done|].
      rewrite lookup_app_l; [done|by eapply lookup_lt_Some]. }
    congruence.
  - intros str.
    destruct (string_index_post tb str Hok) as (j & Hj & Hok'' & Hl' & Hpre').
    exists (FrameList.string_index tb str).1, j.
    split; [rewrite <- Hj; by destruct (FrameList.string_index tb str)|].
    split; [done|]. split; [done|]. split; [done|].
    by apply string_index_known.
Qed.

Lemma frame_index_interns_witness :
  ∃ tb' i,
    FrameList.frame_index FrameList.tables_new fa = (tb', Z.of_nat i) ∧
    tables_ok tb' ∧
    FrameList.frame_list tb' !! i = Some fa ∧
    NoDup (FrameList.frame_list tb') ∧
    FrameList.frame_list FrameList.tables_new
      `prefix_of` FrameList.frame_list tb' ∧
    FrameList.frame_index tb' fa = (tb', Z.of_nat i) ∧
    (∀ g j, FrameList.frame_list FrameList.tables_new !! j = Some g →
            FrameList.frame_index tb' g = (tb', Z.of_nat j)) ∧
    (∀ g, g ≠ fa → (FrameList.frame_index tb' g).2 ≠ Z.of_nat i) ∧
    ∀ str, ∃ tb'' j,
      FrameList.string_index FrameList.tables_new str
        = (tb'', Z.of_nat j) ∧
      tables_ok tb'' ∧
      FrameList.string_list tb'' !! j = Some str ∧
      FrameList.string_list FrameList.tables_new
        `prefix_of` FrameList.string_list tb'' ∧
      FrameList.string_index tb'' str = (tb'', Z.of_nat j).
Proof.
  apply (frame_index_interns FrameList.tables_new fa).
  split; apply interned_empty.
Defined.

(** The first loop of [finalize]. *)
Lemma finalize_loop nodes : ∀ tb,
  tables_ok tb →
  let tb' := foldl (λ tb n, (FrameList.frame_index tb (frame n)).1) tb nodes in
  tables_ok tb' ∧
  FrameList.frame_list tb `prefix_of` FrameList.frame_list tb' ∧
  FrameList.frame_with_info_list tb' = FrameList.frame_with_info_list tb ∧
  (∀ n, n ∈ nodes → frame n ∈ FrameList.frame_list tb') ∧
  (∀ f, f ∈ FrameList.frame_list tb' →
        f ∈ FrameList.frame_list tb ∨ ∃ n, n ∈ nodes ∧ frame n = f).
Proof.
  induction nodes as [|n nodes IH]; intros tb Hok; simpl.
  - split; [done|]. split; [done|]. split; [done|].
    split; [by intros n ?%elem_of_nil|by left].
  - destruct (frame_index_post tb (frame n) Hok)
      as (i & _ & Hok1 & Hl & Hgrow & Hinfo).
    destruct (IH _ Hok1) as (Hok' & Hpre & Hinfo' & Hin & Hfrom).
    assert (FrameList.frame_list tb `prefix_of`
              FrameList.frame_list (FrameList.frame_index tb (frame n)).1)
      as Hpre1.
    { destruct Hgrow as [->| ->]; [done|by apply prefix_app_r]. }
    split; [done|]. split; [by etrans|]. split; [congruence|]. split.
    + intros m [->|Hm]%elem_of_cons; [|by apply Hin].
      eapply list_elem_of_lookup_2, prefix_lookup_Some; eauto.
    + intros f Hf. destruct (Hfrom f Hf) as [Hf1|(m & Hm & <-)].
      * destruct Hgrow as [Heq|Heq]; rewrite Heq in Hf1.
        { by left. }
        apply elem_of_app in Hf1 as [?|Hs]; [by left|].
        apply list_elem_of_singleton in Hs as ->.
        right. exists n. split; [left|done].
      * right. exists m. split; [by right|done].
Qed.

(** The first loop of [write_result] on tables that hold the frame of
    every node. *)
Lemma write_stack_table_known tb nodes :
  tables_ok tb →
  (∀ n, n ∈ nodes → frame n ∈ FrameList.frame_list tb) →
  FrameList.write_stack_table tb nodes
  = (tb,
     (λ n, if decide (parent n = (-1)%Z) then None else Some (parent n))
       <$> nodes,
     (λ n, (FrameList.frame_index tb (frame n)).2) <$> nodes).
Proof.
  intros Hok Hin. unfold FrameList.write_stack_table.
  match goal with
  | |- foldl ?step _ _ = _ =>
      assert (∀ parents frames,
        foldl step (tb, parents, frames) nodes
        = (tb,
           parents ++ ((λ n, if decide (parent n = (-1)%Z) then None
                             else Some (parent n)) <$> nodes),
           frames ++ ((λ n, (FrameList.frame_index tb (frame n)).2)
                        <$> nodes))) as Hgen
  end.
  { induction nodes as [|n nodes IH]; intros parents frames; simpl.
    - by rewrite !app_nil_r.
    - destruct (list_elem_of_lookup_1 _ _ (Hin n ltac:(left))) as [i Hi].
      rewrite (frame_index_known tb (frame n) i Hok Hi).
      rewrite IH by (intros m Hm; apply Hin; by right).
      simpl. by rewrite <- !app_assoc. }
  by rewrite Hgen.
Qed.

(** X14. [write_result] after [finalize], on tables that were empty of
    frame infos: the exported stack table has one row per node, with
    [nil] as the parent of a top-level node, and every node resolves
    through its [frame] column to a row of the frame and function tables
    that holds the line, label, file and first line of the node's own
    frame.  [write_result] interns nothing new. *)
Theorem finalize_then_write_result :
  ∀ (h : FrameInfo.host) (fl : FrameList.t) (tb : FrameList.tables),
    tables_ok tb → FrameList.frame_with_info_list tb = [] →
    ∃ r,
      FrameList.write_result fl (FrameList.finalize h fl tb)
        = (FrameList.finalize h fl tb, r) ∧
      tables_ok (FrameList.finalize h fl tb) ∧
      length (FrameList.stack_table_parent r) = length (stack_node_list fl) ∧
      length (FrameList.stack_table_frame r) = length (stack_node_list fl) ∧
      ∀ i n, stack_node_list fl !! i = Some n →
        FrameList.stack_table_parent r !! i
          = Some (if decide (parent n = (-1)%Z) then None
                  else Some (parent n)) ∧
        ∃ k,
          FrameList.stack_table_frame r !! i = Some (Z.of_nat k) ∧
          FrameList.frame_list (FrameList.finalize h fl tb) !! k
            = Some (frame n) ∧
          FrameList.frame_table_func r !! k = Some (Z.of_nat k) ∧
          FrameList.frame_table_line r !! k = Some (Frame.line (frame n)) ∧
          FrameList.func_table_name r !! k
            = Some (FrameInfo.label (Frame.info h (frame n))) ∧
          FrameList.func_table_filename r !! k
            = Some (FrameInfo.file (Frame.info h (frame n))) ∧
          FrameList.func_table_first_line r !! k
            = Some (FrameInfo.first_lineno (Frame.info h (frame n))).
Proof.
  intros h fl tb Hok Hinfo.
  destruct (finalize_loop (stack_node_list fl) tb Hok)
    as (Hok0 & _ & Hinfo0 & Hin & _).
  set (tb0 := foldl (λ tb n, (FrameList.frame_index tb (frame n)).1) tb
                (stack_node_list fl)) in *.
  remember (FrameList.finalize h fl tb) as tb1 eqn:Htb1.
  assert (FrameList.frame_list tb1 = FrameList.frame_list tb0) as Hlist
    by (by subst tb1).
  assert (FrameList.frame_with_info_list tb1
          = (λ frame, FrameList.FrameWithInfo.mk frame (Frame.info h frame))
              <$> FrameList.frame_list tb0) as Hinfos.
  { subst tb1. unfold FrameList.finalize. fold tb0. simpl.
    by rewrite Hinfo0, Hinfo. }
  assert (tables_ok tb1) as Hok1 by (subst tb1; destruct Hok0; by split).
  clear Htb1.
  unfold FrameList.write_result.
  rewrite (write_stack_table_known tb1 (stack_node_list fl) Hok1)
    by (intros n Hn; rewrite Hlist; by apply Hin).
  eexists. split; [reflexivity|]. split; [done|].
  cbn [FrameList.stack_table_parent FrameList.stack_table_frame
       FrameList.frame_table_func FrameList.frame_table_line
       FrameList.func_table_name FrameList.func_table_filename
       FrameList.func_table_first_line].
  split; [by rewrite length_fmap|]. split; [by rewrite length_fmap|].
  intros i n Hn. split; [by rewrite list_lookup_fmap, Hn|].
  destruct (list_elem_of_lookup_1 _ _ (Hin n (list_elem_of_lookup_2 _ _ _ Hn)))
    as [k Hk].
  exists k. rewrite list_lookup_fmap, Hn. simpl.
  rewrite (frame_index_known tb1 (frame n) k Hok1) by (by rewrite Hlist).
  split; [done|]. split; [by rewrite Hlist|].
  rewrite !list_lookup_fmap, Hinfos, list_lookup_fmap, Hk. simpl.
  split; [|done].
  rewrite lookup_seq_lt; [done|].
  rewrite length_fmap. by eapply lookup_lt_Some.
Qed.

Lemma finalize_then_write_result_witness :
  ∃ r,
    FrameList.write_result tree_ab
      (FrameList.finalize frame_host0 tree_ab FrameList.tables_new)
      = (FrameList.finalize frame_host0 tree_ab FrameList.tables_new, r) ∧
    tables_ok (FrameList.finalize frame_host0 tree_ab FrameList.tables_new) ∧
    length (FrameList.stack_table_parent r) = length (stack_node_list tree_ab) ∧
    length (FrameList.stack_table_frame r) = length (stack_node_list tree_ab) ∧
    ∀ i n, stack_node_list tree_ab !! i = Some n →
      FrameList.stack_table_parent r !! i
        = Some (if decide (parent n = (-1)%Z) then None
                else Some (parent n)) ∧
      ∃ k,
        FrameList.stack_table_frame r !! i = Some (Z.of_nat k) ∧
        FrameList.frame_list
          (FrameList.finalize frame_host0 tree_ab FrameList.tables_new) !! k
          = Some (frame n) ∧
        FrameList.frame_table_func r !! k = Some (Z.of_nat k) ∧
        FrameList.frame_table_line r !! k = Some (Frame.line (frame n)) ∧
        FrameList.func_table_name r !! k
          = Some (FrameInfo.label (Frame.info frame_host0 (frame n))) ∧
        FrameList.func_table_filename r !! k
          = Some (FrameInfo.file (Frame.info frame_host0 (frame n))) ∧
        FrameList.func_table_first_line r !! k
          = Some (FrameInfo.first_lineno (Frame.info frame_host0 (frame n))).
Proof.
  apply (finalize_then_write_result frame_host0 tree_ab FrameList.tables_new).
  - split; apply interned_empty.
  - reflexivity.
Defined.

(** ** The thread state machine, transition by transition *)

Ltac not_in_list H :=
  exfalso; revert H; rewrite !elem_of_cons, elem_of_nil;
  intros H; repeat (destruct H as [H|H]; [discriminate H|]); exact H.

Ltac in_list :=
  solve [rewrite !elem_of_cons; repeat (first [left; reflexivity|right])].

(** X15. The transitions [Thread::set_state] accepts.  A notification
    fails an assertion exactly when it is RUNNING for a thread in state
    STARTED or SUSPENDED, or READY, SUSPENDED or STOPPED for a thread in
    state READY; every other notification returns. *)
Theorem set_state_transition_table :
  ∀ (h : Host.t) (th : Thread.t) (new_state : Thread.State),
    (Thread.set_state h th new_state = Err AssertFailed ↔
       (Thread.state th, new_state) ∈ illegal_transitions) ∧
    ((Thread.state th, new_state) ∉ illegal_transitions →
       ∃ th', Thread.set_state h th new_state = Ok th').
Proof.
  intros h th new_state. unfold illegal_transitions, Thread.set_state.
  destruct th as [sl rt rid pid tid st sc sa so idx tr ms nm].
  cbn [Thread.state Thread.started_at Thread.state_changed_at].
  destruct (TimeStamp.zero sa);
    destruct st, new_state; cbn;
    (split; [split; [intros Heq; first [discriminate Heq|in_list]
                    |intros Hin; first [reflexivity|not_in_list Hin]]
            |intros Hnot; first [by eauto|exfalso; apply Hnot; in_list]]).
Qed.

Ltac marker_shape :=
  first [left; repeat split; reflexivity | right; repeat split; reflexivity].

(** X16. The marker table of a thread is append-only: a notification
    adds at most two markers after the ones that were there.  An interval
    it adds runs from the time of the last state change to the time of
    the notification and carries the stack index recorded at suspension
    if it is a SUSPENDED interval and none otherwise; an instant marker
    it adds carries the clock read when it was recorded. *)
Theorem set_state_appends_markers :
  ∀ (h : Host.t) (th th' : Thread.t) (new_state : Thread.State),
    Thread.set_state h th new_state = Ok th' →
    ∃ added,
      Thread.markers th' = Thread.markers th ++ added ∧
      length added ≤ 2 ∧
      Forall (λ m,
        (Marker.phase m = Marker.INTERVAL ∧
         Marker.timestamp m = Thread.state_changed_at th ∧
         Marker.finish m = Host.now h ∧
         Marker.stack_index m =
           if decide (Marker.type m = Marker.MARKER_THREAD_SUSPENDED)
           then Thread.stack_on_suspend_idx th else (-1)%Z) ∨
        (Marker.phase m = Marker.INSTANT ∧
         Marker.timestamp m = Host.marker_now h ∧
         Marker.finish m = TimeStamp.Zero ∧
         Marker.stack_index m = (-1)%Z)) added.
Proof.
  intros h th th' new_state. unfold Thread.set_state.
  destruct th as [sl rt rid pid tid st sc sa so idx tr ms nm].
  cbn [Thread.state Thread.started_at Thread.state_changed_at
       Thread.markers Thread.stack_on_suspend_idx].
  destruct (TimeStamp.zero sa), (TimeStamp.ne sc (Host.now h)) eqn:Hne;
    destruct st, new_state; cbn; rewrite ?Hne;
    intros Heq; try discriminate Heq; injection Heq as <-; cbn;
    unfold MarkerTable.record_interval, MarkerTable.record;
    rewrite <- ?app_assoc;
    first
      [ exists []; split; [by rewrite app_nil_r|];
        split; [simpl; lia|constructor]
      | eexists; split; [reflexivity|]; split; [simpl; lia|];
        repeat (apply Forall_cons; split; [marker_shape|]);
        apply Forall_nil_2 ].
Qed.

Lemma set_state_appends_markers_witness :
  ∃ th',
    Thread.set_state host0 (Thread.new host_foreign Thread.SUSPENDED 7 1)
      Thread.READY = Ok th' ∧
    ∃ added,
      Thread.markers th'
        = Thread.markers (Thread.new host_foreign Thread.SUSPENDED 7 1)
          ++ added ∧
      length added ≤ 2 ∧
      Forall (λ m,
        (Marker.phase m = Marker.INTERVAL ∧
         Marker.timestamp m
           = Thread.state_changed_at
               (Thread.new host_foreign Thread.SUSPENDED 7 1) ∧
         Marker.finish m = Host.now host0 ∧
         Marker.stack_index m =
           if decide (Marker.type m = Marker.MARKER_THREAD_SUSPENDED)
           then Thread.stack_on_suspend_idx
                  (Thread.new host_foreign Thread.SUSPENDED 7 1)
           else (-1)%Z) ∨
        (Marker.phase m = Marker.INSTANT ∧
         Marker.timestamp m = Host.marker_now host0 ∧
         Marker.finish m = TimeStamp.Zero ∧
         Marker.stack_index m = (-1)%Z)) added.
Proof.
  eexists. split; [vm_compute; reflexivity|].
  eapply (set_state_appends_markers host0
            (Thread.new host_foreign Thread.SUSPENDED 7 1) _ Thread.READY).
  vm_compute; reflexivity.
Defined.

(** X17. What [Thread::set_state] leaves alone.  It never changes the
    identity of the thread, its samples, its translator, the stack index
    recorded at suspension or the name; the state afterwards is the old
    one or the notified one, and when it changed, the change is stamped
    with the clock of the call; a start time that is set stays; the
    thread is STOPPED afterwards exactly when it was or was told to; the
    stop time changes only on a STOPPED notification; and the native ids
    change on a RUNNING notification only. *)
Theorem set_state_frame_conditions :
  ∀ (h : Host.t) (th th' : Thread.t) (new_state : Thread.State),
    Thread.set_state h th new_state = Ok th' →
    Thread.ruby_thread th' = Thread.ruby_thread th ∧
    Thread.ruby_thread_id th' = Thread.ruby_thread_id th ∧
    Thread.samples th' = Thread.samples th ∧
    Thread.translator th' = Thread.translator th ∧
    Thread.stack_on_suspend_idx th' = Thread.stack_on_suspend_idx th ∧
    Thread.name th' = Thread.name th ∧
    (Thread.state th' = Thread.state th ∨ Thread.state th' = new_state) ∧
    (Thread.state th' ≠ Thread.state th →
       Thread.state_changed_at th' = Host.now h) ∧
    (Thread.started_at th ≠ TimeStamp.Zero →
       Thread.started_at th' = Thread.started_at th) ∧
    (Thread.state th' = Thread.STOPPED ↔
       Thread.state th = Thread.STOPPED ∨ new_state = Thread.STOPPED) ∧
    (Thread.stopped_at th' = Thread.stopped_at th ∨
       new_state = Thread.STOPPED ∧ Thread.stopped_at th' = Host.now h) ∧
    (new_state ≠ Thread.RUNNING →
       Thread.pthread_id th' = Thread.pthread_id th ∧
       Thread.native_tid th' = Thread.native_tid th).
Proof.
  intros h th th' new_state. unfold Thread.set_state, TimeStamp.zero.
  destruct th as [sl rt rid pid tid st sc sa so idx tr ms nm].
  cbn [Thread.state Thread.started_at Thread.state_changed_at
       Thread.markers Thread.stack_on_suspend_idx].
  case_bool_decide as Hsa;
    destruct (TimeStamp.ne sc (Host.now h)) eqn:Hne;
    destruct st, new_state; cbn; rewrite ?Hne;
    intros Heq; try discriminate Heq; injection Heq as <-; cbn;
    (split; [reflexivity|]); (split; [reflexivity|]);
    (split; [reflexivity|]); (split; [reflexivity|]);
    (split; [reflexivity|]); (split; [reflexivity|]);
    (split; [first [by left|by right]|]);
    (split; [first [done|by intros []]|]);
    (split; [first [done|by intros []]|]);
    (split; [split; [first [by left|by right|done]
                    |by intros [|]]|]);
    (split; [first [by left|by right]|]);
    first [done|by intros []].
Qed.

Lemma set_state_frame_conditions_witness :
  ∃ th',
    Thread.set_state host0 (Thread.new host_foreign Thread.RUNNING 7 1)
      Thread.STOPPED = Ok th' ∧
    Thread.ruby_thread th'
      = Thread.ruby_thread (Thread.new host_foreign Thread.RUNNING 7 1) ∧
    Thread.ruby_thread_id th'
      = Thread.ruby_thread_id (Thread.new host_foreign Thread.RUNNING 7 1) ∧
    Thread.samples th'
      = Thread.samples (Thread.new host_foreign Thread.RUNNING 7 1) ∧
    Thread.translator th'
      = Thread.translator (Thread.new host_foreign Thread.RUNNING 7 1) ∧
    Thread.stack_on_suspend_idx th'
      = Thread.stack_on_suspend_idx
          (Thread.new host_foreign Thread.RUNNING 7 1) ∧
    Thread.name th' = Thread.name (Thread.new host_foreign Thread.RUNNING 7 1) ∧
    (Thread.state th'
       = Thread.state (Thread.new host_foreign Thread.RUNNING 7 1)
     ∨ Thread.state th' = Thread.STOPPED) ∧
    (Thread.state th'
       ≠ Thread.state (Thread.new host_foreign Thread.RUNNING 7 1) →
     Thread.state_changed_at th' = Host.now host0) ∧
    (Thread.started_at (Thread.new host_foreign Thread.RUNNING 7 1)
       ≠ TimeStamp.Zero →
     Thread.started_at th'
       = Thread.started_at (Thread.new host_foreign Thread.RUNNING 7 1)) ∧
    (Thread.state th' = Thread.STOPPED ↔
       Thread.state (Thread.new host_foreign Thread.RUNNING 7 1)
         = Thread.STOPPED
       ∨ Thread.STOPPED = Thread.STOPPED) ∧
    (Thread.stopped_at th'
       = Thread.stopped_at (Thread.new host_foreign Thread.RUNNING 7 1)
     ∨ Thread.STOPPED = Thread.STOPPED
       ∧ Thread.stopped_at th' = Host.now host0) ∧
    (Thread.STOPPED ≠ Thread.RUNNING →
     Thread.pthread_id th'
       = Thread.pthread_id (Thread.new host_foreign Thread.RUNNING 7 1) ∧
     Thread.native_tid th'
       = Thread.native_tid (Thread.new host_foreign Thread.RUNNING 7 1)).
Proof.
  eexists. split; [vm_compute; reflexivity|].
  eapply (set_state_frame_conditions host0
            (Thread.new host_foreign Thread.RUNNING 7 1) _ Thread.STOPPED).
  vm_compute; reflexivity.
Defined.

Lemma TimeStamp_ne_true (a b : TimeStamp.t) : a ≠ b → TimeStamp.ne a b = true.
Proof.
  intros Hne. unfold TimeStamp.ne. by rewrite bool_decide_eq_false_2.
Qed.

(** One effective notification other than STARTED, field by field. *)
Lemma set_state_effect h th new_state :
  (Thread.state th, new_state) ∉ illegal_transitions →
  Thread.state th ≠ Thread.STOPPED →
  new_state ≠ Thread.STARTED →
  ¬ (new_state = Thread.SUSPENDED ∧ Thread.state th = Thread.SUSPENDED) →
  ∃ th',
    Thread.set_state h th new_state = Ok th' ∧
    Thread.state th' = new_state ∧
    Thread.state_changed_at th' = Host.now h ∧
    Thread.stack_on_suspend_idx th' = Thread.stack_on_suspend_idx th ∧
    Thread.stopped_at th' =
      (if decide (new_state = Thread.STOPPED) then Host.now h
       else Thread.stopped_at th) ∧
    Thread.markers th' =
      Thread.markers th ++
      match new_state with
      | Thread.RUNNING =>
          if TimeStamp.ne (Thread.state_changed_at th) (Host.now h)
          then [Marker.mk Marker.MARKER_THREAD_STALLED Marker.INTERVAL
                  (Thread.state_changed_at th) (Host.now h) (-1)]
          else []
      | Thread.READY =>
          match Thread.state th with
          | Thread.SUSPENDED =>
              [Marker.mk Marker.MARKER_THREAD_SUSPENDED Marker.INTERVAL
                 (Thread.state_changed_at th) (Host.now h)
                 (Thread.stack_on_suspend_idx th)]
          | Thread.RUNNING =>
              [Marker.mk Marker.MARKER_THREAD_RUNNING Marker.INTERVAL
                 (Thread.state_changed_at th) (Host.now h) (-1)]
          | _ => []
          end
      | Thread.STOPPED =>
          [Marker.mk Marker.MARKER_THREAD_RUNNING Marker.INTERVAL
             (Thread.state_changed_at th) (Host.now h) (-1);
           Marker.mk Marker.MARKER_GVL_THREAD_EXITED Marker.INSTANT
             (Host.marker_now h) TimeStamp.Zero (-1)]
      | _ =>
          [Marker.mk Marker.MARKER_THREAD_RUNNING Marker.INTERVAL
             (Thread.state_changed_at th) (Host.now h) (-1)]
      end.
Proof.
  unfold illegal_transitions, Thread.set_state.
  destruct th as [sl rt rid pid tid st sc sa so idx tr ms nm].
  cbn [Thread.state Thread.started_at Thread.state_changed_at
       Thread.markers Thread.stack_on_suspend_idx Thread.stopped_at].
  intros Hlegal Hst Hns Hdup.
  destruct (TimeStamp.zero sa), (TimeStamp.ne sc (Host.now h)) eqn:Hne;
    destruct st, new_state; try done;
    try (exfalso; apply Hlegal; in_list);
    try (exfalso; apply Hdup; done);
    cbn; rewrite ?Hne;
    unfold MarkerTable.record_interval, MarkerTable.record;
    (eexists; split; [reflexivity|]); cbn; rewrite <- ?app_assoc,
      ?app_nil_r; repeat split; reflexivity.
Qed.

Ltac lifecycle_step h Hstate :=
  match goal with
  | |- context [Thread.set_state h ?th ?ns] =>
      let th' := fresh "th" in
      let Heq := fresh "Heq" in
      let Hst := fresh "Hst" in
      let Hsc := fresh "Hsc" in
      let Hidx := fresh "Hidx" in
      let Hso := fresh "Hso" in
      let Hms := fresh "Hms" in
      destruct (set_state_effect h th ns)
        as (th' & Heq & Hst & Hsc & Hidx & Hso & Hms);
      [ rewrite Hstate; unfold illegal_transitions; intros Hin;
        not_in_list Hin
      | rewrite Hstate; discriminate
      | discriminate
      | rewrite Hstate; intros [? ?]; discriminate
      | rewrite Heq; bind_step; rewrite ?Hstate in Hms; clear Heq ]
  end.

(** X18. The timeline of one whole life.  A thread in state STARTED
    that is notified READY, RUNNING, SUSPENDED, READY, RUNNING and
    STOPPED, with time passing while it waits for the lock, ends
    STOPPED, stamped with the time of the last notification, and has
    gained exactly six markers: stalled, running, suspended (with the
    stack index recorded at suspension), stalled, running and the
    instant of the exit, each interval running from one notification to
    the next. *)
Theorem thread_lifecycle_markers :
  ∀ (h1 h2 h3 h4 h5 h6 : Host.t) (th : Thread.t),
    Thread.state th = Thread.STARTED →
    Host.now h1 ≠ Host.now h2 →
    Host.now h4 ≠ Host.now h5 →
    ∃ th',
      (th1 ← Thread.set_state h1 th Thread.READY;
       th2 ← Thread.set_state h2 th1 Thread.RUNNING;
       th3 ← Thread.set_state h3 th2 Thread.SUSPENDED;
       th4 ← Thread.set_state h4 th3 Thread.READY;
       th5 ← Thread.set_state h5 th4 Thread.RUNNING;
       Thread.set_state h6 th5 Thread.STOPPED) = Ok th' ∧
      Thread.state th' = Thread.STOPPED ∧
      Thread.state_changed_at th' = Host.now h6 ∧
      Thread.stopped_at th' = Host.now h6 ∧
      Thread.markers th' =
        Thread.markers th ++
        [ Marker.mk Marker.MARKER_THREAD_STALLED Marker.INTERVAL
            (Host.now h1) (Host.now h2) (-1);
          Marker.mk Marker.MARKER_THREAD_RUNNING Marker.INTERVAL
            (Host.now h2) (Host.now h3) (-1);
          Marker.mk Marker.MARKER_THREAD_SUSPENDED Marker.INTERVAL
            (Host.now h3) (Host.now h4) (Thread.stack_on_suspend_idx th);
          Marker.mk Marker.MARKER_THREAD_STALLED Marker.INTERVAL
            (Host.now h4) (Host.now h5) (-1);
          Marker.mk Marker.MARKER_THREAD_RUNNING Marker.INTERVAL
            (Host.now h5) (Host.now h6) (-1);
          Marker.mk Marker.MARKER_GVL_THREAD_EXITED Marker.INSTANT
            (Host.marker_now h6) TimeStamp.Zero (-1) ].
Proof.
  intros h1 h2 h3 h4 h5 h6 th Hst H12 H45.
  apply TimeStamp_ne_true in H12, H45.
  lifecycle_step h1 Hst. lifecycle_step h2 Hst0.
  lifecycle_step h3 Hst1. lifecycle_step h4 Hst2.
  lifecycle_step h5 Hst3. lifecycle_step h6 Hst4.
  exists th5. split; [done|]. split; [done|]. split; [done|].
  split; [by rewrite Hso4|].
  rewrite Hms4, Hms3, Hms2, Hms1, Hms0, Hms.
  rewrite Hsc3, Hsc2, Hsc1, Hsc0, Hsc, Hidx1, Hidx0, Hidx, H12, H45.
  rewrite <- !app_assoc. reflexivity.
Qed.

Lemma thread_lifecycle_markers_witness :
  ∃ th',
    (th1 ← Thread.set_state (host_at 10) (Thread.new (host_at 5) Thread.STARTED 7 1)
             Thread.READY;
     th2 ← Thread.set_state (host_at 20) th1 Thread.RUNNING;
     th3 ← Thread.set_state (host_at 30) th2 Thread.SUSPENDED;
     th4 ← Thread.set_state (host_at 40) th3 Thread.READY;
     th5 ← Thread.set_state (host_at 50) th4 Thread.RUNNING;
     Thread.set_state (host_at 60) th5 Thread.STOPPED) = Ok th' ∧
    Thread.state th' = Thread.STOPPED ∧
    Thread.state_changed_at th' = Host.now (host_at 60) ∧
    Thread.stopped_at th' = Host.now (host_at 60) ∧
    Thread.markers th' =
      Thread.markers (Thread.new (host_at 5) Thread.STARTED 7 1) ++
      [ Marker.mk Marker.MARKER_THREAD_STALLED Marker.INTERVAL
          (Host.now (host_at 10)) (Host.now (host_at 20)) (-1);
        Marker.mk Marker.MARKER_THREAD_RUNNING Marker.INTERVAL
          (Host.now (host_at 20)) (Host.now (host_at 30)) (-1);
        Marker.mk Marker.MARKER_THREAD_SUSPENDED Marker.INTERVAL
          (Host.now (host_at 30)) (Host.now (host_at 40))
          (Thread.stack_on_suspend_idx
             (Thread.new (host_at 5) Thread.STARTED 7 1));
        Marker.mk Marker.MARKER_THREAD_STALLED Marker.INTERVAL
          (Host.now (host_at 40)) (Host.now (host_at 50)) (-1);
        Marker.mk Marker.MARKER_THREAD_RUNNING Marker.INTERVAL
          (Host.now (host_at 50)) (Host.now (host_at 60)) (-1);
        Marker.mk Marker.MARKER_GVL_THREAD_EXITED Marker.INSTANT
          (Host.marker_now (host_at 60)) TimeStamp.Zero (-1) ].
Proof.
  apply (thread_lifecycle_markers (host_at 10) (host_at 20) (host_at 30)
           (host_at 40) (host_at 50) (host_at 60)
           (Thread.new (host_at 5) Thread.STARTED 7 1)).
  - reflexivity.
  - simpl; lia.
  - simpl; lia.
Defined.

(** ** The sample list as a run-length code *)

Lemma decode_runs_app {A} (ks ks' : list A) ws ws' :
  length ks = length ws →
  decode_runs (ks ++ ks') (ws ++ ws')
  = decode_runs ks ws ++ decode_runs ks' ws'.
Proof.
  revert ws. induction ks as [|k ks IH]; intros [|w ws] Hlen;
    simpl in *; try done.
  rewrite IH by lia. by rewrite app_assoc.
Qed.

Lemma adjacent_differ_snoc {A} (l : list A) x :
  adjacent_differ l → (∀ y, last l = Some y → y ≠ x) →
  adjacent_differ (l ++ [x]).
Proof.
  intros Hadj Hlast i a b Ha Hb.
  apply lookup_snoc_Some in Hb as [[Hi Hb]|[Hi ->]].
  - rewrite lookup_app_l in Ha by lia. by eapply Hadj.
  - rewrite lookup_app_l in Ha by lia. apply Hlast.
    rewrite last_lookup. rewrite <- Hi. done.
Qed.

(** A non-empty well-formed list, seen from its last entry. *)
Lemma sample_list_snoc sl :
  SampleList.wf sl → SampleList.size sl ≠ 0 →
  ∃ ss s0 tss t0 ts th0 cs c0 ws w0,
    sl = SampleList.mk (ss ++ [s0]) (tss ++ [t0]) (ts ++ [th0]) (cs ++ [c0])
           (ws ++ [w0]) ∧
    length tss = length ss ∧ length ts = length ss ∧
    length cs = length ss ∧ length ws = length ss.
Proof.
  destruct sl as [ss tss ts cs ws].
  unfold SampleList.wf, SampleList.size. simpl.
  intros (H1 & H2 & H3 & H4) Hne.
  destruct ss as [|s0 ss _] using rev_ind; [done|].
  destruct tss as [|t0 tss _] using rev_ind;
    [rewrite length_app in H1; simpl in H1; lia|].
  destruct ts as [|th0 ts _] using rev_ind;
    [rewrite length_app in H2; simpl in H2; lia|].
  destruct cs as [|c0 cs _] using rev_ind;
    [rewrite length_app in H3; simpl in H3; lia|].
  destruct ws as [|w0 ws _] using rev_ind;
    [rewrite length_app in H4; simpl in H4; lia|].
  rewrite !length_app in *. simpl in *.
  exists ss, s0, tss, t0, ts, th0, cs, c0, ws, w0.
  split; [done|]. lia.
Qed.

Lemma same_as_back_last ss s0 tss ts th0 cs c0 ws s th c :
  SampleList.same_as_back
    (SampleList.mk (ss ++ [s0]) tss (ts ++ [th0]) (cs ++ [c0]) ws) s th c
  = Ok (bool_decide ((s0, th0, c0) = (s, th, c))).
Proof.
  unfold SampleList.same_as_back, SampleList.empty, SampleList.size. simpl.
  rewrite bool_decide_eq_false_2
    by (rewrite length_app; simpl; lia).
  rewrite !back_snoc. bind_step.
  destruct (decide (s0 ≠ s)) as [Hs|Hs].
  { rewrite bool_decide_eq_false_2; [done|]. intros [= ? ? ?]. done. }
  bind_step. destruct (decide (th0 ≠ th)) as [Hth|Hth].
  { rewrite bool_decide_eq_false_2; [done|]. intros [= ? ? ?]. done. }
  bind_step. apply dec_stable in Hs, Hth. subst. f_equal.
  apply bool_decide_ext. split; [by intros ->|by intros [= ->]].
Qed.

(** The ways [record_sample] can go on a well-formed list. *)
Lemma record_sample_cases sl s time th c :
  SampleList.wf sl →
  (last (keys sl) ≠ Some (s, th, c) ∧
   SampleList.record_sample sl s time th c
   = Ok (SampleList.mk (SampleList.stacks sl ++ [s])
           (SampleList.timestamps sl ++ [time])
           (SampleList.threads sl ++ [th])
           (SampleList.categories sl ++ [c])
           (SampleList.weights sl ++ [1%Z]))) ∨
  (∃ ss tss ts cs ws w,
     sl = SampleList.mk (ss ++ [s]) tss (ts ++ [th]) (cs ++ [c]) (ws ++ [w]) ∧
     length ts = length ss ∧ length cs = length ss ∧ length ws = length ss ∧
     SampleList.record_sample sl s time th c =
       if decide (w = SampleList.INT_MAX) then Err Undefined
       else Ok (SampleList.mk (ss ++ [s]) tss (ts ++ [th]) (cs ++ [c])
                  (ws ++ [(w + 1)%Z]))).
Proof.
  intros Hwf. destruct (decide (SampleList.size sl = 0)) as [Hz|Hnz].
  - left. destruct sl as [ss tss ts cs ws].
    unfold SampleList.size in Hz. simpl in Hz.
    destruct ss; [|done]. split; [done|].
    apply record_sample_differs. done.
  - destruct (sample_list_snoc sl Hwf Hnz)
      as (ss & s0 & tss & t0 & ts & th0 & cs & c0 & ws & w0 & -> & H1 & H2
          & H3 & H4).
    pose proof (same_as_back_last ss s0 (tss ++ [t0]) ts th0 cs c0
                  (ws ++ [w0]) s th c) as Hsame.
    case_bool_decide as Hk.
    + right. injection Hk as -> -> ->.
      exists ss, (tss ++ [t0]), ts, cs, ws, w0.
      split; [done|]. split; [done|]. split; [done|]. split; [done|].
      unfold SampleList.record_sample. rewrite Hsame. bind_step.
      unfold SampleList.bump_back.
      cbn [SampleList.stacks SampleList.timestamps SampleList.threads
           SampleList.categories SampleList.weights].
      rewrite back_snoc. bind_step.
      case_decide; [done|]. bind_step. do 2 f_equal.
      rewrite length_app. simpl.
      replace (length ws + 1 - 1) with (length ws + 0) by lia.
      by rewrite insert_app_r.
    + left. split; [|by apply record_sample_differs].
      unfold keys. simpl.
      rewrite !zip_with_app by (rewrite ?length_zip_with; lia).
      simpl. rewrite last_snoc. congruence.
Qed.

Lemma decode_runs_weight {A} (ks : list A) : ∀ ws,
  length ks = length ws → Forall (λ w, (1 ≤ w)%Z) ws →
  Forall (λ w, (w ≤ Z.of_nat (length (decode_runs ks ws)))%Z) ws.
Proof.
  induction ks as [|k ks IH]; intros [|w ws] Hlen Hpos; simpl in *;
    try done.
  inversion Hpos as [|? ? Hw Hws]; subst.
  rewrite length_app, length_replicate. constructor; [lia|].
  eapply Forall_impl; [apply IH; [lia|done]|]. simpl. intros; lia.
Qed.

Lemma keys_length sl :
  SampleList.wf sl → length (keys sl) = length (SampleList.stacks sl).
Proof.
  intros (_ & H2 & H3 & _). unfold keys. rewrite !length_zip_with. lia.
Qed.

Lemma run_length_encoded_new : run_length_encoded SampleList.new.
Proof.
  split; [done|]. split; [constructor|]. intros i a b Ha. done.
Qed.

(** One [record_sample] on a list kept as [record_sample] keeps it. *)
Lemma record_sample_step sl s time th c :
  run_length_encoded sl →
  (Z.of_nat (length (decode sl)) < SampleList.INT_MAX)%Z →
  ∃ sl',
    SampleList.record_sample sl s time th c = Ok sl' ∧
    run_length_encoded sl' ∧
    decode sl' = decode sl ++ [(s, th, c)] ∧
    SampleList.timestamps sl `prefix_of` SampleList.timestamps sl'.
Proof.
  intros (Hwf & Hpos & Hadj) Hroom.
  pose proof (keys_length sl Hwf) as Hklen.
  pose proof Hwf as (Hw1 & Hw2 & Hw3 & Hw4).
  destruct (record_sample_cases sl s time th c Hwf)
    as [[Hlast Hrec]|(ss & tss & ts & cs & ws & w & -> & H2 & H3 & H4 & Hrec)].
  - eexists. split; [exact Hrec|].
    assert (keys (SampleList.mk (SampleList.stacks sl ++ [s])
                    (SampleList.timestamps sl ++ [time])
                    (SampleList.threads sl ++ [th])
                    (SampleList.categories sl ++ [c])
                    (SampleList.weights sl ++ [1%Z]))
            = keys sl ++ [(s, th, c)]) as Hkeys.
    { unfold keys. simpl.
      rewrite !zip_with_app by (rewrite ?length_zip_with; lia). done. }
    split; [split; [|split]|split].
    + unfold SampleList.wf. simpl. rewrite !length_app. simpl. lia.
    + simpl. apply Forall_app. split; [done|]. by constructor.
    + rewrite Hkeys. apply adjacent_differ_snoc; [done|]. congruence.
    + unfold decode. rewrite Hkeys. simpl.
      rewrite decode_runs_app by lia. simpl. done.
    + simpl. by apply prefix_app_r.
  - simpl in *.
    assert (keys (SampleList.mk (ss ++ [s]) tss (ts ++ [th]) (cs ++ [c])
                    (ws ++ [w]))
            = zip (zip ss ts) cs ++ [(s, th, c)]) as Hkeys.
    { unfold keys. simpl.
      rewrite !zip_with_app by (rewrite ?length_zip_with; lia). done. }
    assert (length (zip (zip ss ts) cs) = length ws) as Hzl
      by (rewrite !length_zip_with; lia).
    apply Forall_app in Hpos as [Hpos Hw]. inversion Hw as [|? ? Hw1' _]; subst.
    assert (decode (SampleList.mk (ss ++ [s]) tss (ts ++ [th]) (cs ++ [c])
                      (ws ++ [w]))
            = decode_runs (zip (zip ss ts) cs) ws
              ++ replicate (Z.to_nat w) (s, th, c)) as Hdec.
    { unfold decode. rewrite Hkeys. simpl.
      rewrite decode_runs_app by done. simpl. by rewrite app_nil_r. }
    rewrite Hdec in Hroom. rewrite length_app, length_replicate in Hroom.
    rewrite decide_False in Hrec by lia.
    eexists. split; [exact Hrec|].
    split; [split; [|split]|split].
    + unfold SampleList.wf in *. simpl in *. rewrite !length_app in *.
      simpl in *. lia.
    + simpl. apply Forall_app. split; [done|]. constructor; [lia|done].
    + done.
    + rewrite Hdec. unfold decode. unfold keys at 1. simpl.
      rewrite !zip_with_app by (rewrite ?length_zip_with; lia).
      rewrite decode_runs_app by done. simpl. rewrite app_nil_r.
      replace (Z.to_nat (w + 1)) with (S (Z.to_nat w)) by lia.
      by rewrite replicate_S_end, app_assoc.
    + done.
Qed.

(** X19. The sample list is a faithful run-length code.  Recording
    samples one after the other on a list the collector keeps, as long as
    fewer than [INT_MAX] samples are in it, never fails; writing every
    entry of the result out as many times as its weight says gives the
    samples that were in the list followed by the recorded ones, in
    order, each as its (stack, thread, category).  The five vectors stay
    in step, no weight is below 1, no two neighbouring entries are alike,
    and the time stamps already in the list stay. *)
Theorem record_samples_decode :
  ∀ (xs : list (Z * TimeStamp.t * Z * Category)) (sl : SampleList.t),
    run_length_encoded sl →
    (Z.of_nat (length (decode sl) + length xs) ≤ SampleList.INT_MAX)%Z →
    ∃ sl',
      record_samples sl xs = Ok sl' ∧
      decode sl' = decode sl ++ (sample_key <$> xs) ∧
      run_length_encoded sl' ∧
      SampleList.timestamps sl `prefix_of` SampleList.timestamps sl'.
Proof.
  induction xs as [|[[[s time] th] c] xs IH]; intros sl Hrle Hroom.
  - exists sl. simpl. by rewrite app_nil_r.
  - simpl in Hroom.
    destruct (record_sample_step sl s time th c Hrle)
      as (sl1 & Hrec & Hrle1 & Hdec1 & Hts1); [lia|].
    destruct (IH sl1 Hrle1) as (sl' & Hrun & Hdec & Hrle' & Hts).
    { rewrite Hdec1, length_app. simpl. lia. }
    exists sl'. simpl. rewrite Hrec. bind_step.
    split; [done|]. split; [|split; [done|by etrans]].
    rewrite Hdec, Hdec1, <- app_assoc. done.
Qed.

Lemma record_samples_decode_witness :
  ∃ sl',
    record_samples SampleList.new
      [(4, 10, 8, CATEGORY_NORMAL); (4, 11, 8, CATEGORY_NORMAL);
       (4, 12, 8, CATEGORY_IDLE)]%Z = Ok sl' ∧
    decode sl' =
      decode SampleList.new ++
      (sample_key <$> [(4, 10, 8, CATEGORY_NORMAL); (4, 11, 8, CATEGORY_NORMAL);
                       (4, 12, 8, CATEGORY_IDLE)]%Z) ∧
    run_length_encoded sl' ∧
    SampleList.timestamps SampleList.new `prefix_of` SampleList.timestamps sl'.
Proof.
  apply (record_samples_decode
           [(4, 10, 8, CATEGORY_NORMAL); (4, 11, 8, CATEGORY_NORMAL);
            (4, 12, 8, CATEGORY_IDLE)]%Z SampleList.new).
  - apply run_length_encoded_new.
  - vm_compute. discriminate.
Defined.

(** ** The thread table between notifications *)

Lemma set_state_legal h th new_state :
  (Thread.state th, new_state) ∉ illegal_transitions →
  ∃ th', Thread.set_state h th new_state = Ok th'.
Proof.
  unfold illegal_transitions, Thread.set_state.
  destruct th as [sl rt rid pid tid st sc sa so idx tr ms nm].
  cbn [Thread.state Thread.started_at Thread.state_changed_at].
  intros Hlegal.
  destruct (TimeStamp.zero sa); destruct st, new_state; cbn;
    first [by eauto|exfalso; apply Hlegal; in_list].
Qed.

Lemma set_state_identity h th new_state th' :
  Thread.set_state h th new_state = Ok th' →
  Thread.ruby_thread th' = Thread.ruby_thread th ∧
  Thread.stack_on_suspend_idx th' = Thread.stack_on_suspend_idx th.
Proof.
  unfold Thread.set_state, TimeStamp.zero.
  destruct th as [sl rt rid pid tid st sc sa so idx tr ms nm].
  cbn [Thread.state Thread.started_at Thread.state_changed_at
       Thread.markers Thread.stack_on_suspend_idx].
  case_bool_decide;
    destruct (TimeStamp.ne sc (Host.now h)) eqn:Hne;
    destruct st, new_state; cbn; rewrite ?Hne;
    intros Heq; try discriminate Heq; injection Heq as <-; cbn;
    split; reflexivity.
Qed.

(** What [ThreadTable::set_state] does to the record it finds, when the
    notification is legal for it. *)
Lemma update_thread_post h fl thread new_state :
  wf fl → cache_ok fl (Thread.translator thread) →
  (Thread.state thread, new_state) ∉ illegal_transitions →
  ∃ fl' thread',
    ThreadTable.update_thread h fl thread new_state = Ok (fl', thread') ∧
    wf fl' ∧ ext fl fl' ∧ cache_ok fl' (Thread.translator thread') ∧
    Thread.ruby_thread thread' = Thread.ruby_thread thread ∧
    Thread.samples thread' = Thread.samples thread ∧
    (if decide (Thread.state thread' = Thread.RUNNING)
     then Thread.pthread_id thread' = Host.pthread_self h ∧
          Thread.native_tid thread' = Host.native_thread_id h
     else Thread.pthread_id thread' = 0%Z ∧ Thread.native_tid thread' = 0%Z).
Proof.
  intros Hwf Hc Hlegal.
  assert (∀ (fl1 : FrameList.t) (thread1 : Thread.t),
    Thread.state thread1 = Thread.state thread →
    Thread.ruby_thread thread1 = Thread.ruby_thread thread →
    Thread.samples thread1 = Thread.samples thread →
    ∃ thread',
      (th2 ← Thread.set_state h thread1 new_state;
       if decide (Thread.state th2 = Thread.RUNNING) then
         Ok (fl1, Thread.with_native_tid
                    (Thread.with_pthread_id th2 (Host.pthread_self h))
                    (Host.native_thread_id h))
       else
         Ok (fl1, Thread.with_native_tid (Thread.with_pthread_id th2 0) 0))
      = Ok (fl1, thread') ∧
      Thread.ruby_thread thread' = Thread.ruby_thread thread ∧
      Thread.samples thread' = Thread.samples thread ∧
      (if decide (Thread.state thread' = Thread.RUNNING)
       then Thread.pthread_id thread' = Host.pthread_self h ∧
            Thread.native_tid thread' = Host.native_thread_id h
       else Thread.pthread_id thread' = 0%Z ∧
            Thread.native_tid thread' = 0%Z)) as Htail.
  { intros fl1 thread1 Hst1 Hrt1 Hsl1.
    destruct (set_state_legal h thread1 new_state) as [thread2 Hset];
      [by rewrite Hst1|].
    pose proof (set_state_identity _ _ _ _ Hset) as (Hrt2 & _).
    pose proof (set_state_keeps_translator _ _ _ _ Hset) as (_ & Hsl2).
    rewrite Hset. bind_step.
    destruct (decide (Thread.state thread2 = Thread.RUNNING)) as [Hr|Hr].
    - eexists. split; [reflexivity|]. simpl. rewrite decide_True by done.
      split; [congruence|]. split; [congruence|done].
    - eexists. split; [reflexivity|]. simpl. rewrite decide_False by done.
      split; [congruence|]. split; [congruence|done]. }
  assert (∃ fl' thread',
    ThreadTable.update_thread h fl thread new_state = Ok (fl', thread') ∧
    Thread.ruby_thread thread' = Thread.ruby_thread thread ∧
    Thread.samples thread' = Thread.samples thread ∧
    (if decide (Thread.state thread' = Thread.RUNNING)
     then Thread.pthread_id thread' = Host.pthread_self h ∧
          Thread.native_tid thread' = Host.native_thread_id h
     else Thread.pthread_id thread' = 0%Z ∧ Thread.native_tid thread' = 0%Z))
    as (fl' & thread' & Hup & Hrt' & Hsl' & Hids).
  { unfold ThreadTable.update_thread.
    destruct (decide (new_state = Thread.SUSPENDED)) as [Hsus|Hsus].
    - destruct (translate_ok
                  (RawSample.sample h (RawSample.new (Host.junk h)))
                  (RawSample_sample_wf _ _ (RawSample_new_wf _)) fl
                  (Thread.translator thread) Hwf Hc)
        as (fl1 & tr1 & q & Htr & _).
      cbv zeta. rewrite Htr. bind_step.
      destruct (Htail fl1 (Thread.with_stack_on_suspend_idx
                             (Thread.with_translator thread tr1)
                             (ptr_index q)))
        as (thread' & Heq & Hfacts); [done..|].
      exists fl1, thread'. by rewrite Heq.
    - bind_step.
      destruct (Htail fl thread) as (thread' & Heq & Hfacts); [done..|].
      exists fl, thread'. by rewrite Heq. }
  destruct (update_thread_ok _ _ _ _ _ _ Hwf Hc Hup) as (Hwf' & Hext & Hc').
  exists fl', thread'. split; [done|]. split; [done|]. split; [done|].
  split; [done|]. split; [done|]. split; [done|done].
Qed.

(** The table of the one thread that has samples is in order. *)
Lemma threads_ok_sampled : threads_ok FrameList.new [thread_sampled].
Proof.
  split; [split; [apply wf_new|]|].
  { constructor; [apply cache_ok_new|constructor]. }
  split; [apply NoDup_singleton|].
  split; [by repeat constructor|].
  constructor; [|constructor].
  split; [done|]. split; [by repeat constructor|].
  intros [|i] a b Ha Hb; done.
Qed.

(** X20. A notification that is legal for the thread it names returns
    and keeps the table in order: the tree and the translators still
    fit, no thread has two records, a RUNNING record has the native ids
    of the notifying thread, and the sample lists are untouched.  A
    thread not seen before is appended; no record is removed or moved,
    and the records of all other threads are exactly as they were.  The
    samples of every record, the one of the notified thread included,
    are those it had; a record that is appended has none. *)
Theorem notification_keeps_table :
  ∀ (h : Host.t) (fl : FrameList.t) (tbl : ThreadTable.t)
    (new_state : Thread.State) (th : Z),
    threads_ok fl (ThreadTable.list tbl) →
    Host.pthread_self h ≠ 0%Z →
    (∀ t, t ∈ ThreadTable.list tbl → Thread.ruby_thread t = th →
          (Thread.state t, new_state) ∉ illegal_transitions) →
    ∃ fl' tbl',
      ThreadTable.set_state h fl tbl new_state th = Ok (fl', tbl') ∧
      threads_ok fl' (ThreadTable.list tbl') ∧
      Thread.ruby_thread <$> ThreadTable.list tbl' =
        (Thread.ruby_thread <$> ThreadTable.list tbl) ++
        (if decide (th ∈ Thread.ruby_thread <$> ThreadTable.list tbl)
         then [] else [th]) ∧
      Thread.samples <$> ThreadTable.list tbl' =
        (Thread.samples <$> ThreadTable.list tbl) ++
        (if decide (th ∈ Thread.ruby_thread <$> ThreadTable.list tbl)
         then [] else [SampleList.new]) ∧
      (∀ i t, ThreadTable.list tbl !! i = Some t →
              Thread.ruby_thread t ≠ th →
              ThreadTable.list tbl' !! i = Some t) ∧
      (∀ i t', ThreadTable.list tbl' !! i = Some t' →
               Thread.ruby_thread t' = th →
               Thread.state t' = Thread.RUNNING →
               Thread.pthread_id t' = Host.pthread_self h ∧
               Thread.native_tid t' = Host.native_thread_id h).
Proof.
  intros h fl [l] new_state th (Htab & Hnd & Hids & Hrle) Hself Hlegal.
  simpl in *.
  destruct (list_find (λ t, th = Thread.ruby_thread t) l)
    as [[i thread]|] eqn:Hfind.
  - pose proof Hfind as (Hi & Hth & _)%list_find_Some.
    destruct (table_ok_lookup _ _ _ _ Htab Hi) as [Hwf Hc].
    destruct (update_thread_post h fl thread new_state Hwf Hc)
      as (fl' & thread' & Hup & Hwf' & Hext & Hc' & Hrt & Hsl & Hnat).
    { apply Hlegal; [by eapply list_elem_of_lookup_2|done]. }
    assert (ThreadTable.set_state h fl (ThreadTable.mk l) new_state th
            = Ok (fl', ThreadTable.mk (<[i := thread']> l))) as Hset.
    { rewrite (set_state_found h fl (ThreadTable.mk l) new_state th i thread
                 Hfind), Hup. done. }
    exists fl', (ThreadTable.mk (<[i := thread']> l)). simpl.
    assert (Thread.ruby_thread <$> <[i := thread']> l
            = Thread.ruby_thread <$> l) as Hmap.
    { rewrite list_fmap_insert. apply list_insert_id.
      rewrite list_lookup_fmap, Hi. simpl. congruence. }
    split; [done|].
    split; [split; [|split; [|split]]|split; [|split; [|split]]].
    + by apply (set_state_table_ok h fl (ThreadTable.mk l) new_state th fl'
                  (ThreadTable.mk (<[i := thread']> l))).
    + by rewrite Hmap.
    + apply Forall_insert; [done|]. intros Hrun.
      rewrite decide_True in Hnat by done. destruct Hnat as [-> _]. done.
    + apply Forall_insert; [done|]. rewrite Hsl.
      by eapply (Forall_lookup_1 _ _ _ _ Hrle).
    + rewrite Hmap, decide_True, app_nil_r; [done|].
      apply list_elem_of_fmap. exists thread.
      split; [done|by eapply list_elem_of_lookup_2].
    + rewrite decide_True, app_nil_r.
      * rewrite list_fmap_insert. apply list_insert_id.
        rewrite list_lookup_fmap, Hi. simpl. congruence.
      * apply list_elem_of_fmap. exists thread.
        split; [done|by eapply list_elem_of_lookup_2].
    + intros j t Hj Hne. rewrite list_lookup_insert_ne; [done|].
      intros <-. congruence.
    + intros j t' Hj Hrt' Hrun.
      destruct (decide (j = i)) as [->|Hji].
      * rewrite list_lookup_insert_eq in Hj by (by eapply lookup_lt_Some).
        injection Hj as <-. by rewrite decide_True in Hnat.
      * rewrite list_lookup_insert_ne in Hj by done.
        assert (i = j); [|done].
        eapply (NoDup_lookup _ _ _ th Hnd);
          rewrite list_lookup_fmap; [rewrite Hi|rewrite Hj]; simpl;
          congruence.
  - pose proof Hfind as Hnone%list_find_None.
    exists fl,
      (ThreadTable.mk (l ++ [Thread.new h new_state (Host.pthread_self h) th])).
    simpl.
    assert (th ∉ Thread.ruby_thread <$> l) as Hnotin.
    { intros (t & -> & Ht)%list_elem_of_fmap.
      by eapply (proj1 (Forall_forall _ _) Hnone). }
    assert (ThreadTable.set_state h fl (ThreadTable.mk l) new_state th
            = Ok (fl, ThreadTable.mk
                        (l ++ [Thread.new h new_state (Host.pthread_self h) th])))
      as Hset by (by apply (set_state_new h fl (ThreadTable.mk l))).
    split; [done|].
    split; [split; [|split; [|split]]|split; [|split; [|split]]].
    + by apply (set_state_table_ok h fl (ThreadTable.mk l) new_state th fl
                  (ThreadTable.mk
                     (l ++ [Thread.new h new_state (Host.pthread_self h) th]))).
    + rewrite fmap_app. simpl. apply NoDup_app. split; [done|].
      split; [|apply NoDup_singleton].
      intros x Hx ->%list_elem_of_singleton. done.
    + apply Forall_app. split; [done|]. by constructor.
    + apply Forall_app. split; [done|]. constructor; [|done].
      apply run_length_encoded_new.
    + rewrite decide_False by done. by rewrite fmap_app.
    + rewrite decide_False by done. by rewrite fmap_app.
    + intros j t Hj _. by apply lookup_app_l_Some.
    + intros j t' Hj Hrt' _.
      apply lookup_snoc_Some in Hj as [[Hlt Hj]|[_ <-]]; [|done].
      exfalso. apply Hnotin. apply list_elem_of_fmap. exists t'.
      split; [done|by eapply list_elem_of_lookup_2].
Qed.

(** A thread that has samples is suspended. *)
Lemma notification_keeps_table_witness :
  ∃ fl' tbl',
    ThreadTable.set_state host0 FrameList.new (ThreadTable.mk [thread_sampled])
      Thread.SUSPENDED 1 = Ok (fl', tbl') ∧
    threads_ok fl' (ThreadTable.list tbl') ∧
    Thread.ruby_thread <$> ThreadTable.list tbl' =
      (Thread.ruby_thread
         <$> ThreadTable.list (ThreadTable.mk [thread_sampled])) ++
      (if decide (1%Z ∈ Thread.ruby_thread
                     <$> ThreadTable.list (ThreadTable.mk [thread_sampled]))
       then [] else [1%Z]) ∧
    Thread.samples <$> ThreadTable.list tbl' =
      (Thread.samples <$> ThreadTable.list (ThreadTable.mk [thread_sampled])) ++
      (if decide (1%Z ∈ Thread.ruby_thread
                     <$> ThreadTable.list (ThreadTable.mk [thread_sampled]))
       then [] else [SampleList.new]) ∧
    (∀ i t,
       ThreadTable.list (ThreadTable.mk [thread_sampled]) !! i = Some t →
       Thread.ruby_thread t ≠ 1%Z →
       ThreadTable.list tbl' !! i = Some t) ∧
    (∀ i t', ThreadTable.list tbl' !! i = Some t' →
             Thread.ruby_thread t' = 1%Z →
             Thread.state t' = Thread.RUNNING →
             Thread.pthread_id t' = Host.pthread_self host0 ∧
             Thread.native_tid t' = Host.native_thread_id host0).
Proof.
  apply (notification_keeps_table host0 FrameList.new
           (ThreadTable.mk [thread_sampled]) Thread.SUSPENDED 1).
  - apply threads_ok_sampled.
  - simpl; lia.
  - intros t Ht%list_elem_of_singleton _. subst t.
    unfold illegal_transitions. intros Hin. simpl in Hin. not_in_list Hin.
Defined.

(** ** One pass of the sampler over the table *)

Lemma sampled_from_refl t : sampled_from t t.
Proof. by destruct t. Qed.

(** The body of the sampler loop on one record. *)
Lemma sample_one_total target sample_start fl live t :
  wf fl → cache_ok fl (Thread.translator t) → RawSample.wf live →
  (Thread.state t = Thread.RUNNING → Thread.pthread_id t ≠ 0%Z) →
  run_length_encoded (Thread.samples t) →
  (Z.of_nat (length (decode (Thread.samples t))) < SampleList.INT_MAX)%Z →
  ∃ fl' live' t',
    TimeCollector.sample_one target sample_start fl live t
      = Ok (fl', live', t') ∧
    sampled_from t t' ∧
    run_length_encoded (Thread.samples t') ∧
    (decode (Thread.samples t') = decode (Thread.samples t) ∨
     ∃ k, decode (Thread.samples t') = decode (Thread.samples t) ++ [k]) ∧
    (Thread.state t = Thread.SUSPENDED →
     fl' = fl ∧
     decode (Thread.samples t') =
       decode (Thread.samples t) ++
       [(Thread.stack_on_suspend_idx t, Thread.native_tid t, CATEGORY_IDLE)]) ∧
    (Thread.state t ≠ Thread.RUNNING → Thread.state t ≠ Thread.SUSPENDED →
     fl' = fl ∧ t' = t).
Proof.
  intros Hwf Hc Hlive Hid Hrle Hroom. unfold TimeCollector.sample_one.
  destruct (decide (Thread.state t = Thread.RUNNING)) as [Hrun|Hrun].
  - unfold GlobalSignalHandler.record_sample, assert.
    rewrite bool_decide_eq_true_2 by auto. bind_step.
    set (s := RawSample.sample target live).
    assert (RawSample.wf s) as Hs by (by apply RawSample_sample_wf).
    destruct (RawSample.gc s).
    { exists fl, s, t. split; [done|]. split; [apply sampled_from_refl|].
      split; [done|]. split; [by left|]. split; [congruence|done]. }
    unfold TimeCollector.record_sample.
    destruct (RawSample.empty s); simpl negb; cbv iota.
    { bind_step. exists fl, s, t. split; [done|].
      split; [apply sampled_from_refl|].
      split; [done|]. split; [by left|]. split; [congruence|done]. }
    destruct (translate_ok s Hs fl (Thread.translator t) Hwf Hc)
      as (fl' & tr' & q & Htr & _).
    rewrite Htr. bind_step.
    destruct (record_sample_step (Thread.samples t) (ptr_index q)
                sample_start (Thread.native_tid t) CATEGORY_NORMAL Hrle Hroom)
      as (sl' & Hrec & Hrle' & Hdec & _).
    rewrite Hrec. bind_step.
    exists fl', s, (Thread.with_samples (Thread.with_translator t tr') sl').
    split; [done|]. split; [by destruct t|]. split; [done|].
    split; [right; eauto|]. split; [congruence|done].
  - destruct (decide (Thread.state t = Thread.SUSPENDED)) as [Hsus|Hsus].
    + destruct (record_sample_step (Thread.samples t)
                  (Thread.stack_on_suspend_idx t) sample_start
                  (Thread.native_tid t) CATEGORY_IDLE Hrle Hroom)
        as (sl' & Hrec & Hrle' & Hdec & _).
      rewrite Hrec. bind_step.
      exists fl, live, (Thread.with_samples t sl').
      split; [done|]. split; [by destruct t|]. split; [done|].
      split; [right; eauto|]. split; [done|done].
    + exists fl, live, t. split; [done|]. split; [apply sampled_from_refl|].
      split; [done|]. split; [by left|]. split; [done|done].
Qed.

Lemma sample_threads_total targets sample_start l : ∀ i fl live,
  table_ok fl l → RawSample.wf live →
  Forall (λ t, Thread.state t = Thread.RUNNING → Thread.pthread_id t ≠ 0%Z) l →
  Forall (λ t, run_length_encoded (Thread.samples t)) l →
  samples_have_room l →
  ∃ fl' live' l',
    TimeCollector.sample_threads targets sample_start i fl live l
      = Ok (fl', live', l') ∧
    Forall2 (λ t t',
      sampled_from t t' ∧
      run_length_encoded (Thread.samples t') ∧
      (decode (Thread.samples t') = decode (Thread.samples t) ∨
       ∃ k, decode (Thread.samples t') = decode (Thread.samples t) ++ [k]) ∧
      (Thread.state t = Thread.SUSPENDED →
       decode (Thread.samples t') =
         decode (Thread.samples t) ++
         [(Thread.stack_on_suspend_idx t, Thread.native_tid t,
           CATEGORY_IDLE)]) ∧
      (Thread.state t ≠ Thread.RUNNING → Thread.state t ≠ Thread.SUSPENDED →
       t' = t)) l l'.
Proof.
  induction l as [|t l IH]; intros i fl live [Hwf Hcs] Hlive Hids Hrle Hroom.
  - exists fl, live, []. split; [done|constructor].
  - apply Forall_cons in Hcs as [Hc Hcs], Hids as [Hid Hids],
      Hrle as [Hr Hrle], Hroom as [Hro Hroom].
    destruct (sample_one_total (targets i) sample_start fl live t
                Hwf Hc Hlive Hid Hr Hro)
      as (fl1 & live1 & t' & Hone & Hfrom & Hrle' & Hdec & Hsus & Hidle).
    destruct (sample_one_ok _ _ _ _ _ _ _ _ Hwf Hc Hlive Hone)
      as (Hwf1 & Hext1 & _ & Hlive1).
    destruct (IH (S i) fl1 live1) as (fl' & live' & l' & Hrest & Hall);
      [|done|done|done|exact Hroom|].
    { split; [done|]. eapply Forall_impl; [exact Hcs|]. simpl.
      intros t0. by apply cache_ok_ext. }
    exists fl', live', (t' :: l'). simpl. rewrite Hone. bind_step.
    rewrite Hrest. bind_step. split; [done|].
    constructor; [|done].
    split; [done|]. split; [done|]. split; [done|].
    split; [intros Hs; by apply Hsus|intros; by apply Hidle].
Qed.

Lemma sampled_from_fields t t' :
  sampled_from t t' →
  Thread.ruby_thread t' = Thread.ruby_thread t ∧
  Thread.state t' = Thread.state t ∧
  Thread.pthread_id t' = Thread.pthread_id t ∧
  Thread.markers t' = Thread.markers t.
Proof. intros ->. by destruct t. Qed.

(** X21. One pass of the sampler over a table in order, whose sample
    lists have room, returns; it leaves the table in order and of the
    same length, and changes nothing of any record but its samples and
    its translator: state, markers, ids and time stamps are as before.
    Every thread gains at most one sample; a SUSPENDED thread gains
    exactly one, idle, at the stack recorded when it was suspended; a
    thread that is neither RUNNING nor SUSPENDED is left as it is. *)
Theorem sampler_pass_keeps_table :
  ∀ (targets : nat → Host.t) (sample_start : TimeStamp.t)
    (fl : FrameList.t) (live : RawSample.t) (l : list Thread.t),
    threads_ok fl l → samples_have_room l → RawSample.wf live →
    ∃ fl' live' l',
      TimeCollector.sample_threads targets sample_start 0 fl live l
        = Ok (fl', live', l') ∧
      threads_ok fl' l' ∧ RawSample.wf live' ∧ length l' = length l ∧
      ∀ i t t', l !! i = Some t → l' !! i = Some t' →
        sampled_from t t' ∧
        (decode (Thread.samples t') = decode (Thread.samples t) ∨
         ∃ k, decode (Thread.samples t') = decode (Thread.samples t) ++ [k]) ∧
        (Thread.state t = Thread.SUSPENDED →
         decode (Thread.samples t') =
           decode (Thread.samples t) ++
           [(Thread.stack_on_suspend_idx t, Thread.native_tid t,
             CATEGORY_IDLE)]) ∧
        (Thread.state t ≠ Thread.RUNNING → Thread.state t ≠ Thread.SUSPENDED →
         t' = t).
Proof.
  intros targets sample_start fl live l (Htab & Hnd & Hids & Hrle) Hroom
    Hlive.
  destruct (sample_threads_total targets sample_start l 0 fl live
              Htab Hlive Hids Hrle Hroom)
    as (fl' & live' & l' & Hrun & Hall).
  destruct (sample_threads_table_ok _ _ _ _ _ _ _ _ _ Htab Hlive Hrun)
    as (Htab' & _ & Hlive' & Hlen).
  exists fl', live', l'. split; [done|].
  split; [split; [done|split; [|split]]|].
  - replace (Thread.ruby_thread <$> l') with (Thread.ruby_thread <$> l);
      [done|].
    clear -Hall. induction Hall as [|t t' l l' (Hfrom & _) _ IH]; [done|].
    csimpl. rewrite IH. f_equal.
    by destruct (sampled_from_fields _ _ Hfrom) as (-> & _).
  - clear -Hall Hids.
    induction Hall as [|t t' l l' (Hfrom & _) _ IH]; [constructor|].
    apply Forall_cons in Hids as [Hid Hids]. constructor; [|by apply IH].
    destruct (sampled_from_fields _ _ Hfrom) as (_ & -> & -> & _). done.
  - clear -Hall.
    induction Hall as [|t t' l l' (_ & Hr & _) _ IH]; constructor; done.
  - split; [done|]. split; [done|].
    intros i t t' Ht Ht'.
    destruct (Forall2_lookup_lr _ _ _ _ _ _ Hall Ht Ht')
      as (Hfrom & _ & Hdec & Hsus & Hidle).
    done.
Qed.

Lemma sampler_pass_keeps_table_witness :
  ∃ fl' live' l',
    TimeCollector.sample_threads (λ _, host0) 300%Z 0 FrameList.new
      (RawSample.new (λ _, 0%Z))
      [Thread.new host0 Thread.RUNNING 7 1; Thread.new host0 Thread.SUSPENDED 7 2]
      = Ok (fl', live', l') ∧
    threads_ok fl' l' ∧ RawSample.wf live' ∧
    length l' = length [Thread.new host0 Thread.RUNNING 7 1;
                        Thread.new host0 Thread.SUSPENDED 7 2] ∧
    ∀ i t t',
      [Thread.new host0 Thread.RUNNING 7 1;
       Thread.new host0 Thread.SUSPENDED 7 2] !! i = Some t →
      l' !! i = Some t' →
      sampled_from t t' ∧
      (decode (Thread.samples t') = decode (Thread.samples t) ∨
       ∃ k, decode (Thread.samples t') = decode (Thread.samples t) ++ [k]) ∧
      (Thread.state t = Thread.SUSPENDED →
       decode (Thread.samples t') =
         decode (Thread.samples t) ++
         [(Thread.stack_on_suspend_idx t, Thread.native_tid t,
           CATEGORY_IDLE)]) ∧
      (Thread.state t ≠ Thread.RUNNING → Thread.state t ≠ Thread.SUSPENDED →
       t' = t).
Proof.
  apply (sampler_pass_keeps_table (λ _, host0) 300%Z FrameList.new
           (RawSample.new (λ _, 0%Z))
           [Thread.new host0 Thread.RUNNING 7 1;
            Thread.new host0 Thread.SUSPENDED 7 2]).
  - split.
    { split; [apply wf_new|]. repeat constructor; apply cache_ok_new. }
    split; [apply NoDup_cons; split;
              [intros Hin%list_elem_of_singleton; discriminate Hin
              |apply NoDup_singleton]|].
    split; [by repeat constructor|].
    repeat constructor; apply run_length_encoded_new.
  - repeat constructor.
  - apply RawSample_new_wf.
Defined.

(** ** The schedule over many ticks *)

Lemma reschedule_bounds prev interval complete :
  TimeStamp.in_range prev → TimeStamp.in_range interval →
  TimeStamp.in_range complete →
  (prev + interval < TimeStamp.modulus)%Z →
  (complete + interval < TimeStamp.modulus)%Z →
  (prev + interval ≤ TimeCollector.reschedule prev interval complete)%Z ∧
  (TimeCollector.reschedule prev interval complete
     ≤ Z.max prev complete + interval)%Z.
Proof.
  unfold TimeStamp.in_range, TimeCollector.reschedule, TimeStamp.add,
    TimeStamp.lt.
  intros Hp Hi Hc Hpi Hci.
  rewrite (Z.mod_small (prev + interval)) by lia.
  rewrite (Z.mod_small (complete + interval)) by lia.
  case_bool_decide; lia.
Qed.

(** X22. The sampler never runs ahead of its interval.  Over any number
    of iterations of the loop the scheduled time moves forward by at
    least one interval per iteration, and it never lies more than that
    many intervals after the latest of the first schedule and the times
    at which the passes ended, as long as that bound fits in 64 bits. *)
Theorem sampler_schedule_bounds :
  ∀ (tks : list TimeCollector.tick) (c c' : TimeCollector.t)
    (s s' : TimeCollector.sampler) (latest : Z),
    TimeStamp.in_range (TimeCollector.next_sample_schedule s) →
    (0 ≤ TimeCollector.interval c)%Z →
    (TimeCollector.next_sample_schedule s ≤ latest)%Z →
    Forall (λ tk, (0 ≤ TimeCollector.sample_complete tk ≤ latest)%Z) tks →
    (latest + Z.of_nat (length tks) * TimeCollector.interval c
       < TimeStamp.modulus)%Z →
    TimeCollector.iterations tks c s = Ok (c', s') →
    (TimeCollector.next_sample_schedule s
       + Z.of_nat (length tks) * TimeCollector.interval c
     ≤ TimeCollector.next_sample_schedule s')%Z ∧
    (TimeCollector.next_sample_schedule s'
     ≤ latest + Z.of_nat (length tks) * TimeCollector.interval c)%Z ∧
    TimeCollector.interval c' = TimeCollector.interval c.
Proof.
  induction tks as [|tk tks IH]; intros c c' s s' latest Hs Hi Hle Hall Hfit.
  - simpl. intros [= <- <-]. lia.
  - simpl TimeCollector.iterations.
    destruct (TimeCollector.iteration tk c s) as [[c1 s1]|] eqn:Hit; [|done].
    bind_step. intros Hrest.
    apply Forall_cons in Hall as [Htk Hall].
    destruct (iteration_schedule _ _ _ _ _ Hit) as [Hnext Hint].
    rewrite length_cons, Nat2Z.inj_succ in *.
    unfold TimeStamp.in_range in Hs.
    destruct (reschedule_bounds (TimeCollector.next_sample_schedule s)
                (TimeCollector.interval c) (TimeCollector.sample_complete tk))
      as [Hlo Hhi]; unfold TimeStamp.in_range; try nia.
    rewrite <- Hnext in Hlo, Hhi.
    destruct (IH c1 c' s1 s' (latest + TimeCollector.interval c)%Z)
      as (Hlo' & Hhi' & Hint'); rewrite ?Hint;
      [unfold TimeStamp.in_range; nia|done|lia| |nia|done|].
    { eapply Forall_impl; [exact Hall|]. simpl. intros; lia. }
    rewrite Hint in *. split; [nia|]. split; [nia|done].
Qed.

Lemma sampler_schedule_bounds_witness :
  ∃ c' s',
    TimeCollector.iterations [tick0; tick0] wall_sampled
      (TimeCollector.mk_sampler (RawSample.new (λ _, 0%Z)) 1000%Z)
      = Ok (c', s') ∧
    (TimeCollector.next_sample_schedule
       (TimeCollector.mk_sampler (RawSample.new (λ _, 0%Z)) 1000%Z)
       + Z.of_nat (length [tick0; tick0]) * TimeCollector.interval wall_sampled
     ≤ TimeCollector.next_sample_schedule s')%Z ∧
    (TimeCollector.next_sample_schedule s'
     ≤ 1900 + Z.of_nat (length [tick0; tick0])
              * TimeCollector.interval wall_sampled)%Z ∧
    TimeCollector.interval c' = TimeCollector.interval wall_sampled.
Proof.
  eexists _, _. split; [vm_compute; reflexivity|].
  eapply (sampler_schedule_bounds [tick0; tick0] wall_sampled _
            (TimeCollector.mk_sampler (RawSample.new (λ _, 0%Z)) 1000%Z) _
            1900%Z).
  - vm_compute. split; [discriminate|reflexivity].
  - vm_compute. discriminate.
  - vm_compute. discriminate.
  - repeat constructor; vm_compute; discriminate.
  - vm_compute. reflexivity.
  - vm_compute; reflexivity.
Defined.

(** ** Collectors: stopping and sampling by hand *)

Lemma omap_ext_in {A B} (f g : A → option B) (l : list A) :
  (∀ x, x ∈ l → f x = g x) → omap f l = omap g l.
Proof.
  induction l as [|x l IH]; intros Hfg; [done|]. csimpl.
  rewrite (Hfg x) by left. rewrite IH; [done|].
  intros y Hy. apply Hfg. by right.
Qed.

(** What the hooks of a garbage collection do when only the free hook
    is enabled: the objects freed are dropped from the map, the list of
    objects and the tree stay. *)
Lemma rb_gc_frees hooks : ∀ c,
  ∃ c', RetainedCollector.rb_gc false true hooks c = (c', Ok tt) ∧
    RetainedCollector.base c' = RetainedCollector.base c ∧
    RetainedCollector.object_list c' = RetainedCollector.object_list c ∧
    ∀ obj, RetainedCollector.object_frames c' !! obj
           = if decide (obj ∈ freed hooks) then None
             else RetainedCollector.object_frames c !! obj.
Proof.
  induction hooks as [|[h o|o] hooks IH]; intros c.
  - exists c. split; [done|]. split; [done|]. split; [done|].
    intros obj. rewrite decide_False; [done|]. unfold freed. simpl.
    apply not_elem_of_nil.
  - destruct (IH c) as (c' & Hgc & Hb & Hl & Hm).
    exists c'. split; [done|]. split; [done|]. split; [done|]. exact Hm.
  - destruct (IH (RetainedCollector.freeobj_i c o)) as (c' & Hgc & Hb & Hl & Hm).
    exists c'. split; [done|]. split; [done|]. split; [done|].
    intros obj. rewrite Hm. unfold freed. csimpl. fold (freed hooks).
    destruct (decide (obj = o)) as [->|Hne].
    + rewrite (decide_True (P := o ∈ o :: freed hooks)) by left.
      case_decide; [done|]. apply lookup_delete_eq.
    + rewrite lookup_delete_ne by done.
      destruct (decide (obj ∈ freed hooks)) as [Hin|Hnin].
      * rewrite decide_True by (by right). done.
      * rewrite decide_False; [done|].
        intros [?|?]%elem_of_cons; done.
Qed.

(** A garbage collection with both hooks enabled, on a well-formed tree
    and with every allocation where a stack can be captured: the tree
    only grows, the objects allocated are appended to the list; when
    nothing is allocated the tree stays and the objects freed are dropped
    from the map. *)
Lemma rb_gc_total hooks : ∀ c,
  wf (BaseCollector.frame_list (RetainedCollector.base c)) →
  allocations_captured hooks →
  ∃ c', RetainedCollector.rb_gc true true hooks c = (c', Ok tt) ∧
    wf (BaseCollector.frame_list (RetainedCollector.base c')) ∧
    ext (BaseCollector.frame_list (RetainedCollector.base c))
        (BaseCollector.frame_list (RetainedCollector.base c')) ∧
    BaseCollector.running (RetainedCollector.base c')
      = BaseCollector.running (RetainedCollector.base c) ∧
    BaseCollector.started_at (RetainedCollector.base c')
      = BaseCollector.started_at (RetainedCollector.base c) ∧
    RetainedCollector.object_list c'
      = RetainedCollector.object_list c ++ allocated hooks ∧
    (allocated hooks = [] →
     RetainedCollector.base c' = RetainedCollector.base c ∧
     ∀ obj, RetainedCollector.object_frames c' !! obj
            = if decide (obj ∈ freed hooks) then None
              else RetainedCollector.object_frames c !! obj).
Proof.
  induction hooks as [|[h o|o] hooks IH]; intros c Hwf Hall.
  - exists c. split; [done|]. split; [done|]. split; [apply ext_refl|].
    split; [done|]. split; [done|]. split; [by rewrite app_nil_r|].
    intros _. split; [done|]. intros obj. rewrite decide_False; [done|].
    unfold freed. simpl. apply not_elem_of_nil.
  - apply Forall_cons in Hall as [Hlen Hall].
    set (s := RawSample.sample h (RawSample.new (Host.junk h))) in *.
    assert (RawSample.wf s) as Hs
      by (apply RawSample_sample_wf, RawSample_new_wf).
    destruct (stack_index_post _ s Hwf Hs Hlen)
      as (fl' & i & Hidx & Hwf' & Hext' & _).
    destruct (IH (RetainedCollector.mk
                    (BaseCollector.with_frame_list (RetainedCollector.base c) fl')
                    (RetainedCollector.emplace
                       (RetainedCollector.object_frames c) o (Z.of_nat i))
                    (RetainedCollector.object_list c ++ [o])) Hwf' Hall)
      as (c' & Hgc & Hwf2 & Hext2 & Hrun & Hst & Hl & _).
    exists c'. split.
    { cbn [RetainedCollector.rb_gc].
      unfold RetainedCollector.newobj_i, RetainedCollector.record.
      cbv zeta. fold s. rewrite Hidx. exact Hgc. }
    split; [done|]. split; [by eapply ext_trans|].
    split; [done|]. split; [done|].
    split; [rewrite Hl; unfold allocated; csimpl; by rewrite <- app_assoc|].
    unfold allocated. csimpl. done.
  - apply Forall_cons in Hall as [_ Hall].
    destruct (IH (RetainedCollector.freeobj_i c o) Hwf Hall)
      as (c' & Hgc & Hwf2 & Hext2 & Hrun & Hst & Hl & Hm).
    exists c'. split; [done|]. split; [done|]. split; [done|].
    split; [done|]. split; [done|]. split; [done|].
    intros Hnone. destruct (Hm Hnone) as [Hb Hm']. split; [done|].
    intros obj. rewrite Hm'. unfold freed. csimpl. fold (freed hooks).
    destruct (decide (obj = o)) as [->|Hne].
    + rewrite (decide_True (P := o ∈ o :: freed hooks)) by left.
      case_decide; [done|]. apply lookup_delete_eq.
    + rewrite lookup_delete_ne by done.
      destruct (decide (obj ∈ freed hooks)) as [Hin|Hnin].
      * rewrite decide_True by (by right). done.
      * rewrite decide_False; [done|].
        intros [?|?]%elem_of_cons; done.
Qed.

(** X23. [stop] on a running collector returns the result with the tree
    as it is when the result is built and then clears the tree and the
    running flag, so that a second [stop] raises.  The custom collector
    hands over and keeps its samples, the wall-clock collector its thread
    records (neither has a [reset] of its own).  The retained collector
    first runs two garbage collections, [first_gc] with both hooks
    enabled and [second_gc] with the free hook only: on a well-formed
    tree, and when every allocation of the first happens where a stack
    can be captured, the tree handed over is the one after [first_gc] and
    the result lists the stacks of the objects in the list then, those
    freed during [second_gc] left out; the collector then forgets its
    objects. *)
Theorem collector_stop_hands_over_tree :
  ∀ (first_gc second_gc : list RetainedCollector.gc_hook) (c : collector),
    BaseCollector.running (collector_base c) = true →
    match c with
    | Retained a =>
        wf (BaseCollector.frame_list (RetainedCollector.base a)) ∧
        allocations_captured first_gc
    | _ => True
    end →
    ∃ c' fl threads,
      collector_stop first_gc second_gc c = (c', Ok (Result fl threads)) ∧
      BaseCollector.running (collector_base c') = false ∧
      BaseCollector.frame_list (collector_base c') = FrameList.clear fl ∧
      BaseCollector.started_at (collector_base c')
        = BaseCollector.started_at (collector_base c) ∧
      (∀ g1 g2,
         collector_stop g1 g2 c' = (c', Err (Raised "collector not running"))) ∧
      match c, c' with
      | Custom a, Custom a' =>
          fl = BaseCollector.frame_list (CustomCollector.base a) ∧
          threads = [(0%Z, CustomCollector.samples a)] ∧
          CustomCollector.samples a' = CustomCollector.samples a
      | Retained a, Retained a' =>
          ∃ a1,
            RetainedCollector.rb_gc true true first_gc
              (RetainedCollector.mk
                 (BaseCollector.mk false
                    (BaseCollector.frame_list (RetainedCollector.base a))
                    (BaseCollector.started_at (RetainedCollector.base a)))
                 (RetainedCollector.object_frames a)
                 (RetainedCollector.object_list a))
              = (a1, Ok tt) ∧
            fl = BaseCollector.frame_list (RetainedCollector.base a1) ∧
            wf fl ∧
            ext (BaseCollector.frame_list (RetainedCollector.base a)) fl ∧
            RetainedCollector.object_list a1
              = RetainedCollector.object_list a ++ allocated first_gc ∧
            (allocated first_gc = [] →
             fl = BaseCollector.frame_list (RetainedCollector.base a) ∧
             ∀ obj, RetainedCollector.object_frames a1 !! obj
                    = if decide (obj ∈ freed first_gc) then None
                      else RetainedCollector.object_frames a !! obj) ∧
            threads =
              [(0%Z,
                SampleList.mk
                  (omap (λ obj, if decide (obj ∈ freed second_gc) then None
                                else RetainedCollector.object_frames a1 !! obj)
                     (RetainedCollector.object_list a1))
                  [] [] [] [])] ∧
            RetainedCollector.object_list a' = [] ∧
            RetainedCollector.object_frames a' = ∅
      | Wall a, Wall a' =>
          fl = BaseCollector.frame_list (TimeCollector.base a) ∧
          threads = (λ th, (Thread.ruby_thread_id th, Thread.samples th))
                      <$> ThreadTable.list (TimeCollector.threads a) ∧
          TimeCollector.threads a' = TimeCollector.threads a ∧
          TimeCollector.running a' = false
      | _, _ => False
      end.
Proof.
  intros first_gc second_gc [a|a|a] Hrun Hpre; simpl in Hrun.
  - unfold collector_stop, virtual_stop, CustomCollector.stop,
      BaseCollector.stop.
    rewrite Hrun; cbn [negb].
    eexists _, _, _; split; [reflexivity|]; cbn.
    repeat split; reflexivity.
  - destruct Hpre as [Hwf Hall].
    set (a0 := RetainedCollector.mk
                 (BaseCollector.mk false
                    (BaseCollector.frame_list (RetainedCollector.base a))
                    (BaseCollector.started_at (RetainedCollector.base a)))
                 (RetainedCollector.object_frames a)
                 (RetainedCollector.object_list a)).
    destruct (rb_gc_total first_gc a0 Hwf Hall)
      as (a1 & Hgc1 & Hwf1 & Hext1 & Hrun1 & Hst1 & Hl1 & Hm1).
    destruct (rb_gc_frees second_gc a1) as (a2 & Hgc2 & Hb2 & Hl2 & Hm2).
    exists (Retained (RetainedCollector.reset a2)),
      (BaseCollector.frame_list (RetainedCollector.base a1)),
      [(0%Z,
        SampleList.mk
          (omap (λ obj, if decide (obj ∈ freed second_gc) then None
                        else RetainedCollector.object_frames a1 !! obj)
             (RetainedCollector.object_list a1))
          [] [] [] [])].
    split.
    { unfold collector_stop, virtual_stop, RetainedCollector.stop,
        BaseCollector.stop.
      rewrite Hrun; cbn [negb]. fold a0. rewrite Hgc1, Hgc2.
      unfold RetainedCollector.build_collector_result.
      rewrite Hb2, Hl2.
      rewrite (omap_ext_in _ _ _ (λ obj _, Hm2 obj)). reflexivity. }
    cbn [collector_base RetainedCollector.reset RetainedCollector.base
         BaseCollector.reset BaseCollector.running BaseCollector.frame_list
         BaseCollector.started_at].
    rewrite Hb2.
    split; [done|]. split; [done|]. split; [done|].
    split.
    { intros g1 g2. unfold collector_stop, virtual_stop,
        RetainedCollector.stop, BaseCollector.stop. simpl.
      rewrite Hb2, Hrun1. simpl.
      unfold RetainedCollector.reset. by rewrite Hb2. }
    exists a1. split; [done|]. split; [done|]. split; [done|].
    split; [done|]. split; [done|].
    split.
    { intros Hnone. destruct (Hm1 Hnone) as [Hb1 Hm1']. split; [|done].
      by rewrite Hb1. }
    done.
  - unfold collector_stop, virtual_stop, TimeCollector.stop,
      BaseCollector.stop.
    rewrite Hrun; cbn [negb].
    eexists _, _, _; split; [reflexivity|]; cbn.
    repeat split; reflexivity.
Qed.

(** The collector that tracks the objects 5, 6 and 7 is stopped; an
    object 9 is allocated and 5 is freed in the first garbage collection,
    7 in the second. *)
Lemma collector_stop_hands_over_tree_witness :
  ∃ c' fl threads,
    collector_stop [RetainedCollector.NEWOBJ host0 9; RetainedCollector.FREEOBJ 5]
      [RetainedCollector.FREEOBJ 7] (Retained retained_tracking)
      = (c', Ok (Result fl threads)) ∧
    BaseCollector.running (collector_base c') = false ∧
    BaseCollector.frame_list (collector_base c') = FrameList.clear fl ∧
    BaseCollector.started_at (collector_base c')
      = BaseCollector.started_at (collector_base (Retained retained_tracking)) ∧
    (∀ g1 g2,
       collector_stop g1 g2 c' = (c', Err (Raised "collector not running"))) ∧
    match Retained retained_tracking, c' with
    | Custom a, Custom a' =>
        fl = BaseCollector.frame_list (CustomCollector.base a) ∧
        threads = [(0%Z, CustomCollector.samples a)] ∧
        CustomCollector.samples a' = CustomCollector.samples a
    | Retained a, Retained a' =>
        ∃ a1,
          RetainedCollector.rb_gc true true
            [RetainedCollector.NEWOBJ host0 9; RetainedCollector.FREEOBJ 5]
            (RetainedCollector.mk
               (BaseCollector.mk false
                  (BaseCollector.frame_list (RetainedCollector.base a))
                  (BaseCollector.started_at (RetainedCollector.base a)))
               (RetainedCollector.object_frames a)
               (RetainedCollector.object_list a))
            = (a1, Ok tt) ∧
          fl = BaseCollector.frame_list (RetainedCollector.base a1) ∧
          wf fl ∧
          ext (BaseCollector.frame_list (RetainedCollector.base a)) fl ∧
          RetainedCollector.object_list a1
            = RetainedCollector.object_list a
              ++ allocated [RetainedCollector.NEWOBJ host0 9;
                            RetainedCollector.FREEOBJ 5] ∧
          (allocated [RetainedCollector.NEWOBJ host0 9;
                      RetainedCollector.FREEOBJ 5] = [] →
           fl = BaseCollector.frame_list (RetainedCollector.base a) ∧
           ∀ obj, RetainedCollector.object_frames a1 !! obj
                  = if decide (obj ∈ freed [RetainedCollector.NEWOBJ host0 9;
                                            RetainedCollector.FREEOBJ 5])
                    then None
                    else RetainedCollector.object_frames a !! obj) ∧
          threads =
            [(0%Z,
              SampleList.mk
                (omap (λ obj,
                         if decide (obj ∈ freed [RetainedCollector.FREEOBJ 7])
                         then None
                         else RetainedCollector.object_frames a1 !! obj)
                   (RetainedCollector.object_list a1))
                [] [] [] [])] ∧
          RetainedCollector.object_list a' = [] ∧
          RetainedCollector.object_frames a' = ∅
    | Wall a, Wall a' =>
        fl = BaseCollector.frame_list (TimeCollector.base a) ∧
        threads = (λ th, (Thread.ruby_thread_id th, Thread.samples th))
                    <$> ThreadTable.list (TimeCollector.threads a) ∧
        TimeCollector.threads a' = TimeCollector.threads a ∧
        TimeCollector.running a' = false
    | _, _ => False
    end.
Proof.
  apply (collector_stop_hands_over_tree
           [RetainedCollector.NEWOBJ host0 9; RetainedCollector.FREEOBJ 5]
           [RetainedCollector.FREEOBJ 7] (Retained retained_tracking)).
  - reflexivity.
  - split; [apply wf_tree_ab|].
    apply Forall_cons. split; [vm_compute; discriminate|].
    apply Forall_cons. split; [exact I|]. apply Forall_nil_2.
Defined.

Lemma empty_capture_len h :
  Host.ruby_native_thread_p h = false ∨ Host.rb_during_gc h = true ∨
    Host.rb_profile_frames h = [] →
  RawSample.len (RawSample.sample h (RawSample.new (Host.junk h))) = 0.
Proof.
  intros [Hn|[Hgc|Hfr]]; [apply RawSample_sample_empty; by left
                         |apply RawSample_sample_empty; by right|].
  unfold RawSample.sample, RawSample.profile_frames.
  destruct (Host.ruby_native_thread_p h), (Host.rb_during_gc h); simpl;
    try done.
  rewrite Hfr. by rewrite take_nil.
Qed.

(** X24. Interning an empty capture throws.  When the calling thread is
    not a native Ruby thread, or GC is running, or the host offers no
    frame, [collector.sample] on a custom collector and the allocation
    hook of the retained collector throw [std::runtime_error("empty
    stack")] and leave the collector as it was.  [sample] on the two
    collectors that do not sample by hand raises whatever the host
    answers. *)
Theorem empty_capture_is_thrown :
  ∀ (h : Host.t) (c : CustomCollector.t) (rc : RetainedCollector.t)
    (wc : TimeCollector.t) (obj : Z),
    (Host.ruby_native_thread_p h = false ∨ Host.rb_during_gc h = true ∨
       Host.rb_profile_frames h = [] →
     collector_sample h (Custom c) = (Custom c, Err (Thrown "empty stack")) ∧
     RetainedCollector.newobj_i h rc obj = (rc, Err (Thrown "empty stack"))) ∧
    collector_sample h (Retained rc)
      = (Retained rc,
         Err (Raised "collector doesn't support manual sampling")) ∧
    collector_sample h (Wall wc)
      = (Wall wc, Err (Raised "collector doesn't support manual sampling")).
Proof.
  intros h c rc wc obj. split; [|split; [by destruct rc|by destruct wc]].
  intros Hempty. apply empty_capture_len in Hempty.
  assert (∀ fl, FrameList.stack_index fl
                  (RawSample.sample h (RawSample.new (Host.junk h)))
                = Err (Thrown "empty stack")) as Hthrow.
  { intros fl. unfold FrameList.stack_index, RawSample.empty.
    by rewrite bool_decide_eq_true_2. }
  split.
  - unfold collector_sample, virtual_sample, CustomCollector.sample.
    cbv zeta. by rewrite Hthrow.
  - unfold RetainedCollector.newobj_i, RetainedCollector.record.
    cbv zeta. by rewrite Hthrow.
Qed.

(** On a thread that is not native the custom collector and the
    allocation hook throw; on [host0], where two frames are on offer, the
    retained and the wall-clock collector still raise. *)
Lemma empty_capture_is_thrown_witness :
  (collector_sample host_foreign (Custom CustomCollector.new)
     = (Custom CustomCollector.new, Err (Thrown "empty stack")) ∧
   RetainedCollector.newobj_i host_foreign RetainedCollector.new 5
     = (RetainedCollector.new, Err (Thrown "empty stack"))) ∧
  collector_sample host0 (Retained retained_tracking)
    = (Retained retained_tracking,
       Err (Raised "collector doesn't support manual sampling")) ∧
  collector_sample host0 (Wall wall_sampled)
    = (Wall wall_sampled,
       Err (Raised "collector doesn't support manual sampling")).
Proof.
  split.
  - apply (empty_capture_is_thrown host_foreign CustomCollector.new
             RetainedCollector.new (TimeCollector.new 500%Z) 5%Z).
    left. reflexivity.
  - apply (empty_capture_is_thrown host0 CustomCollector.new
             retained_tracking wall_sampled 5%Z).
Defined.

(** X25. [collector.sample] on a custom collector, running or not,
    whose tree is well formed and whose sample list has room: when the
    capture is not empty it returns [true], interns the captured stack
    and records one sample of normal category for thread id 0 at the
    node whose path is that stack. *)
Theorem custom_sample_records :
  ∀ (h : Host.t) (c : CustomCollector.t),
    wf (BaseCollector.frame_list (CustomCollector.base c)) →
    run_length_encoded (CustomCollector.samples c) →
    (Z.of_nat (length (decode (CustomCollector.samples c)))
       < SampleList.INT_MAX)%Z →
    RawSample.len (RawSample.sample h (RawSample.new (Host.junk h))) ≠ 0 →
    ∃ c' r,
      collector_sample h (Custom c) = (Custom c', Ok Qtrue) ∧
      wf (BaseCollector.frame_list (CustomCollector.base c')) ∧
      FrameList.path (BaseCollector.frame_list (CustomCollector.base c')) r
        = RawSample.stack (RawSample.sample h (RawSample.new (Host.junk h))) ∧
      decode (CustomCollector.samples c')
        = decode (CustomCollector.samples c) ++ [(r, 0%Z, CATEGORY_NORMAL)] ∧
      run_length_encoded (CustomCollector.samples c') ∧
      BaseCollector.running (CustomCollector.base c')
        = BaseCollector.running (CustomCollector.base c).
Proof.
  intros h c Hwf Hrle Hroom Hlen.
  set (s := RawSample.sample h (RawSample.new (Host.junk h))) in *.
  assert (RawSample.wf s) as Hs
    by (apply RawSample_sample_wf, RawSample_new_wf).
  destruct (stack_index_post _ s Hwf Hs Hlen)
    as (fl' & i & Hidx & Hwf' & _ & _ & _ & Hpath & _).
  destruct (record_sample_step (CustomCollector.samples c) (Z.of_nat i)
              (Host.now h) 0%Z CATEGORY_NORMAL Hrle Hroom)
    as (sl' & Hrec & Hrle' & Hdec & _).
  exists (CustomCollector.mk
            (BaseCollector.with_frame_list (CustomCollector.base c) fl') sl'),
    (Z.of_nat i).
  split.
  { unfold collector_sample, virtual_sample, CustomCollector.sample.
    cbv zeta. fold s. rewrite Hidx.
    cbn [CustomCollector.samples CustomCollector.base]. by rewrite Hrec. }
  done.
Qed.

Lemma custom_sample_records_witness :
  ∃ c' r,
    collector_sample host0 (Custom CustomCollector.new)
      = (Custom c', Ok Qtrue) ∧
    wf (BaseCollector.frame_list (CustomCollector.base c')) ∧
    FrameList.path (BaseCollector.frame_list (CustomCollector.base c')) r
      = RawSample.stack
          (RawSample.sample host0 (RawSample.new (Host.junk host0))) ∧
    decode (CustomCollector.samples c')
      = decode (CustomCollector.samples CustomCollector.new)
        ++ [(r, 0%Z, CATEGORY_NORMAL)] ∧
    run_length_encoded (CustomCollector.samples c') ∧
    BaseCollector.running (CustomCollector.base c')
      = BaseCollector.running (CustomCollector.base CustomCollector.new).
Proof.
  apply (custom_sample_records host0 CustomCollector.new).
  - apply wf_new.
  - apply run_length_encoded_new.
  - vm_compute. reflexivity.
  - vm_compute. discriminate.
Defined.

(** ** The retained collector: objects and their stacks *)

(** X26. The allocation hook of the retained collector, on a
    well-formed tree and a capture that is not empty: the object is
    appended to the list of objects and is tracked with the node of the
    captured stack, unless its address is tracked already, in which case
    the stack it is tracked with stays.  The result then lists one sample
    for every earlier entry of the list with that address, all at the
    stack the address is tracked with now, and one more for the new
    entry; the samples of other addresses are as before. *)
Theorem retained_record_tracks :
  ∀ (h : Host.t) (c : RetainedCollector.t) (obj : Z),
    wf (BaseCollector.frame_list (RetainedCollector.base c)) →
    RawSample.len (RawSample.sample h (RawSample.new (Host.junk h))) ≠ 0 →
    ∃ c' r,
      RetainedCollector.newobj_i h c obj = (c', Ok tt) ∧
      wf (BaseCollector.frame_list (RetainedCollector.base c')) ∧
      FrameList.path (BaseCollector.frame_list (RetainedCollector.base c')) r
        = RawSample.stack (RawSample.sample h (RawSample.new (Host.junk h))) ∧
      RetainedCollector.object_list c'
        = RetainedCollector.object_list c ++ [obj] ∧
      RetainedCollector.object_frames c' !! obj
        = Some (default r (RetainedCollector.object_frames c !! obj)) ∧
      (∀ o, o ≠ obj →
            RetainedCollector.object_frames c' !! o
            = RetainedCollector.object_frames c !! o) ∧
      RetainedCollector.result_samples c' =
        omap (λ o, if decide (o = obj)
                   then Some (default r (RetainedCollector.object_frames c
                                           !! obj))
                   else RetainedCollector.object_frames c !! o)
             (RetainedCollector.object_list c)
        ++ [default r (RetainedCollector.object_frames c !! obj)].
Proof.
  intros h c obj Hwf Hlen.
  set (s := RawSample.sample h (RawSample.new (Host.junk h))) in *.
  assert (RawSample.wf s) as Hs
    by (apply RawSample_sample_wf, RawSample_new_wf).
  destruct (stack_index_post _ s Hwf Hs Hlen)
    as (fl' & i & Hidx & Hwf' & _ & _ & _ & Hpath & _).
  exists (RetainedCollector.mk
            (BaseCollector.with_frame_list (RetainedCollector.base c) fl')
            (RetainedCollector.emplace (RetainedCollector.object_frames c) obj
               (Z.of_nat i))
            (RetainedCollector.object_list c ++ [obj])),
    (Z.of_nat i).
  assert (∀ o,
    RetainedCollector.emplace (RetainedCollector.object_frames c) obj
      (Z.of_nat i) !! o
    = if decide (o = obj)
      then Some (default (Z.of_nat i)
                   (RetainedCollector.object_frames c !! obj))
      else RetainedCollector.object_frames c !! o) as Hlook.
  { intros o. unfold RetainedCollector.emplace.
    destruct (RetainedCollector.object_frames c !! obj) as [r0|] eqn:Hobj.
    - case_decide; [by subst|done].
    - case_decide; [subst; by rewrite lookup_insert_eq
                   |by rewrite lookup_insert_ne]. }
  split.
  { unfold RetainedCollector.newobj_i, RetainedCollector.record.
    cbv zeta. fold s. by rewrite Hidx. }
  split; [done|]. split; [done|]. split; [done|].
  split; [by rewrite Hlook, decide_True|].
  split; [intros o Ho; by rewrite Hlook, decide_False|].
  unfold RetainedCollector.result_samples. simpl.
  rewrite omap_app. simpl. rewrite Hlook, decide_True by done. simpl.
  f_equal. apply omap_ext_in. intros o _. apply Hlook.
Qed.

Lemma retained_record_tracks_witness :
  ∃ c' r,
    RetainedCollector.newobj_i host0 RetainedCollector.new 5 = (c', Ok tt) ∧
    wf (BaseCollector.frame_list (RetainedCollector.base c')) ∧
    FrameList.path (BaseCollector.frame_list (RetainedCollector.base c')) r
      = RawSample.stack
          (RawSample.sample host0 (RawSample.new (Host.junk host0))) ∧
    RetainedCollector.object_list c'
      = RetainedCollector.object_list RetainedCollector.new ++ [5%Z] ∧
    RetainedCollector.object_frames c' !! 5%Z
      = Some (default r
                (RetainedCollector.object_frames RetainedCollector.new
                   !! 5%Z)) ∧
    (∀ o, o ≠ 5%Z →
          RetainedCollector.object_frames c' !! o
          = RetainedCollector.object_frames RetainedCollector.new !! o) ∧
    RetainedCollector.result_samples c' =
      omap (λ o, if decide (o = 5%Z)
                 then Some (default r
                              (RetainedCollector.object_frames
                                 RetainedCollector.new !! 5%Z))
                 else RetainedCollector.object_frames RetainedCollector.new
                        !! o)
           (RetainedCollector.object_list RetainedCollector.new)
      ++ [default r
            (RetainedCollector.object_frames RetainedCollector.new !! 5%Z)].
Proof.
  apply (retained_record_tracks host0 RetainedCollector.new 5%Z).
  - apply wf_new.
  - vm_compute. discriminate.
Defined.

(** X27. The free hook of the retained collector removes every sample
    of the freed address from the result and nothing else: the list of
    objects and the tree stay, and the samples of other addresses are
    reported as before.  An object that is allocated and freed again
    leaves the result as if it had been freed without being
    allocated. *)
Theorem retained_free_forgets :
  ∀ (h : Host.t) (c : RetainedCollector.t) (obj : Z),
    RetainedCollector.result_samples (RetainedCollector.freeobj_i c obj)
      = omap (λ o, if decide (o = obj) then None
                   else RetainedCollector.object_frames c !! o)
             (RetainedCollector.object_list c) ∧
    RetainedCollector.object_list (RetainedCollector.freeobj_i c obj)
      = RetainedCollector.object_list c ∧
    RetainedCollector.base (RetainedCollector.freeobj_i c obj)
      = RetainedCollector.base c ∧
    (RetainedCollector.object_frames c !! obj = None →
     RetainedCollector.result_samples (RetainedCollector.freeobj_i c obj)
       = RetainedCollector.result_samples c) ∧
    RetainedCollector.result_samples
      (RetainedCollector.freeobj_i (RetainedCollector.newobj_i h c obj).1 obj)
      = RetainedCollector.result_samples (RetainedCollector.freeobj_i c obj).
Proof.
  intros h c obj.
  assert (∀ m : gmap Z Z, ∀ l : list Z,
            omap (λ o, delete obj m !! o) l
            = omap (λ o, if decide (o = obj) then None else m !! o) l)
    as Hdel.
  { intros m l. apply omap_ext_in. intros o _.
    case_decide; [subst; by rewrite lookup_delete_eq
                 |by rewrite lookup_delete_ne]. }
  split; [apply Hdel|]. split; [done|]. split; [done|]. split.
  - intros Hnone. unfold RetainedCollector.result_samples,
      RetainedCollector.freeobj_i. simpl.
    rewrite Hdel. apply omap_ext_in. intros o _.
    case_decide; [by subst|done].
  - unfold RetainedCollector.newobj_i, RetainedCollector.record.
    cbv zeta.
    destruct (FrameList.stack_index _ _) as [[fl r]|]; simpl; [|done].
    unfold RetainedCollector.result_samples, RetainedCollector.freeobj_i.
    simpl. rewrite !Hdel, omap_app. simpl.
    rewrite decide_True by done. simpl. rewrite app_nil_r.
    apply omap_ext_in. intros o _. case_decide; [done|].
    unfold RetainedCollector.emplace.
    destruct (RetainedCollector.object_frames c !! obj);
      [done|by rewrite lookup_insert_ne].
Qed.

(** ** The signal handler's reference count *)

Lemma handler_calls_post calls : ∀ g,
  (GlobalSignalHandler.sigprof g = GlobalSignalHandler.signal_handler
   ↔ (0 < GlobalSignalHandler.count g)%Z) →
  (∀ k, (0 ≤ GlobalSignalHandler.count g
             + handler_balance (take k calls))%Z) →
  (GlobalSignalHandler.count g + Z.of_nat (length calls)
     ≤ SampleList.INT_MAX)%Z →
  ∃ g',
    handler_calls g calls = Ok g' ∧
    GlobalSignalHandler.count g'
      = (GlobalSignalHandler.count g + handler_balance calls)%Z ∧
    (GlobalSignalHandler.sigprof g' = GlobalSignalHandler.signal_handler
     ↔ (0 < GlobalSignalHandler.count g')%Z).
Proof.
  induction calls as [|call calls IH]; intros [n d] Hinv Hpre Hroom;
    simpl in *.
  - exists (GlobalSignalHandler.mk n d). split; [done|].
    split; [simpl; lia|done].
  - pose proof (Hpre 0) as H0. pose proof (Hpre 1) as H1.
    simpl in H0, H1. rewrite ?take_0 in H1.
    assert (SampleList.INT_MAX = 2147483647%Z) as Hmax by done.
    destruct call; simpl in H1.
    + unfold GlobalSignalHandler.install. simpl.
      rewrite decide_False by lia.
      destruct (decide ((n + 1)%Z = 1%Z)) as [Hone|Hone]; bind_step.
      * destruct (IH (GlobalSignalHandler.mk (n + 1)
                        GlobalSignalHandler.signal_handler))
          as (g' & Hrun & Hcount & Hiff); simpl.
        { split; [lia|done]. }
        { intros k. specialize (Hpre (S k)). simpl in Hpre. lia. }
        { lia. }
        exists g'. split; [done|]. split; [simpl in *; lia|done].
      * destruct (IH (GlobalSignalHandler.mk (n + 1) d))
          as (g' & Hrun & Hcount & Hiff); simpl.
        { split; [intros Hd; apply Hinv in Hd; lia
                 |intros Hn; apply Hinv; lia]. }
        { intros k. specialize (Hpre (S k)). simpl in Hpre. lia. }
        { lia. }
        exists g'. split; [done|]. split; [simpl in *; lia|done].
    + unfold GlobalSignalHandler.uninstall. simpl.
      rewrite decide_False by lia.
      destruct (decide ((n - 1)%Z = 0%Z)) as [Hzero|Hzero]; bind_step.
      * destruct (IH (GlobalSignalHandler.mk (n - 1)
                        GlobalSignalHandler.SIG_IGN))
          as (g' & Hrun & Hcount & Hiff); simpl.
        { split; [done|lia]. }
        { intros k. specialize (Hpre (S k)). simpl in Hpre. lia. }
        { lia. }
        exists g'. split; [done|]. split; [simpl in *; lia|done].
      * destruct (IH (GlobalSignalHandler.mk (n - 1) d))
          as (g' & Hrun & Hcount & Hiff); simpl.
        { split; [intros Hd; apply Hinv in Hd; lia
                 |intros Hn; apply Hinv; lia]. }
        { intros k. specialize (Hpre (S k)). simpl in Hpre. lia. }
        { lia. }
        exists g'. split; [done|]. split; [simpl in *; lia|done].
Qed.

(** X28. The signal handler is reference counted.  After any sequence of
    [install] and [uninstall] calls on the process-wide instance in which
    no [uninstall] comes without an earlier [install] to match it, the
    count is the number of installs still open, and the [SIGPROF] handler
    is the profiler's exactly when that number is positive. *)
Theorem signal_handler_reference_count :
  ∀ (calls : list handler_call),
    (∀ k, (0 ≤ handler_balance (take k calls))%Z) →
    (Z.of_nat (length calls) ≤ SampleList.INT_MAX)%Z →
    ∃ g,
      handler_calls GlobalSignalHandler.get_instance calls = Ok g ∧
      GlobalSignalHandler.count g = handler_balance calls ∧
      (GlobalSignalHandler.sigprof g = GlobalSignalHandler.signal_handler
       ↔ (0 < GlobalSignalHandler.count g)%Z).
Proof.
  intros calls Hpre Hroom.
  destruct (handler_calls_post calls GlobalSignalHandler.get_instance)
    as (g & Hrun & Hcount & Hiff); simpl.
  - split; [done|lia].
  - intros k. specialize (Hpre k). lia.
  - lia.
  - exists g. split; [done|]. split; [simpl in Hcount; lia|done].
Qed.

Lemma signal_handler_reference_count_witness :
  ∃ g,
    handler_calls GlobalSignalHandler.get_instance
      [call_install; call_install; call_uninstall] = Ok g ∧
    GlobalSignalHandler.count g
      = handler_balance [call_install; call_install; call_uninstall] ∧
    (GlobalSignalHandler.sigprof g = GlobalSignalHandler.signal_handler
     ↔ (0 < GlobalSignalHandler.count g)%Z).
Proof.
  apply (signal_handler_reference_count
           [call_install; call_install; call_uninstall]).
  - intros [|[|[|k]]]; simpl; rewrite ?take_nil; simpl; lia.
  - vm_compute. discriminate.
Defined.

(** ** GC events and the exported markers *)

Lemma gc_events_post evs : ∀ c,
  Forall (λ ev, ev.2 ≠ TimeCollector.RUBY_INTERNAL_EVENT_GC_ENTER) evs →
  ∃ inner,
    GCMarkerTable.list (TimeCollector.gc_markers (gc_events c evs))
      = GCMarkerTable.list (TimeCollector.gc_markers c) ++ inner ∧
    length inner ≤ length evs ∧
    GCMarkerTable.last_gc_entry (TimeCollector.gc_markers (gc_events c evs))
      = GCMarkerTable.last_gc_entry (TimeCollector.gc_markers c) ∧
    TimeCollector.threads (gc_events c evs) = TimeCollector.threads c ∧
    TimeCollector.base (gc_events c evs) = TimeCollector.base c.
Proof.
  unfold gc_events.
  induction evs as [|[now e] evs IH]; intros c Hall; simpl.
  - exists []. by rewrite app_nil_r.
  - apply Forall_cons in Hall as [He Hall]. simpl in He.
    destruct (IH (TimeCollector.internal_gc_event_cb now e c) Hall)
      as (inner & Hlist & Hlen & Hentry & Hthreads & Hbase).
    rewrite Hlist, Hentry, Hthreads, Hbase.
    destruct e; try done; simpl;
      unfold MarkerTable.record; rewrite <- ?app_assoc;
      (eexists; split; [reflexivity|]; simpl; split; [lia|done]).
Qed.

(** X29. A GC pause marker spans the pause.  Whatever other GC events
    arrive between a GC_ENTER event at [t1] and the GC_EXIT event at
    [t2], the exit appends the interval marker GC_PAUSE from [t1] to
    [t2] after the markers recorded in between, of which there is at most
    one per event; the markers that were there stay in front, and the
    thread table and the tree are not touched. *)
Theorem gc_pause_spans_enter_to_exit :
  ∀ (c : TimeCollector.t) (t1 t2 : TimeStamp.t)
    (between : list (TimeStamp.t * TimeCollector.gc_event)),
    Forall (λ ev, ev.2 ≠ TimeCollector.RUBY_INTERNAL_EVENT_GC_ENTER) between →
    ∃ inner,
      GCMarkerTable.list
        (TimeCollector.gc_markers
           (gc_events c
              ((t1, TimeCollector.RUBY_INTERNAL_EVENT_GC_ENTER) :: between
               ++ [(t2, TimeCollector.RUBY_INTERNAL_EVENT_GC_EXIT)])))
      = GCMarkerTable.list (TimeCollector.gc_markers c) ++ inner ++
        [Marker.mk Marker.MARKER_GC_PAUSE Marker.INTERVAL t1 t2 (-1)] ∧
      length inner ≤ length between ∧
      TimeCollector.threads
        (gc_events c
           ((t1, TimeCollector.RUBY_INTERNAL_EVENT_GC_ENTER) :: between
            ++ [(t2, TimeCollector.RUBY_INTERNAL_EVENT_GC_EXIT)]))
      = TimeCollector.threads c ∧
      TimeCollector.base
        (gc_events c
           ((t1, TimeCollector.RUBY_INTERNAL_EVENT_GC_ENTER) :: between
            ++ [(t2, TimeCollector.RUBY_INTERNAL_EVENT_GC_EXIT)]))
      = TimeCollector.base c.
Proof.
  intros c t1 t2 between Hall.
  unfold gc_events. simpl. rewrite foldl_app. simpl.
  fold (gc_events
          (TimeCollector.with_gc_markers c
             (GCMarkerTable.record_gc_entered t1 (TimeCollector.gc_markers c)))
          between).
  destruct (gc_events_post between
              (TimeCollector.with_gc_markers c
                 (GCMarkerTable.record_gc_entered t1
                    (TimeCollector.gc_markers c))) Hall)
    as (inner & Hlist & Hlen & Hentry & Hthreads & Hbase).
  exists inner. rewrite Hlist, Hentry, Hthreads, Hbase. simpl.
  by rewrite <- app_assoc.
Qed.

Lemma gc_pause_spans_enter_to_exit_witness :
  ∃ inner,
    GCMarkerTable.list
      (TimeCollector.gc_markers
         (gc_events (TimeCollector.new 500%Z)
            ((10%Z, TimeCollector.RUBY_INTERNAL_EVENT_GC_ENTER)
             :: [(11%Z, TimeCollector.RUBY_INTERNAL_EVENT_GC_START);
                 (12%Z, TimeCollector.RUBY_INTERNAL_EVENT_GC_END_MARK)]
             ++ [(20%Z, TimeCollector.RUBY_INTERNAL_EVENT_GC_EXIT)])))
    = GCMarkerTable.list (TimeCollector.gc_markers (TimeCollector.new 500%Z))
      ++ inner ++
      [Marker.mk Marker.MARKER_GC_PAUSE Marker.INTERVAL 10%Z 20%Z (-1)] ∧
    length inner
      ≤ length [(11%Z, TimeCollector.RUBY_INTERNAL_EVENT_GC_START);
                (12%Z, TimeCollector.RUBY_INTERNAL_EVENT_GC_END_MARK)] ∧
    TimeCollector.threads
      (gc_events (TimeCollector.new 500%Z)
         ((10%Z, TimeCollector.RUBY_INTERNAL_EVENT_GC_ENTER)
          :: [(11%Z, TimeCollector.RUBY_INTERNAL_EVENT_GC_START);
              (12%Z, TimeCollector.RUBY_INTERNAL_EVENT_GC_END_MARK)]
          ++ [(20%Z, TimeCollector.RUBY_INTERNAL_EVENT_GC_EXIT)]))
    = TimeCollector.threads (TimeCollector.new 500%Z) ∧
    TimeCollector.base
      (gc_events (TimeCollector.new 500%Z)
         ((10%Z, TimeCollector.RUBY_INTERNAL_EVENT_GC_ENTER)
          :: [(11%Z, TimeCollector.RUBY_INTERNAL_EVENT_GC_START);
              (12%Z, TimeCollector.RUBY_INTERNAL_EVENT_GC_END_MARK)]
          ++ [(20%Z, TimeCollector.RUBY_INTERNAL_EVENT_GC_EXIT)]))
    = TimeCollector.base (TimeCollector.new 500%Z).
Proof.
  apply (gc_pause_spans_enter_to_exit (TimeCollector.new 500%Z) 10%Z 20%Z
           [(11%Z, TimeCollector.RUBY_INTERNAL_EVENT_GC_START);
            (12%Z, TimeCollector.RUBY_INTERNAL_EVENT_GC_END_MARK)]).
  repeat constructor; simpl; discriminate.
Defined.

Lemma Type_of_to_Z ty : Type_of_Z (Marker.Type_to_Z ty) = Some ty.
Proof. by destruct ty. Qed.

Lemma Phase_of_to_Z ph : Phase_of_Z (Marker.Phase_to_Z ph) = Some ph.
Proof. by destruct ph. Qed.

Lemma of_array_to_array m id :
  recordable m → of_array (<[0 := id]> (Marker.to_array m)) = Some m.
Proof.
  destruct m as [ty ph ts fin idx]. unfold recordable, Marker.to_array.
  simpl. intros Hrec. rewrite Type_of_to_Z, Phase_of_to_Z. simpl.
  unfold TimeStamp.nanoseconds. do 2 f_equal.
  - case_decide as Hph; [done|]. simpl. symmetry. by apply Hrec.
  - case_decide as Hidx; [by subst|done].
Qed.

Lemma rows_round_trip (ms : list Marker.t) id :
  Forall recordable ms →
  omap of_array ((λ m, <[0 := id]> (Marker.to_array m)) <$> ms) = ms ∧
  (λ row : list (option Z), row !! 0)
    <$> ((λ m, <[0 := id]> (Marker.to_array m)) <$> ms)
  = (λ _, Some id) <$> ms.
Proof.
  induction 1 as [|m ms Hm _ [IH1 IH2]]; [done|].
  cbn [fmap list_fmap omap list_omap].
  rewrite (of_array_to_array m id Hm). split; [by f_equal|].
  f_equal. exact IH2.
Qed.

(** X30. The exported markers lose nothing.  [get_markers] returns one
    row per marker, the GC markers first, tagged with the id of the main
    thread, then the markers of every thread in the order of the table,
    tagged with the id of the thread; and when only intervals carry a
    finish, as is the case for every marker the tables record, each
    marker can be read back from its row.  The collectors without
    markers return an empty array. *)
Theorem get_markers_round_trip :
  ∀ (h : Host.t) (main_thread : Z) (c : TimeCollector.t),
    Forall recordable (GCMarkerTable.list (TimeCollector.gc_markers c)) →
    Forall (λ t, Forall recordable (Thread.markers t))
      (ThreadTable.list (TimeCollector.threads c)) →
    omap of_array (markers h main_thread (Wall c))
      = GCMarkerTable.list (TimeCollector.gc_markers c)
        ++ (t ← ThreadTable.list (TimeCollector.threads c);
            Thread.markers t) ∧
    (λ row : list (option Z), row !! 0) <$> markers h main_thread (Wall c)
      = ((λ _, Some (Some (Host.rb_obj_id h main_thread)))
           <$> GCMarkerTable.list (TimeCollector.gc_markers c))
        ++ (t ← ThreadTable.list (TimeCollector.threads c);
            (λ _, Some (Some (Thread.ruby_thread_id t)))
              <$> Thread.markers t) ∧
    (∀ cc, markers h main_thread (Custom cc) = []) ∧
    (∀ rc, markers h main_thread (Retained rc) = []).
Proof.
  intros h main_thread c Hgc Hths.
  unfold markers, TimeCollector.get_markers. cbv zeta.
  rewrite omap_app, fmap_app.
  destruct (rows_round_trip _ (Some (Host.rb_obj_id h main_thread)) Hgc)
    as [-> ->].
  split; [f_equal|split; [f_equal|done]].
  - induction Hths as [|t l Ht _ IH]; [done|].
    rewrite !bind_cons, omap_app, IH. f_equal.
    by destruct (rows_round_trip _ (Some (Thread.ruby_thread_id t)) Ht)
      as [-> _].
  - induction Hths as [|t l Ht _ IH]; [done|].
    rewrite !bind_cons, fmap_app, IH. f_equal.
    by destruct (rows_round_trip _ (Some (Thread.ruby_thread_id t)) Ht)
      as [_ ->].
Qed.

(** The collector with three GC markers, two of them instants, and a
    thread with two interval markers; the main thread has id 2, the
    thread id 1. *)
Lemma get_markers_round_trip_witness :
  omap of_array (markers host0 2 (Wall wall_marked))
    = [Marker.mk Marker.MARKER_GC_START Marker.INSTANT 11%Z 0%Z (-1);
       Marker.mk Marker.MARKER_GC_END_MARK Marker.INSTANT 12%Z 0%Z (-1);
       Marker.mk Marker.MARKER_GC_PAUSE Marker.INTERVAL 10%Z 20%Z (-1)]
      ++ [Marker.mk Marker.MARKER_THREAD_RUNNING Marker.INTERVAL 100%Z 400%Z (-1);
          Marker.mk Marker.MARKER_THREAD_SUSPENDED Marker.INTERVAL 400%Z 600%Z 1] ∧
  (λ row : list (option Z), row !! 0) <$> markers host0 2 (Wall wall_marked)
    = [Some (Some 2%Z); Some (Some 2%Z); Some (Some 2%Z)]
      ++ [Some (Some 1%Z); Some (Some 1%Z)] ∧
  (∀ cc, markers host0 2 (Custom cc) = []) ∧
  (∀ rc, markers host0 2 (Retained rc) = []).
Proof.
  assert (Forall recordable
            (GCMarkerTable.list (TimeCollector.gc_markers wall_marked)))
    as Hgc.
  { vm_compute.
    repeat (apply Forall_cons; split;
            [intros Hne; try reflexivity; by destruct Hne|]).
    apply Forall_nil_2. }
  assert (Forall (λ t, Forall recordable (Thread.markers t))
            (ThreadTable.list (TimeCollector.threads wall_marked))) as Hths.
  { vm_compute. apply Forall_cons. split; [|apply Forall_nil_2].
    repeat (apply Forall_cons; split;
            [intros Hne; try reflexivity; by destruct Hne|]).
    apply Forall_nil_2. }
  pose proof (get_markers_round_trip host0 2%Z wall_marked Hgc Hths) as Hrt.
  vm_compute in Hrt. vm_compute. exact Hrt.
Defined.

(** ** The sampler tick, thread by thread *)

(** What a capture holds depends on the host only, not on what the
    buffer held before. *)
Lemma sample_independent h a b :
  RawSample.wf a → RawSample.wf b →
  RawSample.gc (RawSample.sample h a) = RawSample.gc (RawSample.sample h b) ∧
  RawSample.len (RawSample.sample h a) = RawSample.len (RawSample.sample h b) ∧
  RawSample.stack (RawSample.sample h a)
    = RawSample.stack (RawSample.sample h b).
Proof.
  intros (Hfa & Hla & _) (Hfb & Hlb & _).
  unfold RawSample.sample, RawSample.clear.
  destruct (Host.ruby_native_thread_p h); simpl; [|done].
  destruct (Host.rb_during_gc h); simpl; [done|].
  split; [done|]. split; [done|].
  unfold RawSample.stack, RawSample.profile_frames. simpl.
  set (got := take RawSample.MAX_LEN (Host.rb_profile_frames h)).
  assert (length got ≤ RawSample.MAX_LEN) as Hgot
    by (unfold got; rewrite length_take; lia).
  rewrite <- (length_fmap fst got) at 1 3.
  rewrite !write_from_take by (rewrite length_fmap; lia).
  rewrite <- (length_fmap snd got) at 1 2.
  rewrite !write_from_take by (rewrite length_fmap; lia).
  done.
Qed.

(** A stack that is in the tree already is interned without a change,
    at the node it is found at. *)
Lemma stack_index_found s fl q :
  RawSample.wf s → wf fl → RawSample.len s ≠ 0 →
  find fl root_ptr (RawSample.stack s) = Some q →
  FrameList.stack_index fl s = Ok (fl, ptr_index q) ∧
  FrameList.path fl (ptr_index q) = RawSample.stack s.
Proof.
  intros Hs Hwf Hne Hfind.
  assert (is_Some (node_of fl root_ptr)) as Hroot by (simpl; eauto).
  destruct (find_valid _ Hwf _ _ _ Hroot Hfind) as [n Hn].
  split.
  - rewrite stack_index_walk by done.
    rewrite (walk_found _ Hwf _ _ _ Hfind). bind_step.
    rewrite (proj2 (deref_node_of fl q n) Hn). bind_step.
    by rewrite (wf_node_index _ _ _ Hwf Hn).
  - rewrite (path_find _ Hwf _ _ _ Hfind). simpl. by rewrite path_root.
Qed.

(** The outcome of a tick for a record still holds of a tree that has
    grown since. *)
Lemma tick_outcome_ext target sample_start fl fl' t t' :
  wf fl → wf fl' → ext fl fl' →
  tick_outcome target sample_start fl t t' →
  tick_outcome target sample_start fl' t t'.
Proof.
  intros Hwf Hwf' Hext. unfold tick_outcome.
  destruct (Thread.state t); try done.
  intros Hout live Hlive. specialize (Hout live Hlive). cbv zeta in *.
  set (s := RawSample.sample target live) in *.
  destruct (RawSample.gc s || RawSample.empty s) eqn:Hskip; [done|].
  apply orb_false_iff in Hskip as [_ Hemp].
  unfold RawSample.empty in Hemp. apply bool_decide_eq_false in Hemp.
  assert (RawSample.wf s) as Hs by (by apply RawSample_sample_wf).
  destruct Hout as (idx & Hidx & _ & Hrec & Hdec & Hfrom).
  destruct (stack_index_ok s Hs fl Hwf Hemp)
    as (fl1 & q & Hidx1 & _ & _ & _ & Hfind).
  rewrite Hidx in Hidx1. injection Hidx1 as <- ->.
  destruct (stack_index_found s fl' q Hs Hwf' Hemp
              (find_ext _ _ _ _ _ Hext Hfind)) as [Hidx' Hpath'].
  exists (ptr_index q). done.
Qed.

(** The body of the sampler loop on one record, in full. *)
Lemma sample_one_outcome target sample_start fl live t :
  wf fl → cache_ok fl (Thread.translator t) → RawSample.wf live →
  (Thread.state t = Thread.RUNNING → Thread.pthread_id t ≠ 0%Z) →
  run_length_encoded (Thread.samples t) →
  (Z.of_nat (length (decode (Thread.samples t))) < SampleList.INT_MAX)%Z →
  ∃ fl' live' t',
    TimeCollector.sample_one target sample_start fl live t
      = Ok (fl', live', t') ∧
    wf fl' ∧ ext fl fl' ∧
    tick_outcome target sample_start fl' t t'.
Proof.
  intros Hwf Hc Hlive Hid Hrle Hroom.
  destruct (decide (Thread.state t = Thread.RUNNING)) as [Hrun|Hrun].
  - unfold TimeCollector.sample_one, tick_outcome.
    rewrite decide_True, Hrun by done.
    unfold GlobalSignalHandler.record_sample, assert.
    rewrite bool_decide_eq_true_2 by auto. bind_step.
    set (s0 := RawSample.sample target live).
    assert (RawSample.wf s0) as Hs0 by (by apply RawSample_sample_wf).
    destruct (RawSample.gc s0) eqn:Hgc.
    { exists fl, s0, t. split; [done|]. split; [done|].
      split; [apply ext_refl|]. intros live2 Hlive2. cbv zeta.
      destruct (sample_independent target live live2 Hlive Hlive2)
        as (Hg & _). fold s0 in Hg. by rewrite <- Hg, Hgc. }
    unfold TimeCollector.record_sample.
    destruct (RawSample.empty s0) eqn:Hemp; simpl negb; cbv iota.
    { bind_step. exists fl, s0, t. split; [done|]. split; [done|].
      split; [apply ext_refl|]. intros live2 Hlive2. cbv zeta.
      destruct (sample_independent target live live2 Hlive Hlive2)
        as (_ & Hl & _). fold s0 in Hl.
      unfold RawSample.empty in *. rewrite <- Hl, Hemp.
      by rewrite orb_true_r. }
    destruct (translate_post s0 fl (Thread.translator t) Hs0 Hwf Hc)
      as (fl' & tr' & q & Htr & Hwf' & Hext & _ & _ & _ & Hfind & _).
    rewrite Htr. bind_step.
    destruct (record_sample_step (Thread.samples t) (ptr_index q)
                sample_start (Thread.native_tid t) CATEGORY_NORMAL Hrle Hroom)
      as (sl' & Hrec & _ & Hdec & _).
    rewrite Hrec. bind_step.
    exists fl', s0, (Thread.with_samples (Thread.with_translator t tr') sl').
    split; [done|]. split; [done|]. split; [done|].
    intros live2 Hlive2. cbv zeta.
    destruct (sample_independent target live live2 Hlive Hlive2)
      as (Hg & Hl & Hst). fold s0 in Hg, Hl, Hst.
    set (s := RawSample.sample target live2) in *.
    assert (RawSample.wf s) as Hs by (by apply RawSample_sample_wf).
    unfold RawSample.empty in *. rewrite <- Hg, <- Hl, Hgc, Hemp.
    cbn [orb]. apply bool_decide_eq_false in Hemp.
    destruct (stack_index_found s fl' q Hs Hwf') as [Hidx Hpath];
      [lia|by rewrite <- Hst|].
    exists (ptr_index q). split; [done|]. split; [done|].
    split; [done|]. split; [done|]. by destruct t.
  - destruct (decide (Thread.state t = Thread.SUSPENDED)) as [Hsus|Hsus].
    + destruct (record_sample_step (Thread.samples t)
                  (Thread.stack_on_suspend_idx t) sample_start
                  (Thread.native_tid t) CATEGORY_IDLE Hrle Hroom)
        as (sl' & Hrec & _ & Hdec & _).
      assert (∀ target0 fl0 live0,
                TimeCollector.sample_one target0 sample_start fl0 live0 t
                = Ok (fl0, live0, Thread.with_samples t sl')) as Hone.
      { intros target0 fl0 live0. unfold TimeCollector.sample_one.
        rewrite decide_False, decide_True by done. by rewrite Hrec. }
      exists fl, live, (Thread.with_samples t sl').
      split; [apply Hone|]. split; [done|]. split; [apply ext_refl|].
      unfold tick_outcome. rewrite Hsus. done.
    + exists fl, live, t. split.
      { unfold TimeCollector.sample_one. by rewrite !decide_False. }
      split; [done|]. split; [apply ext_refl|].
      unfold tick_outcome. by destruct (Thread.state t).
Qed.

(** The loop over the table: every record is visited, in order, and gets
    the outcome of its state. *)
Lemma sample_threads_outcome targets sample_start l : ∀ i fl live,
  table_ok fl l → RawSample.wf live →
  Forall (λ t, Thread.state t = Thread.RUNNING → Thread.pthread_id t ≠ 0%Z) l →
  Forall (λ t, run_length_encoded (Thread.samples t)) l →
  samples_have_room l →
  ∃ fl' live' l',
    TimeCollector.sample_threads targets sample_start i fl live l
      = Ok (fl', live', l') ∧
    wf fl' ∧ ext fl fl' ∧ length l' = length l ∧
    ∀ k t, l !! k = Some t →
      ∃ t', l' !! k = Some t' ∧
            tick_outcome (targets (i + k)) sample_start fl' t t'.
Proof.
  induction l as [|t l IH]; intros i fl live [Hwf Hcs] Hlive Hids Hrle Hroom.
  - exists fl, live, []. split; [done|]. split; [done|].
    split; [apply ext_refl|]. split; [done|]. intros k t Hk. done.
  - apply Forall_cons in Hcs as [Hc Hcs], Hids as [Hid Hids],
      Hrle as [Hr Hrle], Hroom as [Hro Hroom].
    destruct (sample_one_outcome (targets i) sample_start fl live t
                Hwf Hc Hlive Hid Hr Hro)
      as (fl1 & live1 & t' & Hone & Hwf1 & Hext1 & Hout).
    destruct (sample_one_ok _ _ _ _ _ _ _ _ Hwf Hc Hlive Hone)
      as (_ & _ & _ & Hlive1).
    destruct (IH (S i) fl1 live1)
      as (fl' & live' & l' & Hrest & Hwf' & Hext' & Hlen & Hall);
      [|done|done|done|exact Hroom|].
    { split; [done|]. eapply Forall_impl; [exact Hcs|]. simpl.
      intros t0. by apply cache_ok_ext. }
    exists fl', live', (t' :: l'). simpl. rewrite Hone. bind_step.
    rewrite Hrest. bind_step. split; [done|]. split; [done|].
    split; [by eapply ext_trans|]. split; [by rewrite Hlen|].
    intros [|k] t0 Hk; simpl in Hk.
    + injection Hk as <-. exists t'. split; [done|].
      rewrite Nat.add_0_r.
      exact (tick_outcome_ext _ _ _ _ _ _ Hwf1 Hwf' Hext' Hout).
    + destruct (Hall k t0 Hk) as (t0' & Hk' & Hout').
      exists t0'. split; [done|].
      by replace (i + S k) with (S i + k) by lia.
Qed.

(** C3, as the code has it.  One tick of the sampler returns and visits
    every registered thread, in the order of the table.  RUNNING: a
    capture is taken; if it is GC-flagged or empty the record is left as
    it is; otherwise the captured stack is translated to its node of the
    tree and a sample at that node is appended to the thread's samples
    with category NORMAL, nothing but the samples and the translator of
    the record changing.  SUSPENDED: a sample at the stack index kept at
    suspend time is appended with category IDLE; no capture is taken, the
    capture buffer, the tree and the translator are not touched.  Any
    other state: the record is left as it is.  A sample is appended by
    [SampleList::record_sample], called with the time the tick started
    and the native id in the record. *)
Theorem sampler_tick_per_thread :
  ∀ (tk : TimeCollector.tick) (c : TimeCollector.t) (s : TimeCollector.sampler),
    threads_ok (BaseCollector.frame_list (TimeCollector.base c))
      (ThreadTable.list (TimeCollector.threads c)) →
    samples_have_room (ThreadTable.list (TimeCollector.threads c)) →
    RawSample.wf (TimeCollector.sample s) →
    ∃ c' s',
      TimeCollector.iteration tk c s = Ok (c', s') ∧
      length (ThreadTable.list (TimeCollector.threads c'))
        = length (ThreadTable.list (TimeCollector.threads c)) ∧
      ∀ i thread,
        ThreadTable.list (TimeCollector.threads c) !! i = Some thread →
        ∃ thread',
          ThreadTable.list (TimeCollector.threads c') !! i = Some thread' ∧
          match Thread.state thread with
          | Thread.RUNNING =>
              ∀ live, RawSample.wf live →
                let s := RawSample.sample (TimeCollector.targets tk i) live in
                if RawSample.gc s || RawSample.empty s then thread' = thread
                else
                  ∃ idx,
                    FrameList.stack_index
                      (BaseCollector.frame_list (TimeCollector.base c')) s
                      = Ok (BaseCollector.frame_list (TimeCollector.base c'),
                            idx) ∧
                    FrameList.path
                      (BaseCollector.frame_list (TimeCollector.base c')) idx
                      = RawSample.stack s ∧
                    SampleList.record_sample (Thread.samples thread) idx
                      (TimeCollector.sample_start tk)
                      (Thread.native_tid thread) CATEGORY_NORMAL
                      = Ok (Thread.samples thread') ∧
                    decode (Thread.samples thread')
                      = decode (Thread.samples thread)
                        ++ [(idx, Thread.native_tid thread, CATEGORY_NORMAL)] ∧
                    sampled_from thread thread'
          | Thread.SUSPENDED =>
              SampleList.record_sample (Thread.samples thread)
                (Thread.stack_on_suspend_idx thread)
                (TimeCollector.sample_start tk)
                (Thread.native_tid thread) CATEGORY_IDLE
                = Ok (Thread.samples thread') ∧
              decode (Thread.samples thread')
                = decode (Thread.samples thread)
                  ++ [(Thread.stack_on_suspend_idx thread,
                       Thread.native_tid thread, CATEGORY_IDLE)] ∧
              thread' = Thread.with_samples thread (Thread.samples thread') ∧
              ∀ target0 fl0 live0,
                TimeCollector.sample_one target0
                  (TimeCollector.sample_start tk) fl0 live0 thread
                  = Ok (fl0, live0, thread')
          | _ => thread' = thread
          end.
Proof.
  intros tk c s (Htab & _ & Hids & Hrle) Hroom Hlive.
  destruct (sample_threads_outcome (TimeCollector.targets tk)
              (TimeCollector.sample_start tk) _ 0 _ _
              Htab Hlive Hids Hrle Hroom)
    as (fl' & live' & l' & Hrun & _ & _ & Hlen & Hall).
  unfold TimeCollector.iteration. rewrite Hrun. bind_step.
  eexists _, _. split; [reflexivity|]. simpl. split; [done|].
  intros i thread Hi. destruct (Hall i thread Hi) as (thread' & Hi' & Hout).
  exists thread'. split; [done|]. exact Hout.
Qed.

(** A tick on the collector with a RUNNING, a SUSPENDED and a READY
    thread. *)
Lemma sampler_tick_per_thread_witness :
  ∃ c' s',
    TimeCollector.iteration tick0 wall_three_threads
      (TimeCollector.mk_sampler (RawSample.new (λ _, 0%Z)) 1000%Z)
      = Ok (c', s') ∧
    length (ThreadTable.list (TimeCollector.threads c'))
      = length (ThreadTable.list (TimeCollector.threads wall_three_threads)) ∧
    ∀ i thread,
      ThreadTable.list (TimeCollector.threads wall_three_threads) !! i
        = Some thread →
      ∃ thread',
        ThreadTable.list (TimeCollector.threads c') !! i = Some thread' ∧
        match Thread.state thread with
        | Thread.RUNNING =>
            ∀ live, RawSample.wf live →
              let s := RawSample.sample (TimeCollector.targets tick0 i) live in
              if RawSample.gc s || RawSample.empty s then thread' = thread
              else
                ∃ idx,
                  FrameList.stack_index
                    (BaseCollector.frame_list (TimeCollector.base c')) s
                    = Ok (BaseCollector.frame_list (TimeCollector.base c'),
                          idx) ∧
                  FrameList.path
                    (BaseCollector.frame_list (TimeCollector.base c')) idx
                    = RawSample.stack s ∧
                  SampleList.record_sample (Thread.samples thread) idx
                    (TimeCollector.sample_start tick0)
                    (Thread.native_tid thread) CATEGORY_NORMAL
                    = Ok (Thread.samples thread') ∧
                  decode (Thread.samples thread')
                    = decode (Thread.samples thread)
                      ++ [(idx, Thread.native_tid thread, CATEGORY_NORMAL)] ∧
                  sampled_from thread thread'
        | Thread.SUSPENDED =>
            SampleList.record_sample (Thread.samples thread)
              (Thread.stack_on_suspend_idx thread)
              (TimeCollector.sample_start tick0)
              (Thread.native_tid thread) CATEGORY_IDLE
              = Ok (Thread.samples thread') ∧
            decode (Thread.samples thread')
              = decode (Thread.samples thread)
                ++ [(Thread.stack_on_suspend_idx thread,
                     Thread.native_tid thread, CATEGORY_IDLE)] ∧
            thread' = Thread.with_samples thread (Thread.samples thread') ∧
            ∀ target0 fl0 live0,
              TimeCollector.sample_one target0
                (TimeCollector.sample_start tick0) fl0 live0 thread
                = Ok (fl0, live0, thread')
        | _ => thread' = thread
        end.
Proof.
  apply (sampler_tick_per_thread tick0 wall_three_threads
           (TimeCollector.mk_sampler (RawSample.new (λ _, 0%Z)) 1000%Z)).
  - split.
    { split; [apply wf_new|]. repeat constructor; apply cache_ok_new. }
    split.
    { apply (NoDup_fmap_2_strong Z.of_nat [1; 2; 3]).
      - intros x y _ _. apply Nat2Z.inj.
      - apply NoDup_seq with (j := 1) (n := 3). }
    split; [by repeat constructor|].
    repeat constructor; apply run_length_encoded_new.
  - repeat constructor.
  - apply RawSample_new_wf.
Defined.

(** ** A thread suspended where no stack can be captured *)

(** C10. On an empty sample [translate] returns [-1], the index of the
    root, leaves the tree alone and sets the cached length to [0].  So when
    the capture taken for a SUSPENDED notification is empty (the thread is
    not native, or GC is running), the record ends up SUSPENDED with
    stack-index-at-suspend [-1] and with native thread id 0, its samples as
    they were.  A sampler tick then appends to those samples one IDLE
    sample with stack index [-1], and leaves the record SUSPENDED with
    stack-index-at-suspend [-1] for the ticks that follow. *)
Theorem empty_capture_gives_root_index :
  ∀ (h target : Host.t) (fl : FrameList.t) (tbl : ThreadTable.t) (th : Z)
    (i : nat) (thread : Thread.t) (tr : SampleTranslator.t) (s live : RawSample.t)
    (sample_start : TimeStamp.t),
    index (root_stack_node fl) = (-1)%Z →
    RawSample.len s = 0 →
    list_find (λ t, th = Thread.ruby_thread t) (ThreadTable.list tbl)
      = Some (i, thread) →
    Thread.state thread = Thread.RUNNING ∨ Thread.state thread = Thread.STARTED
      ∨ Thread.state thread = Thread.SUSPENDED →
    Host.ruby_native_thread_p h = false ∨ Host.rb_during_gc h = true →
    SampleTranslator.translate fl tr s =
      Ok (fl, SampleTranslator.mk (-1) (SampleTranslator.frames tr)
                (SampleTranslator.frame_indexes tr) 0, (-1)%Z) ∧
    ∃ thread',
      ThreadTable.suspended h fl tbl th =
        Ok (fl, ThreadTable.mk (<[i := thread']> (ThreadTable.list tbl))) ∧
      Thread.state thread' = Thread.SUSPENDED ∧
      Thread.stack_on_suspend_idx thread' = (-1)%Z ∧
      Thread.samples thread' = Thread.samples thread ∧
      Thread.native_tid thread' = 0%Z ∧
      TimeCollector.sample_one target sample_start fl live thread' =
        (sl ← SampleList.record_sample (Thread.samples thread) (-1) sample_start
                (Thread.native_tid thread') CATEGORY_IDLE;
         Ok (fl, live, Thread.with_samples thread' sl)) ∧
      (run_length_encoded (Thread.samples thread) →
       (Z.of_nat (length (decode (Thread.samples thread)))
          < SampleList.INT_MAX)%Z →
       ∃ sl,
         TimeCollector.sample_one target sample_start fl live thread'
           = Ok (fl, live, Thread.with_samples thread' sl) ∧
         decode sl
           = decode (Thread.samples thread) ++ [((-1)%Z, 0%Z, CATEGORY_IDLE)] ∧
         run_length_encoded sl ∧
         Thread.state (Thread.with_samples thread' sl) = Thread.SUSPENDED ∧
         Thread.stack_on_suspend_idx (Thread.with_samples thread' sl)
           = (-1)%Z).
Proof.
  intros h target fl tbl th i thread tr s live sample_start
    Hroot Hlen Hfind Hst Hcap.
  split; [by apply translate_empty|].
  unfold ThreadTable.suspended. rewrite (set_state_found _ _ _ _ _ _ _ Hfind).
  unfold ThreadTable.update_thread. rewrite decide_True by done.
  rewrite translate_empty by (done || by apply RawSample_sample_empty).
  bind_step.
  set (th1 := Thread.with_stack_on_suspend_idx _ _).
  destruct (set_state_to_suspended h th1) as (th2 & Hset & Hst2 & Hidx2 & Hsam2);
    [exact Hst|].
  rewrite Hset. bind_step.
  rewrite Hst2, decide_False by done.
  eexists. split; [reflexivity|].
  split; [done|]. split; [done|]. split; [done|]. split; [done|].
  assert (TimeCollector.sample_one target sample_start fl live
            (Thread.with_native_tid (Thread.with_pthread_id th2 0) 0) =
          (sl ← SampleList.record_sample (Thread.samples thread) (-1)
                  sample_start 0%Z CATEGORY_IDLE;
           Ok (fl, live,
               Thread.with_samples
                 (Thread.with_native_tid (Thread.with_pthread_id th2 0) 0)
                 sl))) as Hone.
  { unfold TimeCollector.sample_one.
    cbn [Thread.state Thread.with_native_tid Thread.with_pthread_id
         Thread.stack_on_suspend_idx Thread.samples Thread.native_tid].
    rewrite Hst2, decide_False, decide_True by done.
    by rewrite Hidx2, Hsam2. }
  split; [exact Hone|].
  intros Hrle Hroom.
  destruct (record_sample_step (Thread.samples thread) (-1) sample_start 0%Z
              CATEGORY_IDLE Hrle Hroom) as (sl & Hrec & Hrle' & Hdec & _).
  exists sl. rewrite Hone, Hrec. done.
Qed.

(** The RUNNING thread that has two samples is suspended on a thread
    that is not native; the tick that follows makes its samples three. *)
Lemma empty_capture_gives_root_index_witness :
  SampleTranslator.translate FrameList.new (SampleTranslator.new (λ _, 0%Z))
    (RawSample.new (λ _, 0%Z)) =
    Ok (FrameList.new,
        SampleTranslator.mk (-1)
          (SampleTranslator.frames (SampleTranslator.new (λ _, 0%Z)))
          (SampleTranslator.frame_indexes (SampleTranslator.new (λ _, 0%Z))) 0,
        (-1)%Z) ∧
  ∃ thread',
    ThreadTable.suspended host_foreign FrameList.new
      (ThreadTable.mk [thread_sampled]) 1 =
      Ok (FrameList.new, ThreadTable.mk (<[0 := thread']> [thread_sampled])) ∧
    Thread.state thread' = Thread.SUSPENDED ∧
    Thread.stack_on_suspend_idx thread' = (-1)%Z ∧
    Thread.samples thread' = Thread.samples thread_sampled ∧
    Thread.native_tid thread' = 0%Z ∧
    ∃ sl,
      TimeCollector.sample_one host0 300%Z FrameList.new
        (RawSample.new (λ _, 0%Z)) thread'
        = Ok (FrameList.new, RawSample.new (λ _, 0%Z),
              Thread.with_samples thread' sl) ∧
      decode sl
        = decode (Thread.samples thread_sampled)
          ++ [((-1)%Z, 0%Z, CATEGORY_IDLE)] ∧
      run_length_encoded sl ∧
      Thread.state (Thread.with_samples thread' sl) = Thread.SUSPENDED ∧
      Thread.stack_on_suspend_idx (Thread.with_samples thread' sl) = (-1)%Z.
Proof.
  destruct (empty_capture_gives_root_index host_foreign host0 FrameList.new
              (ThreadTable.mk [thread_sampled]) 1 0 thread_sampled
              (SampleTranslator.new (λ _, 0%Z)) (RawSample.new (λ _, 0%Z))
              (RawSample.new (λ _, 0%Z)) 300%Z)
    as (Htr & thread' & Hsus & Hst & Hidx & Hsam & Htid & _ & Hidle).
  - reflexivity.
  - reflexivity.
  - reflexivity.
  - left. reflexivity.
  - left. reflexivity.
  - split; [exact Htr|]. exists thread'.
    split; [exact Hsus|]. split; [exact Hst|]. split; [exact Hidx|].
    split; [exact Hsam|]. split; [exact Htid|].
    apply Hidle.
    + split; [done|]. split; [by repeat constructor|].
      intros [|k] a b Ha Hb; done.
    + vm_compute. reflexivity.
Defined.

(** ** A second SUSPENDED notification *)

(** C5, as the code has it.  A SUSPENDED notification for a thread that
    is already SUSPENDED adds no marker and changes no state:
    [Thread::set_state] returns the record as it is, and after
    [ThreadTable::set_state] the record has the markers, the state, the
    time of the last state change and the samples it had.  The record is
    not left alone, though.  Before it calls [Thread::set_state],
    [ThreadTable::set_state] captures the stack again and translates it,
    which may add nodes to the tree, and stores the new index and the
    translator in the record; after the call it sets both native ids to
    zero. *)
Theorem duplicate_suspended_keeps_markers_and_state :
  ∀ (h : Host.t) (fl : FrameList.t) (tbl : ThreadTable.t) (th : Z) (i : nat)
    (thread : Thread.t),
    table_ok fl (ThreadTable.list tbl) →
    list_find (λ t, th = Thread.ruby_thread t) (ThreadTable.list tbl)
      = Some (i, thread) →
    Thread.state thread = Thread.SUSPENDED →
    Thread.set_state h thread Thread.SUSPENDED = Ok thread ∧
    ∃ fl' thread',
      ThreadTable.suspended h fl tbl th =
        Ok (fl', ThreadTable.mk (<[i := thread']> (ThreadTable.list tbl))) ∧
      Thread.markers thread' = Thread.markers thread ∧
      Thread.state thread' = Thread.SUSPENDED ∧
      Thread.state_changed_at thread' = Thread.state_changed_at thread ∧
      Thread.samples thread' = Thread.samples thread ∧
      wf fl' ∧ ext fl fl' ∧
      ∃ tr idx,
        SampleTranslator.translate fl (Thread.translator thread)
          (RawSample.sample h (RawSample.new (Host.junk h)))
          = Ok (fl', tr, idx) ∧
        FrameList.path fl' idx
          = RawSample.stack (RawSample.sample h (RawSample.new (Host.junk h))) ∧
        thread' =
          zero_ids (Thread.with_stack_on_suspend_idx
                      (Thread.with_translator thread tr) idx).
Proof.
  intros h fl tbl th i thread Hok Hfind Hst.
  destruct (table_ok_find _ _ _ _ _ Hok Hfind) as [Hwf Hc].
  split; [by apply set_state_suspended_twice|].
  unfold ThreadTable.suspended. rewrite (set_state_found _ _ _ _ _ _ _ Hfind).
  unfold ThreadTable.update_thread. rewrite decide_True by done.
  assert (Hs : RawSample.wf (RawSample.sample h (RawSample.new (Host.junk h))))
    by auto with vernier.
  destruct (translate_post _ fl (Thread.translator thread) Hs Hwf Hc)
    as (fl' & tr' & q & Htr & Hwf' & Hext & _ & _ & _ & Hfindq & _).
  cbv zeta. rewrite Htr. bind_step.
  rewrite set_state_suspended_twice by done. bind_step.
  cbn [Thread.state Thread.with_stack_on_suspend_idx Thread.with_translator].
  rewrite Hst, decide_False by done.
  eexists _, _. split; [reflexivity|].
  split; [done|]. split; [done|]. split; [done|]. split; [done|].
  split; [done|]. split; [done|].
  exists tr', (ptr_index q). split; [done|]. split; [|done].
  rewrite (path_find _ Hwf' _ _ _ Hfindq). simpl. by rewrite path_root.
Qed.

(** A record that is SUSPENDED with the ids 7 and 8 and the root as its
    stack is notified again where two frames are captured. *)
Lemma duplicate_suspended_keeps_markers_and_state_witness :
  Thread.set_state host0 (Thread.new host0 Thread.SUSPENDED 7 1) Thread.SUSPENDED
    = Ok (Thread.new host0 Thread.SUSPENDED 7 1) ∧
  ∃ fl' thread',
    ThreadTable.suspended host0 FrameList.new
      (ThreadTable.mk [Thread.new host0 Thread.SUSPENDED 7 1]) 1 =
      Ok (fl', ThreadTable.mk
                 (<[0 := thread']> [Thread.new host0 Thread.SUSPENDED 7 1])) ∧
    Thread.markers thread' = Thread.markers (Thread.new host0 Thread.SUSPENDED 7 1) ∧
    Thread.state thread' = Thread.SUSPENDED ∧
    Thread.state_changed_at thread' =
      Thread.state_changed_at (Thread.new host0 Thread.SUSPENDED 7 1) ∧
    Thread.samples thread' = Thread.samples (Thread.new host0 Thread.SUSPENDED 7 1) ∧
    wf fl' ∧ ext FrameList.new fl' ∧
    ∃ tr idx,
      SampleTranslator.translate FrameList.new
        (Thread.translator (Thread.new host0 Thread.SUSPENDED 7 1))
        (RawSample.sample host0 (RawSample.new (Host.junk host0)))
        = Ok (fl', tr, idx) ∧
      FrameList.path fl' idx
        = RawSample.stack
            (RawSample.sample host0 (RawSample.new (Host.junk host0))) ∧
      thread' =
        zero_ids (Thread.with_stack_on_suspend_idx
                    (Thread.with_translator
                       (Thread.new host0 Thread.SUSPENDED 7 1) tr) idx).
Proof.
  apply (duplicate_suspended_keeps_markers_and_state host0 FrameList.new
           (ThreadTable.mk [Thread.new host0 Thread.SUSPENDED 7 1]) 1 0
           (Thread.new host0 Thread.SUSPENDED 7 1)).
  - apply table_ok_one.
  - reflexivity.
  - reflexivity.
Defined.

(** C5 as stated fails: the second notification is not a no-op.  A
    RUNNING thread is suspended where the stack [fb; fa] is captured, and
    notified again where the stack is [fa; fc].  The state and the
    markers are the same after the second notification, but the tree has
    grown from 2 to 4 nodes and the stack index at suspend has moved from
    1 to 3, which is where the next tick puts the IDLE sample. *)
Lemma duplicate_suspended_overwrites_stack_index :
  ∃ fl1 t1 fl2 t2,
    ThreadTable.suspended host0 FrameList.new
      (ThreadTable.mk [Thread.new host0 Thread.RUNNING 7 1]) 1
      = Ok (fl1, ThreadTable.mk [t1]) ∧
    ThreadTable.suspended host_ac fl1 (ThreadTable.mk [t1]) 1
      = Ok (fl2, ThreadTable.mk [t2]) ∧
    Thread.state t1 = Thread.SUSPENDED ∧
    Thread.state t2 = Thread.SUSPENDED ∧
    Thread.markers t2 = Thread.markers t1 ∧
    Thread.stack_on_suspend_idx t1 = 1%Z ∧
    Thread.stack_on_suspend_idx t2 = 3%Z ∧
    length (stack_node_list fl1) = 2 ∧
    length (stack_node_list fl2) = 4 ∧
    match TimeCollector.sample_one host0 700%Z fl1 (RawSample.new (λ _, 0%Z)) t1
    with
    | Ok (_, _, t) => decode (Thread.samples t)
    | Err _ => []
    end = [(1%Z, 0%Z, CATEGORY_IDLE)] ∧
    match TimeCollector.sample_one host0 700%Z fl2 (RawSample.new (λ _, 0%Z)) t2
    with
    | Ok (_, _, t) => decode (Thread.samples t)
    | Err _ => []
    end = [(3%Z, 0%Z, CATEGORY_IDLE)].
Proof.
  do 4 eexists.
  split; [vm_compute; reflexivity|].
  split; [vm_compute; reflexivity|].
  repeat split; vm_compute; reflexivity.
Qed.
